(** * big_integer: a shallow embedding of src/bigint-Kolya28/big_integer.{h,cpp}

    The arbitrary-precision signed integer of the repository is a pair of a
    little-endian vector of 32-bit limbs and a sign flag.  Every function
    below is a transcription of the C++ function of the same name; limbs are
    integers of [Z] with the 32-bit and 64-bit wrap-around written out. *)

From Stdlib Require Import ZArith Lia Ascii String.
From stdpp Require Import base option numbers list.

Local Open Scope Z_scope.

(** ** Limbs *)

(** [digit_type] is [uint32_t], [double_digit_type] is [uint64_t]. *)
Definition DIGIT_BITS : Z := 32.
Definition DIGIT_MAX_VALUE : Z := 4294967295.
Definition DIGIT_BASE : Z := DIGIT_MAX_VALUE + 1.
Definition DIGITS_10 : nat := 9.
Definition DIGIT_MOD10 : Z := 1000000000.

(** [static_cast<digit_type>(x)] and arithmetic in [double_digit_type]. *)
Definition to_digit (x : Z) : Z := x mod 2 ^ 32.
Definition to_double (x : Z) : Z := x mod 2 ^ 64.

(** [~d] on a [uint32_t]. *)
Definition digit_not (d : Z) : Z := DIGIT_MAX_VALUE - d.

(** ** The value type *)

Record big_integer : Type := mk_big_integer {
  _data : list Z;
  _negative : bool
}.

(** ** Outcomes of a call

    [Throw e t]: the call is left by exception [e] with the object it was
    invoked on in state [t]; [length_error] is what [std::vector] throws when
    asked for more elements than it can hold.  [Undefined]: a vector was
    indexed out of its range.  [Timeout]: the iteration budget of the model
    ran out. *)

Inductive exn : Type :=
| invalid_argument (what : string)
| length_error.

Inductive outcome (A : Type) : Type :=
| Ok (a : A)
| Throw (e : exn) (t : big_integer)
| Undefined
| Timeout.
Arguments Ok {A} a.
Arguments Throw {A} e t.
Arguments Undefined {A}.
Arguments Timeout {A}.

#[global] Instance outcome_ret : MRet outcome := fun A a => Ok a.
#[global] Instance outcome_bind : MBind outcome := fun A B f m =>
  match m with
  | Ok a => f a
  | Throw e t => Throw e t
  | Undefined => Undefined
  | Timeout => Timeout
  end.

(** [v[i]] and [v[i] = x] on a [std::vector]: out of range is undefined. *)
Definition vec_at (v : list Z) (i : nat) : outcome Z :=
  match v !! i with
  | Some x => Ok x
  | None => Undefined
  end.

Definition vec_set (v : list Z) (i : nat) (x : Z) : outcome (list Z) :=
  if decide (i < length v)%nat then Ok (<[i:=x]> v) else Undefined.

(** ** Aliasing

    A compound assignment sees two objects: the one it assigns to, and its
    right-hand side, which is a [const&] and may be the very same object.
    [Self] is the object being assigned to, whose limbs are the current state
    of the computation; [Other b] is a distinct object of value [b]. *)

Inductive operand : Type := Self | Other (b : big_integer).

Definition data_of (cur : list Z) (r : operand) : list Z :=
  match r with
  | Self => cur
  | Other b => _data b
  end.

Definition deref (this : big_integer) (r : operand) : big_integer :=
  match r with
  | Self => this
  | Other b => b
  end.

(** ** Observers and small mutators *)

Definition is_zero (a : big_integer) : bool :=
  match _data a with
  | [] => true
  | _ => false
  end.

Definition is_negative (a : big_integer) : bool :=
  _negative a && negb (is_zero a).

Definition negate (a : big_integer) : big_integer :=
  mk_big_integer (_data a) (negb (_negative a)).

(** [while (!_data.empty() && _data.back() == 0) _data.pop_back();]
    run on the vector read from its back. *)
Fixpoint pop_zeros (back_first : list Z) : list Z :=
  match back_first with
  | [] => []
  | x :: rest => if x =? 0 then pop_zeros rest else x :: rest
  end.

Definition trim_data (d : list Z) : list Z := rev (pop_zeros (rev d)).

Definition trim (a : big_integer) : big_integer :=
  mk_big_integer (trim_data (_data a)) (_negative a).

(** ** Limb-scalar primitives (range-for loops over [_data]) *)

Fixpoint abs_add_int_loop (d : list Z) (s : Z) : list Z * Z :=
  match d with
  | [] => ([], s)
  | x :: rest =>
      let s1 := to_double (s + x) in
      let '(rest', s') := abs_add_int_loop rest (Z.shiftr s1 DIGIT_BITS) in
      (to_digit s1 :: rest', s')
  end.

Definition abs_add_int (rhs : Z) (a : big_integer) : big_integer :=
  let '(d, s) := abs_add_int_loop (_data a) rhs in
  mk_big_integer (if s =? 0 then d else d ++ [to_digit s]) (_negative a).

Fixpoint abs_sub_int_loop (d : list Z) (borrow : Z) : list Z :=
  match d with
  | [] => []
  | x :: rest =>
      let diff := to_double (x - borrow) in
      to_digit diff :: abs_sub_int_loop rest (if diff >? DIGIT_MAX_VALUE then 1 else 0)
  end.

Definition abs_sub_int (rhs : Z) (a : big_integer) : big_integer :=
  trim (mk_big_integer (abs_sub_int_loop (_data a) rhs) (_negative a)).

Fixpoint abs_mul_int_loop (d : list Z) (rhs s : Z) : list Z * Z :=
  match d with
  | [] => ([], s)
  | x :: rest =>
      let s1 := to_double (x * rhs + s) in
      let '(rest', s') := abs_mul_int_loop rest rhs (Z.shiftr s1 DIGIT_BITS) in
      (to_digit s1 :: rest', s')
  end.

Definition abs_mul_int (rhs : Z) (a : big_integer) : big_integer :=
  let '(d, s) := abs_mul_int_loop (_data a) rhs 0 in
  trim (mk_big_integer (if s =? 0 then d else d ++ [to_digit s]) (_negative a)).

(** The loop of [abs_divide_int] walks [rbegin .. rend]: the argument is the
    vector read from its back, and so is the result. *)
Fixpoint abs_divide_int_loop (back_first : list Z) (val remainder : Z) : list Z * Z :=
  match back_first with
  | [] => ([], remainder)
  | x :: rest =>
      let r := Z.lor (to_double (Z.shiftl remainder DIGIT_BITS)) x in
      let '(rest', remainder') := abs_divide_int_loop rest val (r mod val) in
      (to_digit (r / val) :: rest', remainder')
  end.

(** Returns the new object and the remainder (converted to [digit_type]). *)
Definition abs_divide_int (val : Z) (a : big_integer) : big_integer * Z :=
  let '(q, r) := abs_divide_int_loop (rev (_data a)) val 0 in
  (trim (mk_big_integer (rev q) (_negative a)), to_digit r).

(** ** Magnitude addition, subtraction and multiplication (index loops)

    The three references of [abs_add] and [abs_subtract] (the receiver, [rhs]
    and [output]) are operands of one compound assignment, and at every call
    site [output] is the object being assigned to; this is what the assertion
    [this == &output || &rhs == &output] records.  The limbs [out] of that
    object are the state of the loops, and a read through [Self] sees the
    writes already made. *)

(** [for (; i < rhs._data.size(); i++)] of [abs_add]. *)
Fixpoint abs_add_low (n i : nat) (recv rhs : operand) (out : list Z) (carry : Z)
  : outcome (list Z * Z) :=
  match n with
  | O => Ok (out, carry)
  | S n' =>
      x ← vec_at (data_of out rhs) i;
      y ← vec_at (data_of out recv) i;
      let c := to_double (to_double (carry + x) + y) in
      out' ← vec_set out i (to_digit c);
      abs_add_low n' (S i) recv rhs out' (Z.shiftr c DIGIT_BITS)
  end.

(** [for (; i < _data.size(); i++)] of [abs_add]. *)
Fixpoint abs_add_high (n i : nat) (recv : operand) (out : list Z) (carry : Z)
  : outcome (list Z * Z) :=
  match n with
  | O => Ok (out, carry)
  | S n' =>
      y ← vec_at (data_of out recv) i;
      let c := to_double (carry + y) in
      out' ← vec_set out i (to_digit c);
      abs_add_high n' (S i) recv out' (Z.shiftr c DIGIT_BITS)
  end.

(** The body of [abs_add] once the receiver is the longer operand. *)
Definition abs_add_ordered (recv rhs : operand) (this : big_integer) : outcome big_integer :=
  let out := _data this in
  let rhs_size := length (data_of out rhs) in
  '(out, carry) ← abs_add_low rhs_size 0 recv rhs out 0;
  let recv_size := length (data_of out recv) in
  let out := resize recv_size 0 out in
  '(out, carry) ← abs_add_high (recv_size - rhs_size) rhs_size recv out carry;
  Ok (mk_big_integer (if carry =? 0 then out else out ++ [to_digit carry]) (_negative this)).

Definition abs_add (recv rhs : operand) (this : big_integer) : outcome big_integer :=
  if (length (data_of (_data this) recv) <? length (data_of (_data this) rhs))%nat
  then abs_add_ordered rhs recv this
  else abs_add_ordered recv rhs this.

(** [for (; i < size; i++)] of [abs_subtract]. *)
Fixpoint abs_subtract_low (n i : nat) (recv rhs : operand) (out : list Z) (borrow : Z)
  : outcome (list Z * Z) :=
  match n with
  | O => Ok (out, borrow)
  | S n' =>
      x ← vec_at (data_of out recv) i;
      y ← vec_at (data_of out rhs) i;
      let diff := to_double (x - y - borrow) in
      out' ← vec_set out i (to_digit diff);
      abs_subtract_low n' (S i) recv rhs out' (if diff >? DIGIT_MAX_VALUE then 1 else 0)
  end.

(** [for (; i < size && borrow; i++)] of [abs_subtract]. *)
Fixpoint abs_subtract_high (n i : nat) (recv : operand) (out : list Z) (borrow : Z)
  : outcome (list Z) :=
  match n with
  | O => Ok out
  | S n' =>
      if borrow =? 0 then Ok out
      else
        x ← vec_at (data_of out recv) i;
        let diff := to_double (x - borrow) in
        out' ← vec_set out i (to_digit diff);
        abs_subtract_high n' (S i) recv out' (if diff >? DIGIT_MAX_VALUE then 1 else 0)
  end.

(** [max_size] is a [size_t] defaulting to its largest value: [None]. *)
Definition abs_subtract (recv rhs : operand) (max_size : option nat) (this : big_integer)
  : outcome big_integer :=
  let neg := is_negative (deref this recv) in
  let out := _data this in
  let cap (n : nat) := match max_size with Some m => Nat.min m n | None => n end in
  let size := cap (length (data_of out rhs)) in
  '(out, borrow) ← abs_subtract_low size 0 recv rhs out 0;
  let size' := cap (length (data_of out recv)) in
  out ← abs_subtract_high (size' - size) size recv out borrow;
  Ok (trim (mk_big_integer out neg)).

(** Inner loop of [abs_mul]: [for (size_t j = 0; j < rhs_size; ++j)]. *)
Fixpoint abs_mul_inner (n j i : nat) (rhs : operand) (data_i : Z) (d : list Z) (carry : Z)
  : outcome (list Z * Z) :=
  match n with
  | O => Ok (d, carry)
  | S n' =>
      r ← vec_at (data_of d rhs) j;
      c ← vec_at d (i + j);
      let res := to_double (data_i * r + c + carry) in
      d' ← vec_set d (i + j) (to_digit res);
      abs_mul_inner n' (S j) i rhs data_i d' (to_digit (Z.shiftr res DIGIT_BITS))
  end.

(** Outer loop of [abs_mul]: [for (size_t i = 0; i < this_size; ++i)]. *)
Fixpoint abs_mul_outer (n i rhs_size : nat) (rhs : operand) (d : list Z) : outcome (list Z) :=
  match n with
  | O => Ok d
  | S n' =>
      data_i ← vec_at d (i + rhs_size);
      '(d1, carry) ← abs_mul_inner rhs_size 0 i rhs data_i d 0;
      d2 ← vec_set d1 (i + rhs_size) carry;
      abs_mul_outer n' (S i) rhs_size rhs d2
  end.

Definition abs_mul (rhs : operand) (this : big_integer) : outcome big_integer :=
  let this_size := length (_data this) in
  let rhs_size := length (data_of (_data this) rhs) in
  let d := replicate rhs_size 0 ++ _data this in
  d' ← abs_mul_outer this_size 0 rhs_size rhs d;
  Ok (trim (mk_big_integer d' (_negative this))).

(** ** The two's-complement view *)

Inductive bitwise_op : Type := bit_and | bit_or | bit_xor.

Definition op_bool (op : bitwise_op) (x y : bool) : bool :=
  match op with
  | bit_and => x && y
  | bit_or => x || y
  | bit_xor => xorb x y
  end.

Definition op_digit (op : bitwise_op) (x y : Z) : Z :=
  match op with
  | bit_and => Z.land x y
  | bit_or => Z.lor x y
  | bit_xor => Z.lxor x y
  end.

(** Returns the converted limb and the new value of [carry]. *)
Definition twos_complement (neg : bool) (digit carry : Z) : Z * Z :=
  if neg then
    let res := to_double (carry + digit_not digit) in
    (to_digit res, to_digit (Z.shiftr res DIGIT_BITS))
  else (digit, carry).

(** The loop of [bitwise_operation]; [is_negative()] and
    [rhs.is_negative()] are evaluated on the current object at each pass. *)
Fixpoint bitwise_loop (n i : nat) (op : bitwise_op) (result_negative flag : bool)
    (rhs : operand) (d : list Z) (a_carry b_carry res_carry : Z) : outcome (list Z) :=
  match n with
  | O => Ok d
  | S n' =>
      let this := mk_big_integer d flag in
      x ← vec_at d i;
      let '(a_digit, a_carry') := twos_complement (is_negative this) x a_carry in
      y ← (if (i <? length (data_of d rhs))%nat then vec_at (data_of d rhs) i else Ok 0);
      let '(b_digit, b_carry') := twos_complement (is_negative (deref this rhs)) y b_carry in
      let res_digit := op_digit op a_digit b_digit in
      let '(r, res_carry') := twos_complement result_negative res_digit res_carry in
      d' ← vec_set d i r;
      bitwise_loop n' (S i) op result_negative flag rhs d' a_carry' b_carry' res_carry'
  end.

Definition bitwise_operation (op : bitwise_op) (rhs : operand) (this : big_integer)
  : outcome big_integer :=
  let result_negative := op_bool op (is_negative this) (is_negative (deref this rhs)) in
  let size := Nat.max (length (_data this)) (length (data_of (_data this) rhs)) in
  let d := resize size 0 (_data this) in
  d' ← bitwise_loop size 0 op result_negative (_negative this) rhs d 1 1 1;
  Ok (trim (mk_big_integer d' result_negative)).

(** ** Constructors *)

Definition big_integer_default : big_integer := mk_big_integer [] false.

(** [big_integer(unsigned long long val, bool negative)]. *)
Definition big_integer_ull (val : Z) (negative : bool) : big_integer :=
  if val =? 0 then mk_big_integer [] negative
  else
    let val' := Z.shiftr val DIGIT_BITS in
    mk_big_integer
      (if val' =? 0 then [to_digit val] else [to_digit val; to_digit val'])
      negative.

Definition LLONG_MAX : Z := 9223372036854775807.
Definition LLONG_MIN : Z := - LLONG_MAX - 1.

(** [big_integer(long long val)]; the narrower signed types convert to
    [long long], the unsigned ones to [unsigned long long]. *)
Definition big_integer_ll (val : Z) : big_integer :=
  big_integer_ull
    (if val =? LLONG_MIN then to_double (LLONG_MAX + 1) else to_double (Z.abs val))
    (val <? 0).

(** ** Compound assignments *)

(** [while (!_data.empty() && _data.back() == rhs._data[_data.size() - 1])
    _data.pop_back();] — at most [_data.size()] passes. *)
Fixpoint strip_equal_high (n : nat) (rhs : operand) (d : list Z) : outcome (list Z) :=
  match n with
  | O => Ok d
  | S n' =>
      match last d with
      | None => Ok d
      | Some x =>
          y ← vec_at (data_of d rhs) (length d - 1);
          if x =? y then strip_equal_high n' rhs (removelast d) else Ok d
      end
  end.

Definition operator_plus_assign (rhs : operand) (this : big_integer) : outcome big_integer :=
  if Bool.eqb (is_negative this) (is_negative (deref this rhs)) then
    abs_add Self rhs this
  else if (length (_data this) =? length (data_of (_data this) rhs))%nat then
    d ← strip_equal_high (length (_data this)) rhs (_data this);
    let this := mk_big_integer d (_negative this) in
    match last d with
    | None => Ok this
    | Some x =>
        y ← vec_at (data_of d rhs) (length d - 1);
        if x >? y then abs_subtract Self rhs (Some (length d)) this
        else abs_subtract rhs Self (Some (length d)) this
    end
  else if (length (data_of (_data this) rhs) <? length (_data this))%nat then
    abs_subtract Self rhs None this
  else
    abs_subtract rhs Self None this.

(** [return (negate() += rhs).negate();] *)
Definition operator_minus_assign (rhs : operand) (this : big_integer) : outcome big_integer :=
  this' ← operator_plus_assign rhs (negate this);
  Ok (negate this').

(** [_negative ^= rhs.is_negative(); return abs_mul(rhs);] *)
Definition operator_mul_assign (rhs : operand) (this : big_integer) : outcome big_integer :=
  abs_mul rhs
    (mk_big_integer (_data this) (xorb (_negative this) (is_negative (deref this rhs)))).

Definition operator_and_assign := bitwise_operation bit_and.
Definition operator_or_assign := bitwise_operation bit_or.
Definition operator_xor_assign := bitwise_operation bit_xor.

(** The shift count is an [int]; dividing it by the unsigned [DIGIT_BITS]
    converts it to [unsigned] first. *)
Definition to_unsigned (x : Z) : Z := x mod 2 ^ 32.

Definition operator_shl_assign (rhs : Z) (this : big_integer) : big_integer :=
  abs_mul_int (to_digit (Z.shiftl 1 (to_unsigned rhs mod DIGIT_BITS)))
    (mk_big_integer
       (replicate (Z.to_nat (to_unsigned rhs / DIGIT_BITS)) 0 ++ _data this)
       (_negative this)).

Definition operator_shr_assign (rhs : Z) (this : big_integer) : big_integer :=
  let to_erase := to_unsigned rhs / DIGIT_BITS in
  if to_erase >? Z.of_nat (length (_data this)) then
    mk_big_integer [] (_negative this)
  else
    let this1 := mk_big_integer (drop (Z.to_nat to_erase) (_data this)) (_negative this) in
    let this2 := fst (abs_divide_int (to_digit (Z.shiftl 1 (to_unsigned rhs mod DIGIT_BITS))) this1) in
    if is_negative this2 then abs_add_int 1 this2 else this2.

(** ** Unary operators, increment and decrement *)

Definition operator_pos (a : big_integer) : big_integer := a.

Definition operator_neg (a : big_integer) : big_integer := negate a.

Definition operator_pre_inc (this : big_integer) : big_integer :=
  if negb (is_negative this) then abs_add_int 1 this else abs_sub_int 1 this.

Definition operator_pre_dec (this : big_integer) : big_integer :=
  if is_zero this then mk_big_integer (_data this ++ [1]) true
  else negate (operator_pre_inc (negate this)).

(** The complement: a copy is negated, then decremented. *)
Definition operator_compl (a : big_integer) : big_integer :=
  operator_pre_dec (negate a).

(** ** Binary operators: a copy of the left operand, then the compound form *)

Definition operator_plus (a b : big_integer) := operator_plus_assign (Other b) a.
Definition operator_minus (a b : big_integer) := operator_minus_assign (Other b) a.
Definition operator_mul (a b : big_integer) := operator_mul_assign (Other b) a.
Definition operator_and (a b : big_integer) := operator_and_assign (Other b) a.
Definition operator_or (a b : big_integer) := operator_or_assign (Other b) a.
Definition operator_xor (a b : big_integer) := operator_xor_assign (Other b) a.
Definition operator_shl (a : big_integer) (b : Z) := operator_shl_assign b a.
Definition operator_shr (a : big_integer) (b : Z) := operator_shr_assign b a.

(** ** Comparison *)

Definition operator_eq (a b : big_integer) : bool :=
  Bool.eqb (is_negative a) (is_negative b) && bool_decide (_data a = _data b).

(** [std::lexicographical_compare] on two ranges. *)
Fixpoint lexicographical_compare (r1 r2 : list Z) : bool :=
  match r1, r2 with
  | _, [] => false
  | [], _ :: _ => true
  | x :: t1, y :: t2 =>
      if x <? y then true else if y <? x then false else lexicographical_compare t1 t2
  end.

Definition operator_gt (a b : big_integer) : bool :=
  if negb (is_negative a) && is_negative b then true
  else if is_negative a && negb (is_negative b) then false
  else if negb (length (_data a) =? length (_data b))%nat then
    xorb (length (_data b) <? length (_data a))%nat (is_negative a)
  else if is_negative a then
    lexicographical_compare (rev (_data a)) (rev (_data b))
  else
    lexicographical_compare (rev (_data b)) (rev (_data a)).

Definition operator_lt (a b : big_integer) : bool := operator_gt b a.
Definition operator_le (a b : big_integer) : bool := negb (operator_gt a b).
Definition operator_ge (a b : big_integer) : bool := operator_le b a.
Definition operator_ne (a b : big_integer) : bool := negb (operator_eq a b).

(** ** Division *)

Definition back (d : list Z) : outcome Z :=
  match last d with
  | Some x => Ok x
  | None => Undefined
  end.

(** [static_cast<int32_t>(std::log2(DIGIT_BASE / 2) - std::log2(_data.back()))]:
    the truncation of [31 - log2 b].  For a limb [0 < b < 2^31] the double
    [log2 b] lies strictly between two integers unless [b] is a power of two,
    where it is exact, so the truncation is [31 - ⌈log2 b⌉]. *)
Definition log2_gap (b : Z) : Z := 31 - Z.log2_up b.

(** Returns the shifted object and the shift [k].  A zero top limb gives
    [log2 0], whose conversion to [int32_t] is undefined. *)
Definition normalize (this : big_integer) : outcome (big_integer * Z) :=
  b ← back (_data this);
  if b >=? DIGIT_BASE / 2 then Ok (this, 0)
  else if b =? 0 then Undefined
  else
    let k := log2_gap b in
    let k := if to_digit (Z.shiftl b k) <? DIGIT_BASE / 2 then k + 1 else k in
    Ok (operator_shl_assign k this, k).

(** [while ( *this < 0) { --*q_it; *this += rhs; }] *)
Fixpoint div_rem_correct (fuel : nat) (rhs : big_integer) (q_digit : Z) (this : big_integer)
  : outcome (Z * big_integer) :=
  if operator_lt this (big_integer_ll 0) then
    match fuel with
    | O => Timeout
    | S fuel' =>
        this' ← operator_plus_assign (Other rhs) this;
        div_rem_correct fuel' rhs (to_digit (q_digit - 1)) this'
    end
  else Ok (q_digit, this).

(** [for (; q_it != q.rend() && _data.size() >= 2; ++q_it)]: [n] positions of
    [q] remain, the current one has index [n - 1]. *)
Fixpoint div_rem_loop (fuel n : nat) (rhs this : big_integer) (q : list Z)
  : outcome (big_integer * list Z) :=
  match n with
  | O => Ok (this, q)
  | S n' =>
      if (length (_data this) <? 2)%nat then Ok (this, q)
      else
        match _data rhs with
        | [] => Undefined
        | _ :: rhs_data =>
            let rhs := mk_big_integer rhs_data (_negative rhs) in
            hi ← back (_data this);
            lo ← vec_at (_data this) (length (_data this) - 2);
            top ← back (_data rhs);
            if top =? 0 then Undefined
            else
              let t := Z.lor (to_double (Z.shiftl hi DIGIT_BITS)) lo / top in
              let q_digit := to_digit (Z.min t (DIGIT_BASE - 1)) in
              prod ← operator_mul (big_integer_ull q_digit false) rhs;
              this1 ← operator_minus_assign (Other prod) this;
              '(q_digit', this2) ← div_rem_correct fuel rhs q_digit this1;
              div_rem_loop fuel n' rhs this2 (<[n' := q_digit']> q)
        end
  end.

Definition division_by_zero : exn := invalid_argument "big_integer division by zero".

(** [div_rem] leaves the quotient in the receiver and returns the remainder:
    the result is the pair (new receiver, returned value).  [rhs] is passed by
    value; [fuel] bounds the correction loop of each quotient limb. *)
Definition div_rem (fuel : nat) (rhs this : big_integer) : outcome (big_integer * big_integer) :=
  if is_zero rhs then Throw division_by_zero this
  else if is_zero this || (length (_data this) <? length (_data rhs))%nat then
    Ok (big_integer_default, this)
  else
    let this_sign := is_negative this in
    let result_sign := xorb (is_negative this) (is_negative rhs) in
    let this := mk_big_integer (_data this) false in
    let rhs := mk_big_integer (_data rhs) false in
    '(rhs, k) ← normalize rhs;
    let this := operator_shl_assign k this in
    if (length (_data this) <? length (_data rhs))%nat then
      (* [m] wraps around and no vector can hold [m] limbs *)
      Throw length_error this
    else
      let m := (length (_data this) - length (_data rhs))%nat in
      let q := replicate (S m) 0 in
      let rhs := mk_big_integer (replicate m 0 ++ _data rhs) (_negative rhs) in
      '(this, q) ← (if operator_ge this rhs then
                      this' ← abs_subtract Self (Other rhs) None this;
                      Ok (this', <[m := 1]> q)
                    else Ok (this, q));
      '(this, q) ← div_rem_loop fuel m rhs this q;
      let rem := trim (mk_big_integer (_data this) false) in
      let rem := fst (abs_divide_int (to_digit (Z.shiftl 1 k)) rem) in
      let rem := mk_big_integer (_data rem) this_sign in
      Ok (trim (mk_big_integer q result_sign), rem).

(** [div_rem(rhs); return *this;] *)
Definition operator_div_assign (fuel : nat) (rhs : operand) (this : big_integer)
  : outcome big_integer :=
  '(quot, _) ← div_rem fuel (deref this rhs) this;
  Ok quot.

(** [div_rem(rhs).swap( *this); return *this;] *)
Definition operator_rem_assign (fuel : nat) (rhs : operand) (this : big_integer)
  : outcome big_integer :=
  '(_, rem) ← div_rem fuel (deref this rhs) this;
  Ok rem.

Definition operator_div (fuel : nat) (a b : big_integer) := operator_div_assign fuel (Other b) a.
Definition operator_rem (fuel : nat) (a b : big_integer) := operator_rem_assign fuel (Other b) a.

(** ** Decimal text *)

(** A [std::string] is a list of characters. *)
Definition is_decimal_digit (c : ascii) : bool :=
  (48 <=? nat_of_ascii c)%nat && (nat_of_ascii c <=? 57)%nat.

Definition digit_value (c : ascii) : Z := Z.of_nat (nat_of_ascii c) - 48.

(** [std::from_chars(first, last, digit)] for an unsigned type in base 10:
    the longest run of decimal digits at the front is consumed (no sign is
    accepted).  Returns how far [ptr] is from [first], and the value stored:
    [digit] keeps its initial 0 when nothing matches or the number does not
    fit. *)
Fixpoint from_chars_loop (s : list ascii) (acc : Z) : nat * Z :=
  match s with
  | [] => (O, acc)
  | c :: rest =>
      if is_decimal_digit c then
        let '(n, v) := from_chars_loop rest (acc * 10 + digit_value c) in (S n, v)
      else (O, acc)
  end.

Definition from_chars (s : list ascii) : nat * Z :=
  let '(n, v) := from_chars_loop s 0 in
  (n, if (n =? 0)%nat then 0 else if v <=? DIGIT_MAX_VALUE then v else 0).

Definition parse_error_empty : exn :=
  invalid_argument "Empty number in big_integer from string constructor".
Definition parse_error_digit : exn :=
  invalid_argument "String parse error in big_integer constructor".

(** [while (index != str.size())] of the string constructor; [rest] is
    [str] from [index] on.  Every pass consumes a character, so the budget
    [fuel = str.size() - index] is never exhausted.  [std::pow(10, n)] is exact
    for [n <= 9]. *)
Fixpoint parse_chunks (fuel : nat) (rest : list ascii) (this : big_integer)
  : outcome big_integer :=
  match rest with
  | [] => Ok this
  | _ :: _ =>
      match fuel with
      | O => Timeout
      | S fuel' =>
          let chunk := take DIGITS_10 rest in
          let '(consumed, digit) := from_chars chunk in
          if negb (consumed =? length chunk)%nat then Throw parse_error_digit this
          else
            let this1 := abs_mul_int (to_digit (10 ^ Z.of_nat (length chunk))) this in
            let this2 := abs_add_int digit this1 in
            parse_chunks fuel' (drop DIGITS_10 rest) this2
      end
  end.

(** [big_integer(const std::string& str)]. *)
Definition big_integer_of_string (str : list ascii) : outcome big_integer :=
  let '(this, rest) :=
    match str with
    | "-"%char :: rest => (negate big_integer_default, rest)
    | _ => (big_integer_default, str)
    end in
  match rest with
  | [] => Throw parse_error_empty this
  | _ :: _ =>
      this' ← parse_chunks (length rest) rest this;
      Ok (trim this')
  end.

Definition char_of_digit (d : Z) : ascii := ascii_of_nat (Z.to_nat d + 48).

(** [while (rem != 0) { res.push_back(rem % 10 + '0'); rem /= 10; --len; }]
    — [rem] is a [uint32_t], so ten passes exhaust it. *)
Fixpoint push_digits (fuel : nat) (rem : Z) (len : nat) (res : list ascii) : list ascii * nat :=
  match fuel with
  | O => (res, len)
  | S fuel' =>
      if rem =? 0 then (res, len)
      else push_digits fuel' (rem / 10) (len - 1) (res ++ [char_of_digit (rem mod 10)])
  end.

(** [while (!copy.is_zero())] of [to_string]. *)
Fixpoint to_string_loop (fuel : nat) (copy : big_integer) (res : list ascii)
  : outcome (list ascii) :=
  if is_zero copy then Ok res
  else
    match fuel with
    | O => Timeout
    | S fuel' =>
        let '(copy', rem) := abs_divide_int DIGIT_MOD10 copy in
        let '(res1, len) := push_digits 10 rem 9 res in
        let res2 := if negb (is_zero copy') then res1 ++ replicate len "0"%char else res1 in
        to_string_loop fuel' copy' res2
    end.

(** [to_string]; two divisions by [10^9] remove at least one limb, so
    [2 * size] passes of the loop are enough. *)
Definition to_string (a : big_integer) : outcome (list ascii) :=
  if is_zero a then Ok ["0"%char]
  else
    res ← to_string_loop (2 * length (_data a)) a [];
    Ok (rev (if is_negative a then res ++ ["-"%char] else res)).

(** Reading a literal of the tests as a [std::string]. *)
Definition str (s : string) : list ascii := list_ascii_of_string s.


(** ** What a [big_integer] denotes *)

(** The magnitude: limbs are base-[2^32] digits, least significant first. *)
Fixpoint abs_value (d : list Z) : Z :=
  match d with
  | [] => 0
  | x :: rest => x + DIGIT_BASE * abs_value rest
  end.

Definition value (a : big_integer) : Z :=
  if _negative a then - abs_value (_data a) else abs_value (_data a).

(** Every limb is a [uint32_t]. *)
Definition limbs_ok (d : list Z) : Prop := Forall (λ x, 0 ≤ x < DIGIT_BASE) d.

(** Canonical form: the highest limb, if any, is non-zero. *)
Definition canonical (d : list Z) : Prop := last d ≠ Some 0.

Definition wf (a : big_integer) : Prop := limbs_ok (_data a) ∧ canonical (_data a).

(** A right-hand side is well formed when it aliases the receiver or is a
    well-formed object of its own. *)
Definition wf_operand (r : operand) : Prop :=
  match r with
  | Self => True
  | Other b => wf b
  end.

(** ** Decimal numerals *)

(** The number a string of decimal digits denotes, most significant digit
    first ([decimal_value]) and least significant first ([lsf_value]). *)
Definition decimal_value (s : list ascii) : Z :=
  fold_left (λ acc c, acc * 10 + digit_value c) s 0.

Fixpoint lsf_value (s : list ascii) : Z :=
  match s with
  | [] => 0
  | c :: rest => digit_value c + 10 * lsf_value rest
  end.

Definition all_digits (s : list ascii) : Prop := Forall (λ c, is_decimal_digit c = true) s.

(** The digits after the optional leading minus sign. *)
Definition digit_region (s : list ascii) : list ascii :=
  match s with
  | "-"%char :: rest => rest
  | _ => s
  end.

Definition has_minus (s : list ascii) : bool :=
  match s with
  | "-"%char :: _ => true
  | _ => false
  end.

(** The two error kinds of the specification, both raised as
    [std::invalid_argument]. *)
Definition ParseError (e : exn) : Prop := e = parse_error_empty ∨ e = parse_error_digit.
Definition DivisionByZero (e : exn) : Prop := e = division_by_zero.

(** A call that is never left by an exception. *)
Definition no_throw {A} (m : outcome A) : Prop := ∀ e t, m ≠ Throw e t.

(** ** Loop summaries

    What the index loops of [abs_add] compute, as functions of the limbs they
    read: [add_limbs] is the first loop on two equally long runs of limbs,
    the second loop is [abs_add_int_loop]. *)
Fixpoint add_limbs (xs ys : list Z) (carry : Z) : list Z * Z :=
  match xs, ys with
  | x :: xs', y :: ys' =>
      let c := to_double (to_double (carry + x) + y) in
      let '(zs, carry') := add_limbs xs' ys' (Z.shiftr c DIGIT_BITS) in
      (to_digit c :: zs, carry')
  | _, _ => ([], carry)
  end.

(** ** The objects the public interface hands out

    [produced a]: [a] is the state of an object after a public operation
    returned, all operands being such objects themselves.  The binary
    operators are the compound assignments on a copy, that is with an
    [Other] right-hand side; copying, assigning and swapping hand out no new
    value, and the postfix forms hand out a copy besides the incremented
    object. *)
Inductive produced : big_integer → Prop :=
| produced_default : produced big_integer_default
| produced_ull val negative :
    0 ≤ val < 2 ^ 64 → produced (big_integer_ull val negative)
| produced_ll val : produced (big_integer_ll val)
| produced_string s r : big_integer_of_string s = Ok r → produced r
| produced_negate this : produced this → produced (negate this)
| produced_plus_assign rhs this r :
    produced this → (∀ b, rhs = Other b → produced b) →
    operator_plus_assign rhs this = Ok r → produced r
| produced_minus_assign rhs this r :
    produced this → (∀ b, rhs = Other b → produced b) →
    operator_minus_assign rhs this = Ok r → produced r
| produced_mul_assign rhs this r :
    produced this → (∀ b, rhs = Other b → produced b) →
    operator_mul_assign rhs this = Ok r → produced r
| produced_div_assign fuel rhs this r :
    produced this → (∀ b, rhs = Other b → produced b) →
    operator_div_assign fuel rhs this = Ok r → produced r
| produced_rem_assign fuel rhs this r :
    produced this → (∀ b, rhs = Other b → produced b) →
    operator_rem_assign fuel rhs this = Ok r → produced r
| produced_and_assign rhs this r :
    produced this → (∀ b, rhs = Other b → produced b) →
    operator_and_assign rhs this = Ok r → produced r
| produced_or_assign rhs this r :
    produced this → (∀ b, rhs = Other b → produced b) →
    operator_or_assign rhs this = Ok r → produced r
| produced_xor_assign rhs this r :
    produced this → (∀ b, rhs = Other b → produced b) →
    operator_xor_assign rhs this = Ok r → produced r
| produced_shl_assign n this : produced this → produced (operator_shl_assign n this)
| produced_shr_assign n this : produced this → produced (operator_shr_assign n this)
| produced_pos this : produced this → produced (operator_pos this)
| produced_neg this : produced this → produced (operator_neg this)
| produced_compl this : produced this → produced (operator_compl this)
| produced_pre_inc this : produced this → produced (operator_pre_inc this)
| produced_pre_dec this : produced this → produced (operator_pre_dec this).

(** ** Scenarios

    A scenario of the specification parses its literals, applies an operator
    and formats the result. *)
Definition scenario2 (op : big_integer → big_integer → outcome big_integer) (a b : string)
  : outcome string :=
  x ← big_integer_of_string (str a);
  y ← big_integer_of_string (str b);
  r ← op x y;
  s ← to_string r;
  Ok (string_of_list_ascii s).

Definition scenario1 (op : big_integer → big_integer) (a : string) : outcome string :=
  x ← big_integer_of_string (str a);
  s ← to_string (op x);
  Ok (string_of_list_ascii s).

(** ** More loop summaries

    [mul_add_limbs] is the inner loop of [abs_mul] on the limbs [bs] of the
    right-hand side and the window [ws] of the product it accumulates into;
    [sub_limbs] is the first loop of [abs_subtract] on two equally long runs of
    limbs, [sub_borrow] its second loop, which stops with the borrow. *)
Fixpoint mul_add_limbs (data_i : Z) (bs ws : list Z) (carry : Z) : list Z * Z :=
  match bs, ws with
  | b :: bs', w :: ws' =>
      let res := to_double (data_i * b + w + carry) in
      let '(zs, carry') :=
        mul_add_limbs data_i bs' ws' (to_digit (Z.shiftr res DIGIT_BITS)) in
      (to_digit res :: zs, carry')
  | _, _ => ([], carry)
  end.

Fixpoint sub_limbs (xs ys : list Z) (borrow : Z) : list Z * Z :=
  match xs, ys with
  | x :: xs', y :: ys' =>
      let diff := to_double (x - y - borrow) in
      let '(zs, borrow') :=
        sub_limbs xs' ys' (if diff >? DIGIT_MAX_VALUE then 1 else 0) in
      (to_digit diff :: zs, borrow')
  | _, _ => ([], borrow)
  end.

Fixpoint sub_borrow (xs : list Z) (borrow : Z) : list Z :=
  match xs with
  | [] => []
  | x :: xs' =>
      if borrow =? 0 then x :: xs'
      else
        let diff := to_double (x - borrow) in
        to_digit diff :: sub_borrow xs' (if diff >? DIGIT_MAX_VALUE then 1 else 0)
  end.

(** A zero that carries a set sign flag. *)
Definition stale_sign (a : big_integer) : bool := _negative a && is_zero a.

(** The loop of [bitwise_operation] when no operand and no result is
    negative: limb by limb, the right-hand side padded with zero limbs. *)
Fixpoint op_limbs (op : bitwise_op) (xs ys : list Z) : list Z :=
  match xs with
  | [] => []
  | x :: xs' => op_digit op x (hd 0 ys) :: op_limbs op xs' (tl ys)
  end.

(** The operation of [op] on integers. *)
Definition op_Z (op : bitwise_op) (x y : Z) : Z :=
  match op with
  | bit_and => Z.land x y
  | bit_or => Z.lor x y
  | bit_xor => Z.lxor x y
  end.

(** * vector: a shallow embedding of the class template [vector<T>]

    The buffer [data_] of [capacity_] slots holds [size_] constructed
    elements, which are the list [elems] below; [data_] is [nullptr] exactly
    when [capacity_] is 0.  Iterators are indices into the buffer. *)

Module vector.

(** How a call ends: it returns, it is left by an exception of the element
    type's copy constructor, an [assert] fails, the behaviour is undefined,
    or the iteration budget of the model ran out. *)
Inductive result (A : Type) : Type :=
| Ret (a : A)
| Raise
| AssertFail
| Undefined
| NoFuel.
Arguments Ret {A} a.
Arguments Raise {A}.
Arguments AssertFail {A}.
Arguments Undefined {A}.
Arguments NoFuel {A}.

#[global] Instance result_ret : MRet result := fun A a => Ret a.
#[global] Instance result_bind : MBind result := fun A B f m =>
  match m with
  | Ret a => f a
  | Raise => Raise
  | AssertFail => AssertFail
  | Undefined => Undefined
  | NoFuel => NoFuel
  end.

Record vector (T : Type) : Type := mk_vector {
  elems : list T;
  capacity_ : nat
}.
Arguments mk_vector {T} elems capacity_.
Arguments elems {T} v.
Arguments capacity_ {T} v.

Section vector.

(** The element type and its copy constructor, [None] when it throws;
    swapping two elements does not throw. *)
Context {T : Type}.
Variable copy : T → option T.

Definition size (v : vector T) : nat := length (elems v).
Definition capacity (v : vector T) : nat := capacity_ v.
Definition empty (v : vector T) : bool := (size v =? 0)%nat.

(** [vector() noexcept]. *)
Definition vector_default : vector T := mk_vector [] 0.

(** [for (; size() < other.size(); ++size_) new (end()) T(other[size()]);]
    — [src] are the elements of [other] not copied yet, [dst] the copies made;
    an exception destroys the copies and is rethrown. *)
Fixpoint copy_elems (src dst : list T) : option (list T) :=
  match src with
  | [] => Some dst
  | x :: rest =>
      match copy x with
      | Some y => copy_elems rest (dst ++ [y])
      | None => None
      end
  end.

(** The private [vector(const vector& other, size_t new_capacity)]. *)
Definition vector_copy_capacity (other : vector T) (new_capacity : nat) : result (vector T) :=
  if negb (size other <=? new_capacity)%nat then AssertFail
  else if (new_capacity =? 0)%nat then Ret (mk_vector [] 0)
  else
    match copy_elems (elems other) [] with
    | Some l => Ret (mk_vector l new_capacity)
    | None => Raise
    end.

(** [vector(const vector& other)]. *)
Definition vector_copy (other : vector T) : result (vector T) :=
  vector_copy_capacity other (size other).

(** [operator=] from a distinct object: [vector(other).swap( *this)]. *)
Definition operator_assign (other this : vector T) : result (vector T) :=
  vector_copy other.

(** [operator[]]. *)
Definition subscript (v : vector T) (index : nat) : result T :=
  if negb (index <? size v)%nat then AssertFail
  else
    match elems v !! index with
    | Some x => Ret x
    | None => Undefined
    end.

Definition front (v : vector T) : result T :=
  if empty v then AssertFail
  else match head (elems v) with Some x => Ret x | None => Undefined end.

Definition back (v : vector T) : result T :=
  if empty v then AssertFail
  else match last (elems v) with Some x => Ret x | None => Undefined end.

(** [push_back]; the call on the enlarged copy is the recursion, and
    [swap(copy)] leaves the enlarged copy in the receiver. *)
Fixpoint push_back (fuel : nat) (value : T) (this : vector T) : result (vector T) :=
  if (size this + 1 <=? capacity this)%nat then
    match copy value with
    | Some x => Ret (mk_vector (elems this ++ [x]) (capacity_ this))
    | None => Raise
    end
  else
    match fuel with
    | O => NoFuel
    | S fuel' =>
        let new_capacity := if (capacity this =? 0)%nat then 1%nat else (capacity this * 2)%nat in
        copy ← vector_copy_capacity this new_capacity;
        push_back fuel' value copy
    end.

Definition pop_back (this : vector T) : result (vector T) :=
  if empty this then AssertFail
  else Ret (mk_vector (removelast (elems this)) (capacity_ this)).

Definition reserve (new_capacity : nat) (this : vector T) : result (vector T) :=
  if (capacity this <? new_capacity)%nat then vector_copy_capacity this new_capacity
  else Ret this.

Definition shrink_to_fit (this : vector T) : result (vector T) :=
  if negb (size this =? capacity this)%nat then vector_copy_capacity this (size this)
  else Ret this.

(** [while (size() != new_size) pop_back();] — [clear] is the loop with
    [new_size = 0]. *)
Fixpoint pop_until (fuel new_size : nat) (this : vector T) : result (vector T) :=
  if (size this =? new_size)%nat then Ret this
  else
    match fuel with
    | O => NoFuel
    | S fuel' => this' ← pop_back this; pop_until fuel' new_size this'
    end.

Definition clear (this : vector T) : result (vector T) :=
  pop_until (size this) 0 this.

Definition swap (this other : vector T) : vector T * vector T := (other, this).

(** [std::iter_swap] on two positions of the buffer. *)
Definition iter_swap (i j : nat) (l : list T) : result (list T) :=
  match l !! i, l !! j with
  | Some x, Some y => Ret (<[i := y]> (<[j := x]> l))
  | _, _ => Undefined
  end.

(** [for (iterator it = end() - 1; it != new_pos; --it) std::iter_swap(it, it - 1);]
    with [n] passes left. *)
Fixpoint insert_loop (n it : nat) (l : list T) : result (list T) :=
  match n with
  | O => Ret l
  | S n' => l' ← iter_swap it (it - 1) l; insert_loop n' (it - 1) l'
  end.

(** [insert(pos, value)] with [index = pos - begin()]; returns the object
    and the index of the returned iterator. *)
Definition insert (fuel : nat) (index : nat) (value : T) (this : vector T)
  : result (vector T * nat) :=
  if negb (index <=? size this)%nat then AssertFail
  else
    this1 ← push_back fuel value this;
    l ← insert_loop (size this1 - 1 - index) (size this1 - 1) (elems this1);
    Ret (mk_vector l (capacity_ this1), index).

(** [std::swap_ranges(first1, last1, first2)]: the ranges must not overlap;
    [n] elements are left to swap. *)
Fixpoint swap_ranges_loop (n first1 first2 : nat) (l : list T) : result (list T) :=
  match n with
  | O => Ret l
  | S n' => l' ← iter_swap first1 first2 l; swap_ranges_loop n' (S first1) (S first2) l'
  end.

Definition swap_ranges (first1 last1 first2 : nat) (l : list T) : result (list T) :=
  let n := (last1 - first1)%nat in
  if negb (n =? 0)%nat && (first2 <? last1)%nat && (first1 <? first2 + n)%nat then Undefined
  else swap_ranges_loop n first1 first2 l.

(** [erase(first, last)] with [index = first - begin()] and
    [last_index = last - begin()]. *)
Definition erase_range (index last_index : nat) (this : vector T) : result (vector T * nat) :=
  if negb (index <=? last_index)%nat then AssertFail
  else if negb (last_index <=? size this)%nat then AssertFail
  else
    l ← swap_ranges last_index (size this) index (elems this);
    let new_size := (index + (size this - last_index))%nat in
    this' ← pop_until (size this) new_size (mk_vector l (capacity_ this));
    Ret (this', index).

(** [erase(pos)]. *)
Definition erase (index : nat) (this : vector T) : result (vector T * nat) :=
  erase_range index (index + 1) this.

End vector.

(** The invariant of the class: the elements fit the buffer. *)
Definition fits {T} (v : vector T) : Prop := (size v ≤ capacity v)%nat.

(** A copy constructor that returns an equal element and never throws. *)
Definition faithful {T} (copy : T → option T) : Prop := ∀ x, copy x = Some x.

(** [push_back] of each element of [xs] in turn. *)
Fixpoint push_all {T} (copy : T → option T) (xs : list T) (this : vector T)
  : result (vector T) :=
  match xs with
  | [] => Ret this
  | x :: rest => this' ← push_back copy 1 x this; push_all copy rest this'
  end.

End vector.

(** * matrix: a shallow embedding of the class template [matrix<T>]

    [_data] is [nullptr] ([None]) or an array allocated by [new] that holds
    the elements row by row; pointers and column iterators are offsets into
    that array. *)

Module matrix.

(** How a call ends: it returns, an [assert] fails, or the array is read or
    written outside its bounds or through [nullptr]. *)
Inductive result (A : Type) : Type :=
| Ret (a : A)
| AssertFail
| Undefined.
Arguments Ret {A} a.
Arguments AssertFail {A}.
Arguments Undefined {A}.

#[global] Instance result_ret : MRet result := fun A a => Ret a.
#[global] Instance result_bind : MBind result := fun A B f m =>
  match m with
  | Ret a => f a
  | AssertFail => AssertFail
  | Undefined => Undefined
  end.

Record matrix (T : Type) : Type := mk_matrix {
  _data : option (list T);
  _rows : nat;
  _cols : nat
}.
Arguments mk_matrix {T} _data _rows _cols.
Arguments _data {T} m.
Arguments _rows {T} m.
Arguments _cols {T} m.

Section matrix.

(** The element type with [value_type{}], [operator+], [operator*] and
    [operator==]. *)
Context {T : Type}.
Variable zero : T.
Variables add mul : T → T → T.
Variable eqb : T → T → bool.

Definition rows (m : matrix T) : nat := _rows m.
Definition cols (m : matrix T) : nat := _cols m.
Definition size (m : matrix T) : nat := (rows m * cols m)%nat.

Definition empty (m : matrix T) : bool :=
  match _data m with
  | None => true
  | Some _ => false
  end.

(** [matrix()]. *)
Definition matrix_default : matrix T := mk_matrix None 0 0.

(** [matrix(size_t rows, size_t cols)]. *)
Definition matrix_new (rows cols : nat) : matrix T :=
  let s := (rows * cols)%nat in
  if (s =? 0)%nat then mk_matrix None 0 0
  else mk_matrix (Some (replicate s zero)) rows cols.

(** [data()[offset]], read and written. *)
Definition buffer_at (m : matrix T) (offset : nat) : result T :=
  match _data m with
  | Some l =>
      match l !! offset with
      | Some x => Ret x
      | None => Undefined
      end
  | None => Undefined
  end.

Definition buffer_set (m : matrix T) (offset : nat) (x : T) : result (matrix T) :=
  match _data m with
  | Some l =>
      if decide (offset < length l)%nat
      then Ret (mk_matrix (Some (<[offset := x]> l)) (_rows m) (_cols m))
      else Undefined
  | None => Undefined
  end.

(** [operator()(row, col)], that is [row_begin(row)[col]], read and
    assigned to. *)
Definition at_ (m : matrix T) (row col : nat) : result T :=
  if negb (row <? rows m)%nat then AssertFail
  else buffer_at m (row * cols m + col).

Definition assign_at (m : matrix T) (row col : nat) (x : T) : result (matrix T) :=
  if negb (row <? rows m)%nat then AssertFail
  else buffer_set m (row * cols m + col) x.

(** [std::equal(left.begin(), left.end(), right.begin())]: [n] elements are
    left, [idx] is the offset reached. *)
Fixpoint equal_loop (n idx : nat) (left right : matrix T) : result bool :=
  match n with
  | O => Ret true
  | S n' =>
      a ← buffer_at left idx;
      b ← buffer_at right idx;
      if eqb a b then equal_loop n' (S idx) left right else Ret false
  end.

(** [operator==]. *)
Definition operator_eq (left right : matrix T) : result bool :=
  if (cols left =? cols right)%nat && (rows left =? rows right)%nat
  then equal_loop (size left) 0 left right
  else Ret false.

(** [std::transform(begin(), end(), other.begin(), output.begin(), operation)]
    into an output that is an array of its own: [n] elements are left, [idx]
    is the offset reached. *)
Fixpoint transform_loop (n idx : nat) (operation : T → T → T) (this other output : matrix T)
  : result (matrix T) :=
  match n with
  | O => Ret output
  | S n' =>
      a ← buffer_at this idx;
      b ← buffer_at other idx;
      output' ← buffer_set output idx (operation a b);
      transform_loop n' (S idx) operation this other output'
  end.

Definition transform (operation : T → T → T) (this other output : matrix T)
  : result (matrix T) :=
  if negb ((cols this =? cols other)%nat && (rows this =? rows other)%nat) then AssertFail
  else transform_loop (size this) 0 operation this other output.

(** The private [matrix(left, right, operation)]: [new value_type[left.size()]],
    every element of which [transform] writes before it is read. *)
Definition matrix_combine (operation : T → T → T) (left right : matrix T) : result (matrix T) :=
  transform operation left right
    (mk_matrix (Some (replicate (size left) zero)) (rows left) (cols left)).

(** [operator+(const matrix&, const matrix&)]. *)
Definition operator_plus (left right : matrix T) : result (matrix T) :=
  matrix_combine add left right.

(** [std::inner_product(row_begin(i), row_end(i), other.col_begin(j), value_type{})]:
    [n] elements of the row are left, the row pointer is [k] elements and the
    column iterator [k] rows from their starts. *)
Fixpoint inner_product_loop (n k : nat) (this other : matrix T) (i j : nat) (acc : T)
  : result T :=
  match n with
  | O => Ret acc
  | S n' =>
      a ← buffer_at this (i * cols this + k);
      b ← buffer_at other (k * cols other + j);
      inner_product_loop n' (S k) this other i j (add acc (mul a b))
  end.

Definition inner_product (this other : matrix T) (i j : nat) : result T :=
  if negb (i <? rows this)%nat then AssertFail
  else if negb (j <? cols other)%nat then AssertFail
  else inner_product_loop (cols this) 0 this other i j zero.

(** [for (size_t j = 0; j < other.cols(); ++j)] of [multiply]. *)
Fixpoint multiply_inner (n j : nat) (this other result_ : matrix T) (i : nat)
  : result (matrix T) :=
  match n with
  | O => Ret result_
  | S n' =>
      x ← inner_product this other i j;
      result' ← assign_at result_ i j x;
      multiply_inner n' (S j) this other result' i
  end.

(** [for (size_t i = 0; i < rows(); ++i)] of [multiply]. *)
Fixpoint multiply_outer (n i : nat) (this other result_ : matrix T) : result (matrix T) :=
  match n with
  | O => Ret result_
  | S n' =>
      result' ← multiply_inner (cols other) 0 this other result_ i;
      multiply_outer n' (S i) this other result'
  end.

Definition multiply (this other : matrix T) : result (matrix T) :=
  if negb (cols this =? rows other)%nat then AssertFail
  else multiply_outer (rows this) 0 this other (matrix_new (rows this) (cols other)).

(** [operator*(const matrix&, const matrix&)]. *)
Definition operator_mul (left right : matrix T) : result (matrix T) := multiply left right.

(** [operator*=(const matrix&)]: [*this = multiply(other)]. *)
Definition operator_mul_assign (other this : matrix T) : result (matrix T) :=
  multiply this other.

End matrix.

(** The elements of the array, none for [nullptr]. *)
Definition elements {T} (m : matrix T) : list T := default [] (_data m).

(** The invariant of the class: the array holds [rows * cols] elements. *)
Definition shaped {T} (m : matrix T) : Prop := length (elements m) = size m.

(** The element in row [i] and column [j] of a shaped matrix. *)
Definition entry {T} (zero : T) (m : matrix T) (i j : nat) : T :=
  default zero (elements m !! (i * cols m + j)%nat).

(** The sum [a_i0 * b_0j + a_i1 * b_1j + ...], accumulated from [zero] on
    the left. *)
Definition dot {T} (zero : T) (add mul : T → T → T) (a b : matrix T) (i j : nat) : T :=
  fold_left (λ acc k, add acc (mul (entry zero a i k) (entry zero b k j)))
    (seq 0 (cols a)) zero.

(** The row [i] of the product of [a] and [b]. *)
Definition product_row {T} (zero : T) (add mul : T → T → T) (a b : matrix T) (i : nat)
  : list T :=
  map (dot zero add mul a b i) (seq 0 (cols b)).

End matrix.

(** * Limb arithmetic *)

Ltac limb_consts :=
  unfold to_digit, to_double, digit_not, DIGIT_BASE, DIGIT_MAX_VALUE, DIGIT_BITS in *;
  change (4294967295 + 1) with 4294967296 in *;
  change (2 ^ 32) with 4294967296 in *;
  change (2 ^ 64) with 18446744073709551616 in *.

Lemma to_digit_range x : 0 ≤ to_digit x < DIGIT_BASE.
Proof. limb_consts. apply Z.mod_pos_bound. lia. Qed.

Lemma to_digit_small x : 0 ≤ x < DIGIT_BASE → to_digit x = x.
Proof. limb_consts. intros. apply Z.mod_small. lia. Qed.

Lemma to_double_small x : 0 ≤ x < 2 ^ 64 → to_double x = x.
Proof. limb_consts. intros. apply Z.mod_small. lia. Qed.

Lemma shiftr_32 x : Z.shiftr x DIGIT_BITS = x / DIGIT_BASE.
Proof. unfold DIGIT_BITS. rewrite Z.shiftr_div_pow2 by lia. reflexivity. Qed.

Lemma shiftl_32 x : Z.shiftl x DIGIT_BITS = x * DIGIT_BASE.
Proof. unfold DIGIT_BITS. rewrite Z.shiftl_mul_pow2 by lia. reflexivity. Qed.

Lemma digit_split x : x = to_digit x + DIGIT_BASE * (x / DIGIT_BASE).
Proof. limb_consts. pose proof (Z.div_mod x 4294967296 ltac:(lia)). lia. Qed.

(** [hi << 32 | lo] is [hi * 2^32 + lo] when [lo] is a limb. *)
Lemma lor_limb hi lo :
  0 ≤ hi → 0 ≤ lo < DIGIT_BASE → Z.lor (hi * DIGIT_BASE) lo = hi * DIGIT_BASE + lo.
Proof.
  intros Hhi Hlo. symmetry.
  replace (hi * DIGIT_BASE) with (Z.shiftl hi 32)
    by (rewrite Z.shiftl_mul_pow2 by lia; reflexivity).
  rewrite <- Z.lxor_lor.
  - apply Z.add_nocarry_lxor. apply Z.bits_inj'. intros n Hn.
    rewrite Z.land_spec, Z.bits_0.
    destruct (decide (n < 32)) as [Hlt|Hge].
    + rewrite Z.shiftl_spec_low by lia. reflexivity.
    + replace (Z.testbit lo n) with false; [apply andb_false_r|].
      symmetry. destruct (decide (lo = 0)) as [->|Hne]; [apply Z.bits_0|].
      apply Z.bits_above_log2; [lia|].
      assert (Z.log2 lo < 32); [|lia].
      apply Z.log2_lt_pow2; [lia|]. limb_consts. lia.
  - apply Z.bits_inj'. intros n Hn.
    rewrite Z.land_spec, Z.bits_0.
    destruct (decide (n < 32)) as [Hlt|Hge].
    + rewrite Z.shiftl_spec_low by lia. reflexivity.
    + replace (Z.testbit lo n) with false; [apply andb_false_r|].
      symmetry. destruct (decide (lo = 0)) as [->|Hne]; [apply Z.bits_0|].
      apply Z.bits_above_log2; [lia|].
      assert (Z.log2 lo < 32); [|lia].
      apply Z.log2_lt_pow2; [lia|]. limb_consts. lia.
Qed.

(** * Limb vectors *)

Lemma limbs_ok_nil : limbs_ok [].
Proof. constructor. Qed.

Lemma limbs_ok_cons x d : limbs_ok (x :: d) ↔ (0 ≤ x < DIGIT_BASE) ∧ limbs_ok d.
Proof. unfold limbs_ok. by rewrite Forall_cons. Qed.

Lemma limbs_ok_app d1 d2 : limbs_ok (d1 ++ d2) ↔ limbs_ok d1 ∧ limbs_ok d2.
Proof. unfold limbs_ok. by rewrite Forall_app. Qed.

Lemma limbs_ok_rev d : limbs_ok (rev d) ↔ limbs_ok d.
Proof.
  unfold limbs_ok. split; intros H.
  - rewrite <- (rev_involutive d). by apply List.Forall_rev.
  - by apply List.Forall_rev.
Qed.

Lemma limbs_ok_replicate n : limbs_ok (replicate n 0).
Proof. unfold limbs_ok. apply Forall_replicate. limb_consts. lia. Qed.

Lemma limbs_ok_lookup d i x : limbs_ok d → d !! i = Some x → 0 ≤ x < DIGIT_BASE.
Proof. intros H Hx. exact (proj1 (Forall_lookup _ _) H i x Hx). Qed.

Lemma limbs_ok_insert d i x : limbs_ok d → 0 ≤ x < DIGIT_BASE → limbs_ok (<[i:=x]> d).
Proof. intros. by apply Forall_insert. Qed.

Lemma abs_value_app d1 d2 :
  abs_value (d1 ++ d2) = abs_value d1 + DIGIT_BASE ^ Z.of_nat (length d1) * abs_value d2.
Proof.
  induction d1 as [|x d1 IH]; simpl length; simpl app; simpl abs_value.
  - simpl. lia.
  - rewrite IH, Nat2Z.inj_succ, Z.pow_succ_r by lia. ring.
Qed.

Lemma abs_value_bound d : limbs_ok d → 0 ≤ abs_value d < DIGIT_BASE ^ Z.of_nat (length d).
Proof.
  induction d as [|x d IH]; intros H.
  - simpl. lia.
  - apply limbs_ok_cons in H as [Hx Hd]. specialize (IH Hd).
    simpl length. simpl abs_value. rewrite Nat2Z.inj_succ, Z.pow_succ_r by lia.
    unfold DIGIT_BASE, DIGIT_MAX_VALUE in *. nia.
Qed.

Lemma abs_value_replicate n : abs_value (replicate n 0) = 0.
Proof. induction n; simpl; [done|]. rewrite IHn. lia. Qed.

Lemma abs_value_zero d : limbs_ok d → abs_value d = 0 → d = replicate (length d) 0.
Proof.
  induction d as [|x d IH]; intros H Hv; [done|].
  apply limbs_ok_cons in H as [Hx Hd]. simpl in Hv.
  pose proof (abs_value_bound d Hd).
  assert (x = 0 ∧ abs_value d = 0) as [-> Hd0] by (unfold DIGIT_BASE, DIGIT_MAX_VALUE in *; nia).
  simpl. f_equal. by apply IH.
Qed.

(** * [trim] *)

Lemma trim_data_nil : trim_data [] = [].
Proof. reflexivity. Qed.

Lemma trim_data_snoc d x :
  trim_data (d ++ [x]) = if x =? 0 then trim_data d else d ++ [x].
Proof.
  unfold trim_data. rewrite rev_app_distr. simpl.
  destruct (x =? 0); [done|]. simpl. by rewrite rev_involutive.
Qed.

Lemma canonical_nil : canonical [].
Proof. done. Qed.

Lemma canonical_snoc d x : canonical (d ++ [x]) ↔ x ≠ 0.
Proof. unfold canonical. rewrite last_snoc. naive_solver. Qed.

Lemma trim_data_canonical d : canonical (trim_data d).
Proof.
  induction d as [|x d IH] using rev_ind; [done|].
  rewrite trim_data_snoc. destruct (x =? 0) eqn:E; [done|].
  apply canonical_snoc. lia.
Qed.

Lemma trim_data_id d : canonical d → trim_data d = d.
Proof.
  destruct d as [|x d _] using rev_ind; [done|].
  rewrite canonical_snoc, trim_data_snoc. intros. by destruct (Z.eqb_spec x 0).
Qed.

Lemma trim_data_limbs d : limbs_ok d → limbs_ok (trim_data d).
Proof.
  induction d as [|x d IH] using rev_ind; [done|].
  rewrite trim_data_snoc. intros H. destruct (x =? 0); [|done].
  apply IH. by apply limbs_ok_app in H as [? _].
Qed.

Lemma abs_value_trim d : abs_value (trim_data d) = abs_value d.
Proof.
  induction d as [|x d IH] using rev_ind; [done|].
  rewrite trim_data_snoc. destruct (Z.eqb_spec x 0) as [->|]; [|done].
  rewrite IH, abs_value_app. simpl. lia.
Qed.

Lemma trim_data_length d : (length (trim_data d) ≤ length d)%nat.
Proof.
  induction d as [|x d IH] using rev_ind; [done|].
  rewrite trim_data_snoc, length_app. simpl. destruct (x =? 0); [lia|].
  rewrite length_app. simpl. lia.
Qed.

Lemma trim_data_replicate n : trim_data (replicate n 0) = [].
Proof.
  induction n as [|n IH]; [done|].
  rewrite replicate_S_end, trim_data_snoc. done.
Qed.

Lemma trim_wf a : limbs_ok (_data a) → wf (trim a).
Proof. intros. split; simpl; [by apply trim_data_limbs | apply trim_data_canonical]. Qed.

(** A canonical magnitude of [n > 0] limbs is at least [2^(32(n-1))]. *)
Lemma canonical_lower d :
  limbs_ok d → canonical d → d ≠ [] →
  DIGIT_BASE ^ (Z.of_nat (length d) - 1) ≤ abs_value d.
Proof.
  destruct d as [|x d _] using rev_ind; [done|].
  intros [Hd Hx]%limbs_ok_app Hc%canonical_snoc _.
  apply limbs_ok_cons in Hx as [Hx _].
  rewrite abs_value_app, length_app. simpl.
  replace (Z.of_nat (length d + 1) - 1) with (Z.of_nat (length d)) by lia.
  pose proof (abs_value_bound d Hd).
  assert (0 < DIGIT_BASE ^ Z.of_nat (length d)) by (apply Z.pow_pos_nonneg; [done|lia]).
  nia.
Qed.

Lemma canonical_zero d : limbs_ok d → canonical d → abs_value d = 0 → d = [].
Proof.
  intros Hl Hc Hv. destruct (decide (d = [])) as [|Hne]; [done|].
  pose proof (canonical_lower d Hl Hc Hne).
  assert (0 < DIGIT_BASE ^ (Z.of_nat (length d) - 1)); [|lia].
  apply Z.pow_pos_nonneg; [done|]. destruct d; [done|]. simpl length. lia.
Qed.

(** Conversely, a magnitude that large has a non-zero top limb. *)
Lemma canonical_of_lower d :
  limbs_ok d → DIGIT_BASE ^ (Z.of_nat (length d) - 1) ≤ abs_value d → d ≠ [] → canonical d.
Proof.
  destruct d as [|x d _] using rev_ind; [done|].
  intros [Hd Hx]%limbs_ok_app Hv _. apply canonical_snoc. intros ->.
  rewrite abs_value_app, length_app in Hv. simpl in Hv.
  replace (Z.of_nat (length d + 1) - 1) with (Z.of_nat (length d)) in Hv by lia.
  pose proof (abs_value_bound d Hd). lia.
Qed.

(** The magnitude determines a canonical limb vector. *)
Lemma abs_value_inj_length d1 d2 :
  limbs_ok d1 → limbs_ok d2 → length d1 = length d2 →
  abs_value d1 = abs_value d2 → d1 = d2.
Proof.
  revert d2. induction d1 as [|x d1 IH]; intros [|y d2] H1 H2 Hlen Hv; try done.
  apply limbs_ok_cons in H1 as [Hx H1]. apply limbs_ok_cons in H2 as [Hy H2].
  simpl in Hv, Hlen.
  assert (x = y ∧ abs_value d1 = abs_value d2) as [-> Hv'].
  { unfold DIGIT_BASE, DIGIT_MAX_VALUE in *. lia. }
  f_equal. apply IH; auto.
Qed.

Lemma canonical_unique d1 d2 :
  limbs_ok d1 → canonical d1 → limbs_ok d2 → canonical d2 →
  abs_value d1 = abs_value d2 → d1 = d2.
Proof.
  intros H1 C1 H2 C2 Hv.
  destruct (decide (d1 = [])) as [->|N1].
  { symmetry. apply canonical_zero; auto. }
  destruct (decide (d2 = [])) as [->|N2].
  { apply canonical_zero; auto. }
  apply abs_value_inj_length; auto.
  pose proof (canonical_lower d1 H1 C1 N1) as L1.
  pose proof (canonical_lower d2 H2 C2 N2) as L2.
  pose proof (abs_value_bound d1 H1) as B1.
  pose proof (abs_value_bound d2 H2) as B2.
  destruct (Nat.lt_trichotomy (length d1) (length d2)) as [Hlt|[Heq|Hgt]]; [|done|].
  - exfalso.
    assert (DIGIT_BASE ^ Z.of_nat (length d1) ≤ DIGIT_BASE ^ (Z.of_nat (length d2) - 1)).
    { apply Z.pow_le_mono_r; [done|lia]. }
    lia.
  - exfalso.
    assert (DIGIT_BASE ^ Z.of_nat (length d2) ≤ DIGIT_BASE ^ (Z.of_nat (length d1) - 1)).
    { apply Z.pow_le_mono_r; [done|lia]. }
    lia.
Qed.

(** * The limb-scalar primitives compute on magnitudes *)

Lemma abs_add_int_loop_spec d : ∀ s,
  limbs_ok d → 0 ≤ s < DIGIT_BASE →
  let '(d', s') := abs_add_int_loop d s in
  limbs_ok d' ∧ length d' = length d ∧ 0 ≤ s' < DIGIT_BASE ∧
  abs_value d' + DIGIT_BASE ^ Z.of_nat (length d) * s' = abs_value d + s.
Proof.
  induction d as [|x d IH]; intros s Hd Hs; simpl.
  - repeat split; try done; lia.
  - apply limbs_ok_cons in Hd as [Hx Hd].
    rewrite to_double_small by (limb_consts; lia).
    rewrite shiftr_32.
    assert (0 ≤ (s + x) / DIGIT_BASE < DIGIT_BASE) as Hc.
    { limb_consts. split; [apply Z.div_pos; lia|]. apply Z.div_lt_upper_bound; lia. }
    specialize (IH _ Hd Hc).
    destruct (abs_add_int_loop d ((s + x) / DIGIT_BASE)) as [d' s'].
    destruct IH as (Hd' & Hlen & Hs' & Hv).
    repeat split; try tauto.
    + apply limbs_ok_cons. split; [apply to_digit_range|done].
    + simpl. by rewrite Hlen.
    + simpl abs_value. rewrite Nat2Z.inj_succ, Z.pow_succ_r by lia.
      pose proof (digit_split (s + x)). lia.
Qed.

Lemma abs_add_int_limbs rhs a :
  limbs_ok (_data a) → 0 ≤ rhs < DIGIT_BASE → limbs_ok (_data (abs_add_int rhs a)).
Proof.
  intros Hd Hr. unfold abs_add_int.
  pose proof (abs_add_int_loop_spec (_data a) rhs Hd Hr) as H.
  destruct (abs_add_int_loop (_data a) rhs) as [d s]. destruct H as (Hd' & _ & Hs & _).
  simpl. destruct (s =? 0); [done|].
  apply limbs_ok_app. split; [done|]. apply limbs_ok_cons. split; [apply to_digit_range|constructor].
Qed.

Lemma abs_add_int_value rhs a :
  limbs_ok (_data a) → 0 ≤ rhs < DIGIT_BASE →
  abs_value (_data (abs_add_int rhs a)) = abs_value (_data a) + rhs.
Proof.
  intros Hd Hr. unfold abs_add_int.
  pose proof (abs_add_int_loop_spec (_data a) rhs Hd Hr) as H.
  destruct (abs_add_int_loop (_data a) rhs) as [d s]. destruct H as (Hd' & Hlen & Hs & Hv).
  simpl. destruct (Z.eqb_spec s 0) as [->|Hne]; [lia|].
  rewrite abs_value_app, Hlen. simpl. rewrite to_digit_small by done. lia.
Qed.

Lemma abs_add_int_negative rhs a : _negative (abs_add_int rhs a) = _negative a.
Proof. unfold abs_add_int. by destruct (abs_add_int_loop (_data a) rhs). Qed.

Lemma abs_add_int_canonical rhs a :
  limbs_ok (_data a) → canonical (_data a) → 0 ≤ rhs < DIGIT_BASE →
  canonical (_data (abs_add_int rhs a)).
Proof.
  intros Hd Hc Hr. unfold abs_add_int.
  pose proof (abs_add_int_loop_spec (_data a) rhs Hd Hr) as H.
  destruct (abs_add_int_loop (_data a) rhs) as [d s]. destruct H as (Hd' & Hlen & Hs & Hv).
  simpl. destruct (Z.eqb_spec s 0) as [->|Hne].
  - destruct (decide (d = [])) as [->|Hn]; [done|].
    apply canonical_of_lower; [done| |done].
    rewrite Hlen. etransitivity; [apply canonical_lower; try done|lia].
    intros E. rewrite E in Hlen. by destruct d.
  - apply canonical_snoc. rewrite to_digit_small by done. done.
Qed.

Lemma abs_add_int_wf rhs a : wf a → 0 ≤ rhs < DIGIT_BASE → wf (abs_add_int rhs a).
Proof.
  intros [Hl Hc] Hr. split; [by apply abs_add_int_limbs | by apply abs_add_int_canonical].
Qed.

(** Subtraction of a limb, with the borrow that leaves the top. *)
Lemma abs_sub_int_loop_spec d : ∀ b,
  limbs_ok d → 0 ≤ b < DIGIT_BASE →
  limbs_ok (abs_sub_int_loop d b) ∧ length (abs_sub_int_loop d b) = length d ∧
  ∃ bout, 0 ≤ bout < DIGIT_BASE ∧ (d ≠ [] → bout ≤ 1) ∧
    abs_value (abs_sub_int_loop d b) = abs_value d - b + DIGIT_BASE ^ Z.of_nat (length d) * bout.
Proof.
  induction d as [|x d IH]; intros b Hd Hb; simpl.
  - repeat split; try done. exists b. repeat split; try done; lia.
  - apply limbs_ok_cons in Hd as [Hx Hd].
    set (diff := to_double (x - b)).
    assert (diff = if decide (b ≤ x) then x - b else 18446744073709551616 + x - b) as Hdiff.
    { subst diff. limb_consts. case_decide.
      - apply Z.mod_small. lia.
      - symmetry. apply (Z.mod_unique _ _ (-1)); lia. }
    set (b' := if diff >? DIGIT_MAX_VALUE then 1 else 0).
    assert (b' = if decide (b ≤ x) then 0 else 1) as Hb'.
    { subst b'. rewrite Hdiff. limb_consts. case_decide.
      - destruct (Z.gtb_spec (x - b) 4294967295); [lia|done].
      - destruct (Z.gtb_spec (18446744073709551616 + x - b) 4294967295); [done|lia]. }
    assert (to_digit diff = if decide (b ≤ x) then x - b else DIGIT_BASE + x - b) as Hdig.
    { rewrite Hdiff. limb_consts. case_decide.
      - apply Z.mod_small. lia.
      - symmetry. apply (Z.mod_unique _ _ 4294967295); lia. }
    assert (0 ≤ b' ≤ 1) as Hb'r by (rewrite Hb'; case_decide; lia).
    destruct (IH b' Hd ltac:(limb_consts; lia)) as (Hl & Hlen & bout & Hbr & Hbout & Hv).
    repeat split.
    + apply limbs_ok_cons. split; [apply to_digit_range|done].
    + by rewrite Hlen.
    + exists bout. split; [done|]. split.
      * intros _. destruct (decide (d = [])) as [->|Hne]; [|by apply Hbout].
        simpl in Hv. lia.
      * rewrite Hv, Hdig, Hb'. rewrite Nat2Z.inj_succ, Z.pow_succ_r by lia.
        case_decide; lia.
Qed.

Lemma abs_sub_int_wf rhs a : limbs_ok (_data a) → 0 ≤ rhs < DIGIT_BASE → wf (abs_sub_int rhs a).
Proof.
  intros Hd Hr. unfold abs_sub_int. apply trim_wf. simpl.
  by apply abs_sub_int_loop_spec.
Qed.

Lemma abs_sub_int_value rhs a :
  limbs_ok (_data a) → 0 ≤ rhs < DIGIT_BASE → rhs ≤ abs_value (_data a) →
  abs_value (_data (abs_sub_int rhs a)) = abs_value (_data a) - rhs.
Proof.
  intros Hd Hr Hle. unfold abs_sub_int. simpl. rewrite abs_value_trim.
  destruct (abs_sub_int_loop_spec (_data a) rhs Hd Hr) as (Hl & Hlen & bout & Hbr & Hbout & Hv).
  pose proof (abs_value_bound _ Hl) as B. rewrite Hlen in B.
  pose proof (abs_value_bound _ Hd) as B'.
  assert (0 < DIGIT_BASE ^ Z.of_nat (length (_data a))) by (apply Z.pow_pos_nonneg; [done|lia]).
  assert (bout = 0) as -> by nia. lia.
Qed.

Lemma abs_sub_int_negative rhs a : _negative (abs_sub_int rhs a) = _negative a.
Proof. reflexivity. Qed.

(** Multiplication by a limb. *)
Lemma abs_mul_int_loop_spec d rhs : ∀ s,
  limbs_ok d → 0 ≤ rhs < DIGIT_BASE → 0 ≤ s < DIGIT_BASE →
  let '(d', s') := abs_mul_int_loop d rhs s in
  limbs_ok d' ∧ length d' = length d ∧ 0 ≤ s' < DIGIT_BASE ∧
  abs_value d' + DIGIT_BASE ^ Z.of_nat (length d) * s' = abs_value d * rhs + s.
Proof.
  induction d as [|x d IH]; intros s Hd Hr Hs; simpl.
  - repeat split; try done; lia.
  - apply limbs_ok_cons in Hd as [Hx Hd].
    rewrite to_double_small by (limb_consts; nia).
    rewrite shiftr_32.
    assert (0 ≤ (x * rhs + s) / DIGIT_BASE < DIGIT_BASE) as Hc.
    { limb_consts. split; [apply Z.div_pos; nia|]. apply Z.div_lt_upper_bound; nia. }
    specialize (IH _ Hd Hr Hc).
    destruct (abs_mul_int_loop d rhs ((x * rhs + s) / DIGIT_BASE)) as [d' s'].
    destruct IH as (Hd' & Hlen & Hs' & Hv).
    repeat split; try tauto.
    + apply limbs_ok_cons. split; [apply to_digit_range|done].
    + simpl. by rewrite Hlen.
    + simpl abs_value. rewrite Nat2Z.inj_succ, Z.pow_succ_r by lia.
      pose proof (digit_split (x * rhs + s)). lia.
Qed.

Lemma abs_mul_int_wf rhs a : limbs_ok (_data a) → 0 ≤ rhs < DIGIT_BASE → wf (abs_mul_int rhs a).
Proof.
  intros Hd Hr. unfold abs_mul_int.
  pose proof (abs_mul_int_loop_spec (_data a) rhs 0 Hd Hr ltac:(done)) as H.
  destruct (abs_mul_int_loop (_data a) rhs 0) as [d s]. destruct H as (Hd' & _ & Hs & _).
  apply trim_wf. simpl. destruct (s =? 0); [done|].
  apply limbs_ok_app. split; [done|]. apply limbs_ok_cons. split; [apply to_digit_range|constructor].
Qed.

Lemma abs_mul_int_value rhs a :
  limbs_ok (_data a) → 0 ≤ rhs < DIGIT_BASE →
  abs_value (_data (abs_mul_int rhs a)) = abs_value (_data a) * rhs.
Proof.
  intros Hd Hr. unfold abs_mul_int.
  pose proof (abs_mul_int_loop_spec (_data a) rhs 0 Hd Hr ltac:(done)) as H.
  destruct (abs_mul_int_loop (_data a) rhs 0) as [d s]. destruct H as (Hd' & Hlen & Hs & Hv).
  simpl. rewrite abs_value_trim. destruct (Z.eqb_spec s 0) as [->|Hne]; [lia|].
  rewrite abs_value_app, Hlen. simpl. rewrite to_digit_small by done. lia.
Qed.

Lemma abs_mul_int_negative rhs a : _negative (abs_mul_int rhs a) = _negative a.
Proof. unfold abs_mul_int. by destruct (abs_mul_int_loop (_data a) rhs 0). Qed.

(** Division by a limb, walking the limbs from the top. *)
Lemma abs_divide_int_loop_spec val l : ∀ r,
  limbs_ok l → 0 < val < DIGIT_BASE → 0 ≤ r < val →
  let '(q, r') := abs_divide_int_loop l val r in
  limbs_ok q ∧ length q = length l ∧ 0 ≤ r' < val ∧
  abs_value (rev q) * val + r' = r * DIGIT_BASE ^ Z.of_nat (length l) + abs_value (rev l).
Proof.
  induction l as [|x l IH]; intros r Hl Hval Hr; simpl.
  - repeat split; try done; lia.
  - apply limbs_ok_cons in Hl as [Hx Hl].
    rewrite shiftl_32.
    rewrite to_double_small by (limb_consts; nia).
    rewrite lor_limb by (done || lia).
    set (r1 := r * DIGIT_BASE + x).
    assert (0 ≤ r1 / val < DIGIT_BASE) as Hq.
    { split; [apply Z.div_pos; subst r1; limb_consts; nia|].
      apply Z.div_lt_upper_bound; subst r1; limb_consts; nia. }
    assert (0 ≤ r1 mod val < val) as Hm by (apply Z.mod_pos_bound; lia).
    specialize (IH _ Hl Hval Hm).
    destruct (abs_divide_int_loop l val (r1 mod val)) as [q r'].
    destruct IH as (Hq' & Hlen & Hr' & Hv).
    repeat split; try tauto.
    + apply limbs_ok_cons. split; [apply to_digit_range|done].
    + simpl. by rewrite Hlen.
    + rewrite to_digit_small by done.
      simpl rev. rewrite !abs_value_app, !length_rev, Hlen. simpl abs_value.
      rewrite Nat2Z.inj_succ, Z.pow_succ_r by lia.
      pose proof (Z.div_mod r1 val ltac:(lia)) as Hdm. subst r1.
      set (P := DIGIT_BASE ^ Z.of_nat (length l)) in *.
      set (Q := (r * DIGIT_BASE + x) / val) in *.
      set (M := (r * DIGIT_BASE + x) mod val) in *.
      replace (r * (DIGIT_BASE * P) + (abs_value (rev l) + P * (x + DIGIT_BASE * 0)))
        with (P * (r * DIGIT_BASE + x) + abs_value (rev l)) by ring.
      rewrite Hdm at 1. fold Q M. fold M in Hv. lia.
Qed.

Lemma abs_divide_int_spec val a :
  limbs_ok (_data a) → 0 < val < DIGIT_BASE →
  let '(a', r) := abs_divide_int val a in
  wf a' ∧ _negative a' = _negative a ∧
  abs_value (_data a') = abs_value (_data a) / val ∧
  r = abs_value (_data a) mod val.
Proof.
  intros Hd Hval. unfold abs_divide_int.
  pose proof (abs_divide_int_loop_spec val (rev (_data a)) 0
                (proj2 (limbs_ok_rev _) Hd) Hval ltac:(lia)) as H.
  destruct (abs_divide_int_loop (rev (_data a)) val 0) as [q r].
  destruct H as (Hq & Hlen & Hr & Hv).
  rewrite rev_involutive in Hv. simpl in Hv.
  split; [apply trim_wf; simpl; by apply limbs_ok_rev|].
  split; [done|]. simpl. rewrite abs_value_trim.
  rewrite to_digit_small by (limb_consts; lia).
  split.
  - apply (Z.div_unique _ _ _ r); [lia|lia].
  - apply (Z.mod_unique _ _ (abs_value (rev q))); [lia|lia].
Qed.

(** * Which calls can throw *)

Lemma no_throw_ok {A} (a : A) : no_throw (Ok a).
Proof. done. Qed.

Lemma no_throw_undefined {A} : no_throw (@Undefined A).
Proof. done. Qed.

Lemma no_throw_timeout {A} : no_throw (@Timeout A).
Proof. done. Qed.

Lemma no_throw_bind {A B} (m : outcome A) (f : A → outcome B) :
  no_throw m → (∀ a, no_throw (f a)) → no_throw (m ≫= f).
Proof.
  intros Hm Hf. destruct m as [a|e t| |]; simpl; try done.
  by destruct (Hm e t).
Qed.

Lemma no_throw_vec_at v i : no_throw (vec_at v i).
Proof. unfold vec_at. by destruct (v !! i). Qed.

Lemma no_throw_vec_set v i x : no_throw (vec_set v i x).
Proof. unfold vec_set. by case_decide. Qed.

Lemma no_throw_back v : no_throw (back v).
Proof. unfold back. by destruct (last v). Qed.

Create HintDb no_throw.
#[global] Hint Resolve no_throw_ok no_throw_undefined no_throw_timeout
  no_throw_vec_at no_throw_vec_set no_throw_back : no_throw.

Ltac no_throw_step :=
  match goal with
  | |- no_throw (_ ≫= _) => apply no_throw_bind; [|intros ?]
  | |- no_throw (let '(_, _) := ?p in _) => destruct p
  | |- no_throw (if ?c then _ else _) => destruct c
  | |- no_throw (match ?x with _ => _ end) => destruct x
  | |- no_throw _ => solve [eauto with no_throw]
  end.

Lemma no_throw_abs_add_low n : ∀ i recv rhs out carry,
  no_throw (abs_add_low n i recv rhs out carry).
Proof. induction n; intros; simpl; repeat no_throw_step. Qed.

Lemma no_throw_abs_add_high n : ∀ i recv out carry,
  no_throw (abs_add_high n i recv out carry).
Proof. induction n; intros; simpl; repeat no_throw_step. Qed.

#[global] Hint Resolve no_throw_abs_add_low no_throw_abs_add_high : no_throw.

Lemma no_throw_abs_add recv rhs this : no_throw (abs_add recv rhs this).
Proof. unfold abs_add, abs_add_ordered. repeat no_throw_step. Qed.

Lemma no_throw_abs_subtract_low n : ∀ i recv rhs out borrow,
  no_throw (abs_subtract_low n i recv rhs out borrow).
Proof. induction n; intros; simpl; repeat no_throw_step. Qed.

Lemma no_throw_abs_subtract_high n : ∀ i recv out borrow,
  no_throw (abs_subtract_high n i recv out borrow).
Proof. induction n; intros; simpl; repeat no_throw_step. Qed.

#[global] Hint Resolve no_throw_abs_subtract_low no_throw_abs_subtract_high : no_throw.

Lemma no_throw_abs_subtract recv rhs max_size this :
  no_throw (abs_subtract recv rhs max_size this).
Proof. unfold abs_subtract. repeat no_throw_step. Qed.

Lemma no_throw_abs_mul_inner n : ∀ j i rhs data_i d carry,
  no_throw (abs_mul_inner n j i rhs data_i d carry).
Proof. induction n; intros; simpl; repeat no_throw_step. Qed.

#[global] Hint Resolve no_throw_abs_mul_inner : no_throw.

Lemma no_throw_abs_mul_outer n : ∀ i rhs_size rhs d,
  no_throw (abs_mul_outer n i rhs_size rhs d).
Proof. induction n; intros; simpl; repeat no_throw_step. Qed.

#[global] Hint Resolve no_throw_abs_mul_outer no_throw_abs_add no_throw_abs_subtract : no_throw.

Lemma no_throw_abs_mul rhs this : no_throw (abs_mul rhs this).
Proof. unfold abs_mul. repeat no_throw_step. Qed.

Lemma no_throw_strip_equal_high n : ∀ rhs d, no_throw (strip_equal_high n rhs d).
Proof. induction n; intros; simpl; repeat no_throw_step. Qed.

#[global] Hint Resolve no_throw_abs_mul no_throw_strip_equal_high : no_throw.

Lemma no_throw_operator_plus_assign rhs this : no_throw (operator_plus_assign rhs this).
Proof. unfold operator_plus_assign. repeat no_throw_step. Qed.

#[global] Hint Resolve no_throw_operator_plus_assign : no_throw.

Lemma no_throw_operator_minus_assign rhs this : no_throw (operator_minus_assign rhs this).
Proof. unfold operator_minus_assign. repeat no_throw_step. Qed.

Lemma no_throw_operator_mul_assign rhs this : no_throw (operator_mul_assign rhs this).
Proof. unfold operator_mul_assign. eauto with no_throw. Qed.

#[global] Hint Resolve no_throw_operator_minus_assign no_throw_operator_mul_assign : no_throw.

Lemma no_throw_div_rem_correct fuel : ∀ rhs q this, no_throw (div_rem_correct fuel rhs q this).
Proof.
  induction fuel; intros; simpl; repeat no_throw_step.
Qed.

#[global] Hint Resolve no_throw_div_rem_correct : no_throw.

Lemma no_throw_div_rem_loop fuel n : ∀ rhs this q, no_throw (div_rem_loop fuel n rhs this q).
Proof.
  induction n; intros; simpl; repeat no_throw_step.
Qed.

Lemma no_throw_normalize this : no_throw (normalize this).
Proof. unfold normalize. repeat no_throw_step. Qed.

#[global] Hint Resolve no_throw_div_rem_loop no_throw_normalize : no_throw.

(** [div_rem] throws exactly at its first test, before touching anything. *)
Lemma div_rem_throw fuel rhs this :
  is_zero rhs = true → div_rem fuel rhs this = Throw division_by_zero this.
Proof. intros H. unfold div_rem. by rewrite H. Qed.

Lemma div_rem_throws_only fuel rhs this e t :
  is_zero rhs = false → div_rem fuel rhs this = Throw e t → e = length_error.
Proof.
  intros Hz H. unfold div_rem in H. rewrite Hz in H.
  destruct (_ || _); [done|].
  destruct (normalize _) as [[rhs1 k]|e' t'| |] eqn:En; simpl in H; try done.
  - destruct (_ <? _)%nat; [by injection H as <- _|].
    exfalso. revert H.
    match goal with |- ?m = _ → _ => assert (no_throw m) as Hn by (repeat no_throw_step) end.
    apply Hn.
  - by apply no_throw_normalize in En.
Qed.

Lemma is_zero_value b : wf b → (is_zero b = true ↔ value b = 0).
Proof.
  intros [Hl Hc]. unfold is_zero, value. split.
  - destruct (_data b); [|done]. by destruct (_negative b).
  - intros Hv. assert (abs_value (_data b) = 0) as H0 by (destruct (_negative b); lia).
    by rewrite (canonical_zero _ Hl Hc H0).
Qed.

(** * [abs_add]: the index loops and their summaries *)

Lemma vec_at_lookup v i x : v !! i = Some x → vec_at v i = Ok x.
Proof. unfold vec_at. by intros ->. Qed.

Lemma vec_set_lt v i x : (i < length v)%nat → vec_set v i x = Ok (<[i:=x]> v).
Proof. unfold vec_set. intros. by case_decide. Qed.

(** Reading an operand above the index being written is not affected by
    the write. *)
Lemma data_of_insert_drop out r i v :
  drop (S i) (data_of (<[i:=v]> out) r) = drop (S i) (data_of out r).
Proof. destruct r; simpl; [|done]. apply drop_insert_lt. lia. Qed.

Lemma data_of_insert_length out r i v :
  length (data_of (<[i:=v]> out) r) = length (data_of out r).
Proof. destruct r; simpl; [|done]. apply length_insert. Qed.

Lemma take_drop_cons {A} (l : list A) i n x xs :
  take (S n) (drop i l) = x :: xs → l !! i = Some x ∧ take n (drop (S i) l) = xs.
Proof.
  intros H. destruct (drop i l) as [|y t] eqn:E; [done|].
  simpl in H. injection H as -> <-.
  assert (l !! i = Some x) as Hx.
  { rewrite <- (Nat.add_0_r i), <- lookup_drop, E. done. }
  split; [done|]. by rewrite (drop_S l x i Hx) in E; injection E as ->.
Qed.

Lemma abs_add_low_spec n : ∀ i recv rhs out carry xs ys,
  take n (drop i (data_of out rhs)) = xs → length xs = n →
  take n (drop i (data_of out recv)) = ys → length ys = n →
  (i + n ≤ length out)%nat →
  abs_add_low n i recv rhs out carry =
    let '(zs, carry') := add_limbs xs ys carry in
    Ok (take i out ++ zs ++ drop (i + n) out, carry').
Proof.
  induction n as [|n IH]; intros i recv rhs out carry xs ys Hxs Hlx Hys Hly Hlen.
  - destruct xs; [|done]. simpl. rewrite Nat.add_0_r, take_drop. done.
  - destruct xs as [|x xs]; [done|]. destruct ys as [|y ys]; [done|].
    apply take_drop_cons in Hxs as [Hx Hxs]. apply take_drop_cons in Hys as [Hy Hys].
    simpl. rewrite (vec_at_lookup _ _ _ Hx). simpl. rewrite (vec_at_lookup _ _ _ Hy). simpl.
    rewrite vec_set_lt by lia. simpl.
    set (c := to_double (to_double (carry + x) + y)).
    rewrite (IH (S i) recv rhs (<[i:=to_digit c]> out) (Z.shiftr c DIGIT_BITS) xs ys).
    + destruct (add_limbs xs ys (Z.shiftr c DIGIT_BITS)) as [zs c'].
      f_equal. f_equal.
      rewrite (take_S_r _ _ (to_digit c)) by (apply list_lookup_insert_eq; lia).
      rewrite take_insert_ge by lia.
      rewrite <- app_assoc. simpl. do 3 f_equal.
      replace (S i + n)%nat with (S (i + n)) by lia.
      replace (i + S n)%nat with (S (i + n)) by lia.
      apply drop_insert_lt. lia.
    + by rewrite data_of_insert_drop.
    + simpl in Hlx. lia.
    + by rewrite data_of_insert_drop.
    + simpl in Hly. lia.
    + rewrite length_insert. lia.
Qed.

Lemma abs_add_high_spec n : ∀ i recv out carry ys,
  take n (drop i (data_of out recv)) = ys → length ys = n →
  (i + n ≤ length out)%nat →
  abs_add_high n i recv out carry =
    let '(zs, carry') := abs_add_int_loop ys carry in
    Ok (take i out ++ zs ++ drop (i + n) out, carry').
Proof.
  induction n as [|n IH]; intros i recv out carry ys Hys Hly Hlen.
  - destruct ys; [|done]. simpl. rewrite Nat.add_0_r, take_drop. done.
  - destruct ys as [|y ys]; [done|].
    apply take_drop_cons in Hys as [Hy Hys].
    simpl. rewrite (vec_at_lookup _ _ _ Hy). simpl.
    rewrite vec_set_lt by lia. simpl.
    set (c := to_double (carry + y)).
    rewrite (IH (S i) recv (<[i:=to_digit c]> out) (Z.shiftr c DIGIT_BITS) ys).
    + destruct (abs_add_int_loop ys (Z.shiftr c DIGIT_BITS)) as [zs c'].
      f_equal. f_equal.
      rewrite (take_S_r _ _ (to_digit c)) by (apply list_lookup_insert_eq; lia).
      rewrite take_insert_ge by lia.
      rewrite <- app_assoc. simpl. do 3 f_equal.
      replace (S i + n)%nat with (S (i + n)) by lia.
      replace (i + S n)%nat with (S (i + n)) by lia.
      apply drop_insert_lt. lia.
    + by rewrite data_of_insert_drop.
    + simpl in Hly. lia.
    + rewrite length_insert. lia.
Qed.

Lemma add_limbs_spec xs : ∀ ys carry,
  limbs_ok xs → limbs_ok ys → length xs = length ys → 0 ≤ carry ≤ 1 →
  let '(zs, carry') := add_limbs xs ys carry in
  limbs_ok zs ∧ length zs = length xs ∧ 0 ≤ carry' ≤ 1 ∧
  abs_value zs + DIGIT_BASE ^ Z.of_nat (length xs) * carry'
    = abs_value xs + abs_value ys + carry.
Proof.
  induction xs as [|x xs IH]; intros [|y ys] carry Hx Hy Hlen Hc; try done.
  - simpl. repeat split; try done; lia.
  - apply limbs_ok_cons in Hx as [Hx Hxs]. apply limbs_ok_cons in Hy as [Hy Hys].
    simpl. rewrite (to_double_small (carry + x)) by (limb_consts; lia).
    rewrite to_double_small by (limb_consts; lia).
    rewrite shiftr_32.
    assert (0 ≤ (carry + x + y) / DIGIT_BASE ≤ 1) as Hc'.
    { limb_consts. split; [apply Z.div_pos; lia|].
      assert ((carry + x + y) / 4294967296 < 2); [|lia].
      apply Z.div_lt_upper_bound; lia. }
    simpl in Hlen. specialize (IH ys _ Hxs Hys ltac:(lia) Hc').
    destruct (add_limbs xs ys ((carry + x + y) / DIGIT_BASE)) as [zs c'].
    destruct IH as (Hz & Hl & Hcr & Hv).
    repeat split; try tauto.
    + apply limbs_ok_cons. split; [apply to_digit_range|done].
    + simpl. by rewrite Hl.
    + simpl abs_value. rewrite Nat2Z.inj_succ, Z.pow_succ_r by lia.
      pose proof (digit_split (carry + x + y)). lia.
Qed.

(** The carry chain of the second loop starts from a carry of at most 1. *)
Lemma abs_add_int_loop_carry ys : ∀ carry,
  limbs_ok ys → 0 ≤ carry ≤ 1 →
  let '(zs, carry') := abs_add_int_loop ys carry in
  limbs_ok zs ∧ length zs = length ys ∧ 0 ≤ carry' ≤ 1 ∧
  abs_value zs + DIGIT_BASE ^ Z.of_nat (length ys) * carry' = abs_value ys + carry.
Proof.
  induction ys as [|y ys IH]; intros carry Hy Hc.
  - simpl. repeat split; try done; lia.
  - apply limbs_ok_cons in Hy as [Hy Hys].
    simpl. rewrite to_double_small by (limb_consts; lia).
    rewrite shiftr_32.
    assert (0 ≤ (carry + y) / DIGIT_BASE ≤ 1) as Hc'.
    { limb_consts. split; [apply Z.div_pos; lia|].
      assert ((carry + y) / 4294967296 < 2); [|lia].
      apply Z.div_lt_upper_bound; lia. }
    specialize (IH _ Hys Hc').
    destruct (abs_add_int_loop ys ((carry + y) / DIGIT_BASE)) as [zs c'].
    destruct IH as (Hz & Hl & Hcr & Hv).
    repeat split; try tauto.
    + apply limbs_ok_cons. split; [apply to_digit_range|done].
    + simpl. by rewrite Hl.
    + simpl abs_value. rewrite Nat2Z.inj_succ, Z.pow_succ_r by lia.
      pose proof (digit_split (carry + y)). lia.
Qed.

Lemma limbs_ok_take n d : limbs_ok d → limbs_ok (take n d).
Proof. unfold limbs_ok. apply Forall_take. Qed.

Lemma limbs_ok_drop n d : limbs_ok d → limbs_ok (drop n d).
Proof. unfold limbs_ok. apply Forall_drop. Qed.

Lemma abs_value_take_drop n d :
  (n ≤ length d)%nat →
  abs_value d = abs_value (take n d) + DIGIT_BASE ^ Z.of_nat n * abs_value (drop n d).
Proof.
  intros H. rewrite <- (take_drop n d) at 1. rewrite abs_value_app, length_take_le by done. done.
Qed.

(** [abs_add] with the longer operand as receiver: the sum of the magnitudes,
    in the object assigned to, whichever of the two operands that is. *)
Lemma abs_add_ordered_spec recv rhs this :
  recv = Self ∨ rhs = Self →
  let xs := data_of (_data this) rhs in
  let ys := data_of (_data this) recv in
  limbs_ok xs → limbs_ok ys → (length xs ≤ length ys)%nat →
  ∃ r, abs_add_ordered recv rhs this = Ok r ∧
    _negative r = _negative this ∧
    limbs_ok (_data r) ∧
    abs_value (_data r) = abs_value xs + abs_value ys ∧
    (canonical ys → canonical (_data r)).
Proof.
  intros Halias xs ys Hxs Hys Hle.
  assert (∃ n, n = length xs) as [n Hn] by eauto.
  assert (∃ m, m = length ys) as [m Hm] by eauto.
  rewrite <- Hn, <- Hm in Hle.
  assert (length (_data this) = n ∨ length (_data this) = m) as Hout.
  { destruct Halias as [->| ->]; simpl in *; [right|left]; done. }
  unfold abs_add_ordered. fold xs. rewrite <- Hn.
  rewrite (abs_add_low_spec n 0 recv rhs (_data this) 0 xs (take n ys)); cycle 1.
  { simpl. fold xs. apply take_ge. lia. }
  { done. }
  { done. }
  { rewrite length_take_le; lia. }
  { lia. }
  pose proof (add_limbs_spec xs (take n ys) 0 Hxs (limbs_ok_take _ _ Hys)
                ltac:(rewrite length_take_le; lia) ltac:(lia)) as Hadd.
  destruct (add_limbs xs (take n ys) 0) as [zs c1].
  destruct Hadd as (Hzs & Hlz & Hc1 & Hv1). rewrite <- Hn in Hlz, Hv1.
  simpl take. rewrite app_nil_l. simpl Nat.add. cbn [mbind outcome_bind].
  assert (∃ out1, out1 = zs ++ drop n (_data this)) as [out1 Hout1] by eauto.
  rewrite <- Hout1.
  assert (length (data_of out1 recv) = m) as Hrecv.
  { destruct recv as [|b]; simpl in *; [|done].
    rewrite Hout1, length_app, length_drop. subst ys. lia. }
  rewrite Hrecv.
  assert (take n (resize m 0 out1) = zs) as Htake.
  { rewrite resize_spec, Hout1. rewrite take_app_le.
    - rewrite take_take, Nat.min_l by lia. by rewrite take_app_length'.
    - rewrite length_take, length_app. lia. }
  assert (drop n (data_of (resize m 0 out1) recv) = drop n ys) as Hdrop.
  { destruct recv as [|b]; [|done]. simpl in *. subst ys.
    rewrite resize_all_alt.
    - by rewrite Hout1, drop_app_length'.
    - rewrite Hout1, length_app, length_drop. lia. }
  rewrite (abs_add_high_spec (m - n) n recv (resize m 0 out1) c1 (drop n ys)); cycle 1.
  { rewrite Hdrop. apply take_ge. rewrite length_drop. lia. }
  { rewrite length_drop. lia. }
  { rewrite length_resize. lia. }
  pose proof (abs_add_int_loop_carry (drop n ys) c1 (limbs_ok_drop _ _ Hys) Hc1) as Hadd2.
  destruct (abs_add_int_loop (drop n ys) c1) as [ws c2].
  destruct Hadd2 as (Hws & Hlw & Hc2 & Hv2).
  rewrite length_drop, <- Hm in Hlw, Hv2.
  rewrite Htake. rewrite (drop_ge (resize m 0 out1)) by (rewrite length_resize; lia).
  rewrite app_nil_r. cbn [mbind outcome_bind].
  eexists. split; [reflexivity|]. cbn [_negative _data]. split; [done|].
  assert (limbs_ok (zs ++ ws)) as Hzw by (by apply limbs_ok_app).
  assert (abs_value (zs ++ ws) + DIGIT_BASE ^ Z.of_nat m * c2 = abs_value xs + abs_value ys) as Hv.
  { rewrite abs_value_app, Hlz.
    rewrite (abs_value_take_drop n ys) by lia.
    replace (DIGIT_BASE ^ Z.of_nat m) with
      (DIGIT_BASE ^ Z.of_nat n * DIGIT_BASE ^ Z.of_nat (m - n)).
    - nia.
    - rewrite <- Z.pow_add_r by lia. f_equal. lia. }
  destruct (Z.eqb_spec c2 0) as [->|Hne].
  - split; [done|]. split; [lia|]. intros Hc.
    destruct (decide (ys = [])) as [E|Hne].
    + assert (m = 0%nat) as Hm0 by (by rewrite Hm, E).
      assert (zs ++ ws = []) as ->; [|done].
      apply length_zero_iff_nil. rewrite length_app. lia.
    + apply canonical_of_lower; [done| |].
      * rewrite length_app, Hlz, Hlw.
        replace (Z.of_nat (n + (m - n))) with (Z.of_nat m) by lia.
        pose proof (canonical_lower ys Hys Hc Hne) as Hlow. rewrite <- Hm in Hlow.
        pose proof (abs_value_bound xs Hxs). lia.
      * intros E. apply (f_equal length) in E. rewrite length_app, Hlz, Hlw in E.
        simpl in E. destruct ys; [done|]. simpl in Hm. lia.
  - assert (c2 = 1) as -> by lia.
    split; [|split].
    + apply limbs_ok_app. split; [done|]. apply limbs_ok_cons. split; [by vm_compute|constructor].
    + rewrite abs_value_app, length_app, Hlz, Hlw.
      replace (Z.of_nat (n + (m - n))) with (Z.of_nat m) by lia.
      change (abs_value [to_digit 1]) with 1. lia.
    + intros _. by apply canonical_snoc.
Qed.

(** [abs_add] on the operands of a compound assignment. *)
Lemma abs_add_spec rhs this :
  limbs_ok (_data this) → limbs_ok (data_of (_data this) rhs) →
  ∃ r, abs_add Self rhs this = Ok r ∧
    _negative r = _negative this ∧
    limbs_ok (_data r) ∧
    abs_value (_data r) = abs_value (_data this) + abs_value (data_of (_data this) rhs) ∧
    (canonical (_data this) → canonical (data_of (_data this) rhs) → canonical (_data r)).
Proof.
  intros Hthis Hrhs. unfold abs_add. simpl data_of at 1.
  destruct (Nat.ltb_spec (length (_data this)) (length (data_of (_data this) rhs))) as [Hlt|Hge].
  - destruct (abs_add_ordered_spec rhs Self this (or_intror eq_refl) Hthis Hrhs ltac:(simpl; lia))
      as (r & Hr & Hn & Hl & Hv & Hc).
    exists r. split; [done|]. split; [done|]. split; [done|]. split.
    + simpl in Hv. lia.
    + intros _ ?. by apply Hc.
  - destruct (abs_add_ordered_spec Self rhs this (or_introl eq_refl) Hrhs Hthis ltac:(simpl; lia))
      as (r & Hr & Hn & Hl & Hv & Hc).
    exists r. split; [done|]. split; [done|]. split; [done|]. split.
    + simpl in Hv. lia.
    + intros ? _. by apply Hc.
Qed.

(** * [abs_mul] on a right-hand side that is the receiver itself *)

(** Once the zero limbs are in front, every limb the inner loop reads through
    [rhs] and every limb it accumulates into is one of those zeros: the loop
    rewrites zeros by zeros and ends without carry. *)
Lemma abs_mul_inner_self n : ∀ j i data_i d,
  (∀ k, (k < i + j + n)%nat → d !! k = Some 0) →
  abs_mul_inner n j i Self data_i d 0 = Ok (d, 0).
Proof.
  induction n as [|n IH]; intros j i data_i d Hz; [done|].
  simpl.
  rewrite (vec_at_lookup _ _ _ (Hz j ltac:(lia))). cbn [mbind outcome_bind].
  rewrite (vec_at_lookup _ _ _ (Hz (i + j)%nat ltac:(lia))). cbn [mbind outcome_bind].
  rewrite Z.mul_0_r. change (to_double (0 + 0 + 0)) with 0.
  change (to_digit 0) with 0. change (to_digit (Z.shiftr 0 DIGIT_BITS)) with 0.
  rewrite vec_set_lt by (apply lookup_lt_Some with 0, Hz; lia).
  cbn [mbind outcome_bind].
  rewrite list_insert_id by (apply Hz; lia).
  apply IH. intros k Hk. apply Hz. lia.
Qed.

Lemma abs_mul_outer_self rest : ∀ i m,
  abs_mul_outer (length rest) i m Self (replicate (m + i) 0 ++ rest)
  = Ok (replicate (m + i + length rest) 0).
Proof.
  induction rest as [|x rest IH]; intros i m.
  - simpl. by rewrite app_nil_r, Nat.add_0_r.
  - simpl length. cbn [abs_mul_outer].
    assert ((replicate (m + i) 0 ++ x :: rest) !! (i + m)%nat = Some x) as Hx.
    { rewrite lookup_app_r by (rewrite length_replicate; lia).
      rewrite length_replicate. by replace (i + m - (m + i))%nat with 0%nat by lia. }
    rewrite (vec_at_lookup _ _ _ Hx). cbn [mbind outcome_bind].
    rewrite abs_mul_inner_self; cycle 1.
    { intros k Hk. rewrite lookup_app_l by (rewrite length_replicate; lia).
      apply lookup_replicate_2. lia. }
    cbn [mbind outcome_bind].
    rewrite vec_set_lt by (rewrite length_app, length_replicate; simpl; lia).
    cbn [mbind outcome_bind].
    replace (<[(i + m)%nat:=0]> (replicate (m + i) 0 ++ x :: rest))
      with (replicate (m + S i) 0 ++ rest).
    + rewrite IH. f_equal. f_equal. lia.
    + rewrite insert_app_r_alt by (rewrite length_replicate; lia).
      rewrite length_replicate. replace (i + m - (m + i))%nat with 0%nat by lia.
      simpl. replace (m + S i)%nat with (S (m + i)) by lia.
      rewrite replicate_S_end, <- app_assoc. done.
Qed.

Lemma abs_mul_self this : abs_mul Self this = Ok (mk_big_integer [] (_negative this)).
Proof.
  unfold abs_mul. simpl data_of.
  pose proof (abs_mul_outer_self (_data this) 0 (length (_data this))) as H.
  rewrite Nat.add_0_r in H. rewrite H. cbn [mbind outcome_bind].
  unfold trim. cbn [_data _negative]. by rewrite trim_data_replicate.
Qed.

(** * [operator+=] and [operator-=] on a right-hand side that is the
    receiver itself *)

Lemma operator_plus_assign_self this :
  limbs_ok (_data this) →
  ∃ r, operator_plus_assign Self this = Ok r ∧
    _negative r = _negative this ∧ limbs_ok (_data r) ∧
    abs_value (_data r) = 2 * abs_value (_data this) ∧
    (canonical (_data this) → canonical (_data r)).
Proof.
  intros Hl. unfold operator_plus_assign. simpl deref.
  rewrite Bool.eqb_reflx.
  destruct (abs_add_spec Self this Hl Hl) as (r & Hr & Hn & Hlr & Hv & Hc).
  exists r. simpl in Hv. repeat split; try done; [lia|]. intros. by apply Hc.
Qed.

(** * Decimal numerals *)

Lemma digit_value_range c : is_decimal_digit c = true → 0 ≤ digit_value c ≤ 9.
Proof.
  unfold is_decimal_digit, digit_value. intros [H1 H2]%andb_true_iff.
  apply Nat.leb_le in H1, H2. lia.
Qed.

Lemma decimal_fold s : ∀ acc,
  fold_left (λ acc c, acc * 10 + digit_value c) s acc
  = acc * 10 ^ Z.of_nat (length s) + decimal_value s.
Proof.
  unfold decimal_value. induction s as [|c s IH]; intros acc; simpl fold_left.
  - simpl. lia.
  - rewrite IH. rewrite (IH (0 * 10 + digit_value c)).
    simpl length. rewrite Nat2Z.inj_succ, Z.pow_succ_r by lia. ring.
Qed.

Lemma decimal_value_nil : decimal_value [] = 0.
Proof. reflexivity. Qed.

Lemma decimal_value_cons c s :
  decimal_value (c :: s) = digit_value c * 10 ^ Z.of_nat (length s) + decimal_value s.
Proof. unfold decimal_value at 1. simpl fold_left. rewrite decimal_fold. lia. Qed.

Lemma decimal_value_app s1 s2 :
  decimal_value (s1 ++ s2)
  = decimal_value s1 * 10 ^ Z.of_nat (length s2) + decimal_value s2.
Proof.
  unfold decimal_value at 1. rewrite fold_left_app. fold (decimal_value s1).
  apply decimal_fold.
Qed.

Lemma all_digits_cons c s : all_digits (c :: s) ↔ is_decimal_digit c = true ∧ all_digits s.
Proof. unfold all_digits. by rewrite Forall_cons. Qed.

Lemma all_digits_app s1 s2 : all_digits (s1 ++ s2) ↔ all_digits s1 ∧ all_digits s2.
Proof. unfold all_digits. by rewrite Forall_app. Qed.

Lemma all_digits_take n s : all_digits s → all_digits (take n s).
Proof. unfold all_digits. apply Forall_take. Qed.

Lemma all_digits_drop n s : all_digits s → all_digits (drop n s).
Proof. unfold all_digits. apply Forall_drop. Qed.

Lemma decimal_value_bound s :
  all_digits s → 0 ≤ decimal_value s < 10 ^ Z.of_nat (length s).
Proof.
  induction s as [|c s IH] using rev_ind; intros H.
  - simpl. unfold decimal_value. simpl. lia.
  - apply all_digits_app in H as [Hs Hc]. apply all_digits_cons in Hc as [Hc _].
    apply digit_value_range in Hc. specialize (IH Hs).
    rewrite decimal_value_app, length_app. simpl length.
    change (decimal_value [c]) with (0 * 10 + digit_value c).
    replace (Z.of_nat (length s + 1)) with (Z.succ (Z.of_nat (length s))) by lia.
    rewrite Z.pow_succ_r by lia. change (10 ^ Z.of_nat 1) with 10. lia.
Qed.

Lemma lsf_value_app s1 s2 :
  lsf_value (s1 ++ s2) = lsf_value s1 + 10 ^ Z.of_nat (length s1) * lsf_value s2.
Proof.
  induction s1 as [|c s1 IH]; simpl app; simpl lsf_value; simpl length.
  - simpl. lia.
  - rewrite IH, Nat2Z.inj_succ, Z.pow_succ_r by lia. ring.
Qed.

Lemma lsf_value_rev s : decimal_value (rev s) = lsf_value s.
Proof.
  induction s as [|c s IH]; [done|].
  simpl rev. rewrite decimal_value_app, IH. simpl lsf_value.
  change (decimal_value [c]) with (0 * 10 + digit_value c).
  change (10 ^ Z.of_nat (length [c])) with 10. lia.
Qed.

Lemma lsf_value_zeros n : lsf_value (replicate n "0"%char) = 0.
Proof. induction n; simpl; [done|]. rewrite IHn. reflexivity. Qed.

Lemma all_digits_dec s : {all_digits s} + {¬ all_digits s}.
Proof. unfold all_digits. apply Forall_dec. intros c. apply bool_dec. Qed.

(** * [std::from_chars] *)

Lemma from_chars_loop_all s : ∀ acc,
  all_digits s →
  from_chars_loop s acc = (length s, fold_left (λ acc c, acc * 10 + digit_value c) s acc).
Proof.
  induction s as [|c s IH]; intros acc H; [done|].
  apply all_digits_cons in H as [Hc Hs]. simpl. rewrite Hc, (IH _ Hs). done.
Qed.

Lemma from_chars_loop_stops s : ∀ acc,
  ¬ all_digits s → (fst (from_chars_loop s acc) < length s)%nat.
Proof.
  induction s as [|c s IH]; intros acc H.
  - destruct H. constructor.
  - simpl. destruct (is_decimal_digit c) eqn:Hc; [|simpl; lia].
    specialize (IH (acc * 10 + digit_value c)).
    destruct (from_chars_loop s (acc * 10 + digit_value c)) as [n v]. simpl in *.
    assert (n < length s)%nat; [|lia]. apply IH. intros Hs. apply H. by apply all_digits_cons.
Qed.

(** A chunk of one to nine digits is read whole, with its value. *)
Lemma from_chars_chunk s :
  all_digits s → s ≠ [] → (length s ≤ 9)%nat →
  from_chars s = (length s, decimal_value s).
Proof.
  intros Hs Hne Hlen. unfold from_chars. rewrite (from_chars_loop_all s 0 Hs).
  fold (decimal_value s).
  destruct (Nat.eqb_spec (length s) 0) as [E|_].
  { by destruct s. }
  pose proof (decimal_value_bound s Hs) as [_ Hb].
  assert (10 ^ Z.of_nat (length s) ≤ 10 ^ 9) by (apply Z.pow_le_mono_r; lia).
  destruct (Z.leb_spec (decimal_value s) DIGIT_MAX_VALUE) as [_|Hgt]; [done|].
  unfold DIGIT_MAX_VALUE in Hgt. lia.
Qed.

Lemma from_chars_stops s :
  ¬ all_digits s → (fst (from_chars s) < length s)%nat.
Proof.
  intros H. unfold from_chars. pose proof (from_chars_loop_stops s 0 H) as Hlt.
  by destruct (from_chars_loop s 0).
Qed.

(** * The string constructor *)

Lemma pow10_digit n : (n ≤ 9)%nat → to_digit (10 ^ Z.of_nat n) = 10 ^ Z.of_nat n.
Proof.
  intros H. apply to_digit_small.
  assert (0 < 10 ^ Z.of_nat n) by (apply Z.pow_pos_nonneg; lia).
  assert (10 ^ Z.of_nat n ≤ 10 ^ 9) by (apply Z.pow_le_mono_r; lia).
  unfold DIGIT_BASE, DIGIT_MAX_VALUE. lia.
Qed.

Lemma parse_chunks_ok fuel : ∀ rest this,
  all_digits rest → (length rest ≤ fuel)%nat → limbs_ok (_data this) →
  ∃ r, parse_chunks fuel rest this = Ok r ∧
    limbs_ok (_data r) ∧ _negative r = _negative this ∧
    abs_value (_data r)
      = abs_value (_data this) * 10 ^ Z.of_nat (length rest) + decimal_value rest.
Proof.
  induction fuel as [|fuel IH]; intros rest this Hd Hf Hl.
  - destruct rest; [|simpl in Hf; lia]. exists this. simpl. repeat split; try done.
    rewrite decimal_value_nil. lia.
  - destruct rest as [|c rest'] eqn:E.
    { exists this. simpl. repeat split; try done. rewrite decimal_value_nil. lia. }
    rewrite <- E in *. assert (rest ≠ []) as Hne by (by rewrite E).
    assert (parse_chunks (S fuel) rest this =
      let chunk := take DIGITS_10 rest in
      let '(consumed, digit) := from_chars chunk in
      if negb (consumed =? length chunk)%nat then Throw parse_error_digit this
      else parse_chunks fuel (drop DIGITS_10 rest)
             (abs_add_int digit (abs_mul_int (to_digit (10 ^ Z.of_nat (length chunk))) this)))
      as -> by (by rewrite E).
    cbv zeta. set (chunk := take DIGITS_10 rest).
    assert (all_digits chunk) as Hcd by (by apply all_digits_take).
    assert (chunk ≠ []) as Hcn by (subst chunk; rewrite E; done).
    assert (length chunk ≤ 9)%nat as Hcl by (subst chunk; rewrite length_take; unfold DIGITS_10; lia).
    rewrite (from_chars_chunk chunk Hcd Hcn Hcl), Nat.eqb_refl. cbn [negb].
    rewrite (pow10_digit _ Hcl).
    pose proof (decimal_value_bound chunk Hcd) as Hcv.
    assert (0 < 10 ^ Z.of_nat (length chunk)) by (apply Z.pow_pos_nonneg; lia).
    assert (10 ^ Z.of_nat (length chunk) ≤ 10 ^ 9) by (apply Z.pow_le_mono_r; lia).
    assert (0 ≤ 10 ^ Z.of_nat (length chunk) < DIGIT_BASE) as Hp
      by (unfold DIGIT_BASE, DIGIT_MAX_VALUE; lia).
    assert (0 ≤ decimal_value chunk < DIGIT_BASE) as Hv
      by (unfold DIGIT_BASE, DIGIT_MAX_VALUE; lia).
    set (this1 := abs_mul_int (10 ^ Z.of_nat (length chunk)) this).
    assert (wf this1) as [Hl1 _] by (by apply abs_mul_int_wf).
    set (this2 := abs_add_int (decimal_value chunk) this1).
    assert (limbs_ok (_data this2)) as Hl2 by (by apply abs_add_int_limbs).
    destruct (IH (drop DIGITS_10 rest) this2) as (r & Hr & Hlr & Hnr & Hvr).
    { by apply all_digits_drop. }
    { rewrite length_drop. destruct rest; [done|]. simpl in Hf |- *. unfold DIGITS_10. lia. }
    { done. }
    exists r. split; [done|]. split; [done|]. split.
    { rewrite Hnr. subst this2 this1. by rewrite abs_add_int_negative, abs_mul_int_negative. }
    rewrite Hvr. subst this2. rewrite abs_add_int_value by done.
    subst this1. rewrite abs_mul_int_value by done.
    rewrite <- (take_drop DIGITS_10 rest) at 3 4. fold chunk.
    rewrite decimal_value_app, length_app, Nat2Z.inj_add, Z.pow_add_r by lia.
    ring.
Qed.

Lemma parse_chunks_throws fuel : ∀ rest this,
  ¬ all_digits rest → (length rest ≤ fuel)%nat →
  ∃ t, parse_chunks fuel rest this = Throw parse_error_digit t.
Proof.
  induction fuel as [|fuel IH]; intros rest this Hd Hf.
  - destruct rest; [|simpl in Hf; lia]. destruct Hd. constructor.
  - destruct rest as [|c rest'] eqn:E.
    { destruct Hd. constructor. }
    rewrite <- E in *.
    assert (parse_chunks (S fuel) rest this =
      let chunk := take DIGITS_10 rest in
      let '(consumed, digit) := from_chars chunk in
      if negb (consumed =? length chunk)%nat then Throw parse_error_digit this
      else parse_chunks fuel (drop DIGITS_10 rest)
             (abs_add_int digit (abs_mul_int (to_digit (10 ^ Z.of_nat (length chunk))) this)))
      as -> by (by rewrite E).
    cbv zeta. set (chunk := take DIGITS_10 rest).
    destruct (all_digits_dec chunk) as [Hcd|Hcd].
    + destruct (from_chars chunk) as [consumed digit].
      destruct (negb (consumed =? length chunk)%nat); [by eexists|].
      apply IH.
      * intros Hrest. apply Hd. rewrite <- (take_drop DIGITS_10 rest).
        by apply all_digits_app.
      * rewrite length_drop. destruct rest; [done|]. simpl in Hf |- *. unfold DIGITS_10. lia.
    + pose proof (from_chars_stops chunk Hcd) as Hlt.
      destruct (from_chars chunk) as [consumed digit]. simpl in Hlt.
      destruct (Nat.eqb_spec consumed (length chunk)) as [->|_]; [lia|].
      by eexists.
Qed.

(** The constructor on a well-formed numeral, and on anything else. *)
Lemma big_integer_of_string_ok s :
  digit_region s ≠ [] → all_digits (digit_region s) →
  ∃ r, big_integer_of_string s = Ok r ∧ wf r ∧
    _negative r = has_minus s ∧
    abs_value (_data r) = decimal_value (digit_region s).
Proof.
  intros Hne Hd. unfold big_integer_of_string.
  set (p := match s with
            | "-"%char :: rest => (negate big_integer_default, rest)
            | _ => (big_integer_default, s)
            end).
  assert (p = (mk_big_integer [] (has_minus s), digit_region s)) as ->.
  { subst p. destruct s as [|c s]; [done|].
    unfold has_minus, digit_region.
    destruct c as [[] [] [] [] [] [] [] []]; reflexivity. }
  destruct (digit_region s) as [|c rest] eqn:E; [done|]. rewrite <- E in *.
  destruct (parse_chunks_ok (length (digit_region s)) (digit_region s)
              (mk_big_integer [] (has_minus s)) Hd ltac:(lia) ltac:(constructor))
    as (r & Hr & Hl & Hn & Hv).
  rewrite Hr. cbn [mbind outcome_bind]. eexists. split; [reflexivity|].
  split; [by apply trim_wf|]. split; [done|].
  simpl. rewrite abs_value_trim, Hv. simpl. lia.
Qed.

Lemma big_integer_of_string_throws s :
  digit_region s = [] ∨ ¬ all_digits (digit_region s) →
  ∃ e t, big_integer_of_string s = Throw e t ∧ ParseError e.
Proof.
  intros H. unfold big_integer_of_string.
  set (p := match s with
            | "-"%char :: rest => (negate big_integer_default, rest)
            | _ => (big_integer_default, s)
            end).
  assert (p = (mk_big_integer [] (has_minus s), digit_region s)) as ->.
  { subst p. destruct s as [|c s]; [done|].
    unfold has_minus, digit_region.
    destruct c as [[] [] [] [] [] [] [] []]; reflexivity. }
  destruct (digit_region s) as [|c rest] eqn:E.
  { eexists _, _. split; [reflexivity|]. by left. }
  rewrite <- E in *. destruct H as [H|H]; [by rewrite E in H|].
  destruct (parse_chunks_throws (length (digit_region s)) (digit_region s)
              (mk_big_integer [] (has_minus s)) H ltac:(lia)) as [t Ht].
  rewrite Ht. eexists _, _. split; [reflexivity|]. by right.
Qed.

Lemma digit_region_nil s : digit_region s = [] ↔ s = [] ∨ s = ["-"%char].
Proof.
  split.
  - destruct s as [|c s]; [by left|]. unfold digit_region.
    destruct c as [[] [] [] [] [] [] [] []]; try done. intros ->. by right.
  - by intros [-> | ->].
Qed.

(** * [to_string] *)

Lemma char_of_digit_spec d :
  0 ≤ d ≤ 9 →
  is_decimal_digit (char_of_digit d) = true ∧
  digit_value (char_of_digit d) = d ∧
  (char_of_digit d = "0"%char → d = 0).
Proof.
  intros H.
  assert (d = 0 ∨ d = 1 ∨ d = 2 ∨ d = 3 ∨ d = 4 ∨ d = 5 ∨ d = 6 ∨ d = 7 ∨ d = 8 ∨ d = 9)
    as Hd by lia.
  repeat (destruct Hd as [->|Hd]); try subst d; by vm_compute.
Qed.

Lemma lsf_value_nonneg ds : all_digits ds → 0 ≤ lsf_value ds.
Proof.
  induction ds as [|c ds IH]; [done|].
  intros [Hc Hd]%all_digits_cons. apply digit_value_range in Hc.
  specialize (IH Hd). simpl. lia.
Qed.

(** The digits of one remainder, least significant first, with no zero on
    top. *)
Lemma push_digits_spec fuel : ∀ rem len res,
  0 ≤ rem < 10 ^ Z.of_nat fuel →
  ∃ ds, push_digits fuel rem len res = (res ++ ds, (len - length ds)%nat) ∧
    all_digits ds ∧ lsf_value ds = rem ∧ last ds ≠ Some "0"%char ∧
    (ds ≠ [] → 10 ^ (Z.of_nat (length ds) - 1) ≤ rem).
Proof.
  induction fuel as [|fuel IH]; intros rem len res Hr.
  - exists []. simpl in *. rewrite app_nil_r, Nat.sub_0_r.
    repeat split; try done; [constructor|lia].
  - simpl push_digits. destruct (Z.eqb_spec rem 0) as [->|Hne].
    { exists []. rewrite app_nil_r, Nat.sub_0_r. repeat split; try done. constructor. }
    rewrite Nat2Z.inj_succ, Z.pow_succ_r in Hr by lia.
    assert (0 ≤ rem `div` 10 < 10 ^ Z.of_nat fuel) as Hq.
    { split; [apply Z.div_pos; lia|]. apply Z.div_lt_upper_bound; lia. }
    pose proof (Z.mod_pos_bound rem 10 ltac:(lia)) as Hm.
    pose proof (Z.div_mod rem 10 ltac:(lia)) as Hdm.
    destruct (char_of_digit_spec (rem `mod` 10) ltac:(lia)) as (Hc1 & Hc2 & Hc3).
    destruct (IH (rem `div` 10) (len - 1)%nat (res ++ [char_of_digit (rem `mod` 10)]) Hq)
      as (ds & Hp & Hd & Hv & Hlast & Hlow).
    exists (char_of_digit (rem `mod` 10) :: ds).
    rewrite Hp, <- app_assoc. simpl app. simpl length.
    split; [f_equal; lia|].
    split; [by apply all_digits_cons|].
    split; [simpl; lia|].
    split.
    + destruct ds as [|c ds]; [|by rewrite last_cons_cons].
      simpl. intros [= E]. apply Hc3 in E. simpl in Hv. lia.
    + intros _. destruct (decide (ds = [])) as [->|Hn].
      * simpl. lia.
      * specialize (Hlow Hn).
        replace (Z.of_nat (S (length ds)) - 1) with (Z.succ (Z.of_nat (length ds) - 1)) by lia.
        rewrite Z.pow_succ_r; [lia|]. destruct ds; [done|]. simpl length. lia.
Qed.

Lemma to_string_loop_S fuel copy res :
  to_string_loop (S fuel) copy res =
  if is_zero copy then Ok res
  else
    let '(copy', rem) := abs_divide_int DIGIT_MOD10 copy in
    let '(res1, len) := push_digits 10 rem 9 res in
    let res2 := if negb (is_zero copy') then res1 ++ replicate len "0"%char else res1 in
    to_string_loop fuel copy' res2.
Proof. reflexivity. Qed.

(** The loop of [to_string] appends the digits of the magnitude, least
    significant first and with no zero on top; [fuel] passes are enough for a
    magnitude below [10^(9*fuel)]. *)
Lemma to_string_loop_spec fuel : ∀ copy res,
  wf copy → abs_value (_data copy) < (10 ^ 9) ^ Z.of_nat fuel →
  ∃ ds, to_string_loop fuel copy res = Ok (res ++ ds) ∧
    all_digits ds ∧ lsf_value ds = abs_value (_data copy) ∧
    last ds ≠ Some "0"%char.
Proof.
  induction fuel as [|fuel IH]; intros copy res Hwf Hb.
  - assert (abs_value (_data copy) = 0) as H0.
    { pose proof (abs_value_bound _ (proj1 Hwf)). simpl in Hb. lia. }
    pose proof (canonical_zero _ (proj1 Hwf) (proj2 Hwf) H0) as E.
    exists []. simpl. unfold is_zero. rewrite E, app_nil_r.
    repeat split; try done. constructor.
  - rewrite to_string_loop_S. destruct (is_zero copy) eqn:Hz.
    { exists []. rewrite app_nil_r. unfold is_zero in Hz.
      destruct (_data copy); [|done]. repeat split; try done. constructor. }
    pose proof (abs_divide_int_spec DIGIT_MOD10 copy (proj1 Hwf) ltac:(by vm_compute)) as Hdiv.
    destruct (abs_divide_int DIGIT_MOD10 copy) as [copy' rem].
    destruct Hdiv as (Hwf' & _ & Hv' & Hrem).
    pose proof (abs_value_bound _ (proj1 Hwf)) as [Hv0 _].
    change DIGIT_MOD10 with (10 ^ 9) in *.
    pose proof (Z.mod_pos_bound (abs_value (_data copy)) (10 ^ 9) ltac:(lia)) as Hm.
    pose proof (Z.div_mod (abs_value (_data copy)) (10 ^ 9) ltac:(lia)) as Hdm.
    rewrite <- Hrem, <- Hv' in Hdm.
    destruct (push_digits_spec 10 rem 9 res) as (ds1 & Hp & Hd1 & Hv1 & Hlast1 & Hlow1).
    { rewrite Hrem. change (10 ^ Z.of_nat 10) with (10 * 10 ^ 9). lia. }
    rewrite Hp. cbv zeta.
    assert (length ds1 ≤ 9)%nat as Hlen1.
    { destruct (decide (ds1 = [])) as [->|Hn]; [simpl; lia|].
      specialize (Hlow1 Hn).
      destruct (decide (length ds1 ≤ 9)%nat) as [|Hgt]; [done|].
      assert (10 ^ 9 ≤ 10 ^ (Z.of_nat (length ds1) - 1)) by (apply Z.pow_le_mono_r; lia).
      lia. }
    set (res2 := if negb (is_zero copy') then _ else _).
    destruct (IH copy' res2 Hwf') as (ds2 & Hr2 & Hd2 & Hv2 & Hlast2).
    { rewrite Hv'. apply Z.div_lt_upper_bound; [lia|].
      rewrite Nat2Z.inj_succ, Z.pow_succ_r in Hb by lia. lia. }
    rewrite Hr2. subst res2.
    destruct (is_zero copy') eqn:Hz'; cbn [negb].
    + assert (abs_value (_data copy') = 0) as H0.
      { unfold is_zero in Hz'. by destruct (_data copy'). }
      assert (ds2 = []) as ->.
      { destruct ds2 as [|c ds2] using rev_ind; [done|].
        exfalso. rewrite last_snoc in Hlast2.
        apply all_digits_app in Hd2 as [Hd2 [Hc _]%all_digits_cons].
        rewrite lsf_value_app in Hv2. simpl in Hv2.
        pose proof (lsf_value_nonneg _ Hd2). pose proof (digit_value_range _ Hc).
        assert (0 < 10 ^ Z.of_nat (length ds2)) by (apply Z.pow_pos_nonneg; lia).
        assert (digit_value c = 0) as Hc0 by nia.
        apply Hlast2. f_equal.
        unfold digit_value in Hc0. unfold is_decimal_digit in Hc.
        rewrite <- (ascii_nat_embedding c).
        replace (nat_of_ascii c) with 48%nat by lia. reflexivity. }
      exists ds1. rewrite app_nil_r. repeat split; try done. lia.
    + exists (ds1 ++ replicate (9 - length ds1) "0"%char ++ ds2).
      rewrite <- !app_assoc. split; [done|].
      split.
      { apply all_digits_app. split; [done|]. apply all_digits_app. split; [|done].
        apply Forall_replicate. reflexivity. }
      split.
      { rewrite !lsf_value_app, lsf_value_zeros, length_replicate.
        rewrite Hv1, Hv2.
        replace (10 ^ Z.of_nat (length ds1) * (0 + 10 ^ Z.of_nat (9 - length ds1) * abs_value (_data copy')))
          with (10 ^ Z.of_nat (length ds1) * 10 ^ Z.of_nat (9 - length ds1) * abs_value (_data copy')) by ring.
        rewrite <- Z.pow_add_r by lia.
        replace (Z.of_nat (length ds1) + Z.of_nat (9 - length ds1)) with 9 by lia.
        lia. }
      rewrite !last_app.
      destruct (last ds2) eqn:E; [done|].
      apply last_None in E. subst ds2. simpl in Hv2.
      unfold is_zero in Hz'. destruct Hwf' as [Hl' Hc'].
      rewrite (canonical_zero _ Hl' Hc' (eq_sym Hv2)) in Hz'. done.
Qed.

Lemma pow_base_le n : DIGIT_BASE ^ Z.of_nat n ≤ (10 ^ 9) ^ Z.of_nat (2 * n).
Proof.
  rewrite Nat2Z.inj_mul, Z.pow_mul_r by lia.
  apply Z.pow_le_mono_l. by vm_compute.
Qed.

(** [to_string] returns the canonical numeral of a well-formed integer. *)
Lemma to_string_spec a :
  wf a → is_zero a = false →
  ∃ ds, to_string a = Ok (if is_negative a then "-"%char :: ds else ds) ∧
    all_digits ds ∧ decimal_value ds = abs_value (_data a) ∧
    head ds ≠ Some "0"%char ∧ ds ≠ [].
Proof.
  intros Hwf Hz. unfold to_string. rewrite Hz.
  destruct (to_string_loop_spec (2 * length (_data a)) a [] Hwf) as (ds & Hr & Hd & Hv & Hlast).
  { pose proof (abs_value_bound _ (proj1 Hwf)). pose proof (pow_base_le (length (_data a))). lia. }
  rewrite Hr. cbn [mbind outcome_bind]. simpl app.
  exists (rev ds). split.
  { f_equal. destruct (is_negative a); [|done]. by rewrite rev_app_distr. }
  split.
  { unfold all_digits in *. by apply List.Forall_rev. }
  split; [by rewrite lsf_value_rev|].
  assert (ds ≠ []) as Hne.
  { intros ->. simpl in Hv. destruct Hwf as [Hl Hc].
    unfold is_zero in Hz. by rewrite (canonical_zero _ Hl Hc (eq_sym Hv)) in Hz. }
  split.
  - destruct ds as [|c ds _] using rev_ind; [done|].
    rewrite rev_app_distr. simpl. by rewrite last_snoc in Hlast.
  - intros E. apply Hne. by rewrite <- (rev_involutive ds), E.
Qed.

Lemma digit_region_digit c rest :
  is_decimal_digit c = true →
  digit_region (c :: rest) = c :: rest ∧ has_minus (c :: rest) = false.
Proof.
  unfold digit_region, has_minus.
  destruct c as [[] [] [] [] [] [] [] []]; try done.
Qed.

Lemma is_negative_nonzero a : is_zero a = false → is_negative a = _negative a.
Proof. unfold is_negative. intros ->. apply andb_true_r. Qed.

(** * The operations keep limbs in range and results canonical *)

(** Inverting a successful sequence. *)
Lemma bind_ok {A B} (m : outcome A) (f : A → outcome B) b :
  m ≫= f = Ok b → ∃ a, m = Ok a ∧ f a = Ok b.
Proof. destruct m; simpl; try done. eauto. Qed.

Lemma vec_set_ok v i x v' : vec_set v i x = Ok v' → v' = <[i:=x]> v.
Proof. unfold vec_set. case_decide; congruence. Qed.

Lemma vec_at_ok v i x : vec_at v i = Ok x → v !! i = Some x.
Proof. unfold vec_at. destruct (v !! i); congruence. Qed.

Ltac invert_bind H :=
  let a := fresh "a" in
  let Ha := fresh "Ha" in
  apply bind_ok in H as (a & Ha & H).

Lemma negate_limbs a : limbs_ok (_data (negate a)) ↔ limbs_ok (_data a).
Proof. done. Qed.

Lemma negate_wf a : wf (negate a) ↔ wf a.
Proof. done. Qed.

Lemma limbs_ok_removelast d : limbs_ok d → limbs_ok (removelast d).
Proof.
  intros H. rewrite removelast_firstn_len. by apply limbs_ok_take.
Qed.

Lemma data_of_limbs this rhs :
  limbs_ok this → (∀ b, rhs = Other b → limbs_ok (_data b)) → limbs_ok (data_of this rhs).
Proof. intros H Hr. destruct rhs as [|b]; simpl; [done|]. by apply Hr. Qed.

Lemma abs_subtract_low_limbs n : ∀ i recv rhs out borrow out' borrow',
  limbs_ok out → abs_subtract_low n i recv rhs out borrow = Ok (out', borrow') →
  limbs_ok out'.
Proof.
  induction n as [|n IH]; intros i recv rhs out borrow out' borrow' Hl H; simpl in H.
  - by injection H as <- <-.
  - invert_bind H. invert_bind H. invert_bind H.
    apply vec_set_ok in Ha1 as ->.
    eapply IH; [|exact H]. apply limbs_ok_insert; [done|apply to_digit_range].
Qed.

Lemma abs_subtract_high_limbs n : ∀ i recv out borrow out',
  limbs_ok out → abs_subtract_high n i recv out borrow = Ok out' → limbs_ok out'.
Proof.
  induction n as [|n IH]; intros i recv out borrow out' Hl H; simpl in H.
  - by injection H as <-.
  - destruct (borrow =? 0); [by injection H as <-|].
    invert_bind H. invert_bind H.
    apply vec_set_ok in Ha0 as ->.
    eapply IH; [|exact H]. apply limbs_ok_insert; [done|apply to_digit_range].
Qed.

Lemma abs_subtract_wf recv rhs max_size this r :
  limbs_ok (_data this) → abs_subtract recv rhs max_size this = Ok r → wf r.
Proof.
  intros Hl H. unfold abs_subtract in H.
  invert_bind H. destruct a as [out borrow]. invert_bind H. injection H as <-.
  apply trim_wf. simpl.
  eapply abs_subtract_high_limbs; [|exact Ha0].
  eapply abs_subtract_low_limbs; [|exact Ha]. done.
Qed.

Lemma strip_equal_high_limbs n : ∀ rhs d d',
  limbs_ok d → strip_equal_high n rhs d = Ok d' → limbs_ok d'.
Proof.
  induction n as [|n IH]; intros rhs d d' Hl H; simpl in H.
  - by injection H as <-.
  - destruct (last d); [|by injection H as <-].
    invert_bind H. destruct (_ =? _); [|by injection H as <-].
    eapply IH; [|exact H]. by apply limbs_ok_removelast.
Qed.

(** [operator+=] returns a well-formed object on well-formed operands. *)
Lemma operator_plus_assign_wf rhs this r :
  wf this → wf_operand rhs → operator_plus_assign rhs this = Ok r → wf r.
Proof.
  intros [Hl Hc] Hrhs H. unfold operator_plus_assign in H.
  destruct (Bool.eqb _ _).
  { assert (limbs_ok (data_of (_data this) rhs) ∧ canonical (data_of (_data this) rhs))
      as [Hlr Hcr] by (destruct rhs; [done|apply Hrhs]).
    destruct (abs_add_spec rhs this Hl Hlr) as (r' & Hr' & _ & Hl' & _ & Hc').
    rewrite Hr' in H. injection H as <-. split; [done|]. by apply Hc'. }
  destruct (_ =? _)%nat.
  { invert_bind H. apply strip_equal_high_limbs in Ha; [|done].
    destruct (last a) eqn:E.
    - invert_bind H. destruct (_ >? _); by eapply abs_subtract_wf in H.
    - injection H as <-. split; [done|]. unfold canonical. simpl. by rewrite E. }
  destruct (_ <? _)%nat; by eapply abs_subtract_wf in H.
Qed.

Lemma operator_plus_assign_limbs rhs this r :
  limbs_ok (_data this) → limbs_ok (data_of (_data this) rhs) →
  operator_plus_assign rhs this = Ok r → limbs_ok (_data r).
Proof.
  intros Hl Hlr H. unfold operator_plus_assign in H.
  destruct (Bool.eqb _ _).
  { destruct (abs_add_spec rhs this Hl Hlr) as (r' & Hr' & _ & Hl' & _).
    rewrite Hr' in H. by injection H as <-. }
  destruct (_ =? _)%nat.
  { invert_bind H. apply strip_equal_high_limbs in Ha; [|done].
    destruct (last a) eqn:E.
    - invert_bind H. destruct (_ >? _); by eapply abs_subtract_wf in H as [? _].
    - by injection H as <-. }
  destruct (_ <? _)%nat; by eapply abs_subtract_wf in H as [? _].
Qed.

Lemma operator_minus_assign_limbs rhs this r :
  limbs_ok (_data this) → limbs_ok (data_of (_data this) rhs) →
  operator_minus_assign rhs this = Ok r → limbs_ok (_data r).
Proof.
  intros Hl Hlr H. unfold operator_minus_assign in H. invert_bind H. injection H as <-.
  apply negate_limbs. by eapply operator_plus_assign_limbs in Ha.
Qed.

Lemma operator_minus_assign_wf rhs this r :
  wf this → wf_operand rhs → operator_minus_assign rhs this = Ok r → wf r.
Proof.
  intros Hwf Hr H. unfold operator_minus_assign in H. invert_bind H. injection H as <-.
  apply negate_wf. by eapply operator_plus_assign_wf in Ha.
Qed.

(** Multiplication. *)
Lemma abs_mul_inner_limbs n : ∀ j i rhs data_i d carry d' carry',
  limbs_ok d → 0 ≤ carry < DIGIT_BASE →
  abs_mul_inner n j i rhs data_i d carry = Ok (d', carry') →
  limbs_ok d' ∧ 0 ≤ carry' < DIGIT_BASE.
Proof.
  induction n as [|n IH]; intros j i rhs data_i d carry d' carry' Hl Hc H; simpl in H.
  - by injection H as <- <-.
  - invert_bind H. invert_bind H. invert_bind H.
    apply vec_set_ok in Ha1 as ->.
    eapply IH; [| |exact H].
    + apply limbs_ok_insert; [done|apply to_digit_range].
    + apply to_digit_range.
Qed.

Lemma abs_mul_outer_limbs n : ∀ i rhs_size rhs d d',
  limbs_ok d → abs_mul_outer n i rhs_size rhs d = Ok d' → limbs_ok d'.
Proof.
  induction n as [|n IH]; intros i rhs_size rhs d d' Hl H; simpl in H.
  - by injection H as <-.
  - invert_bind H. invert_bind H. destruct a0 as [d1 carry]. invert_bind H.
    apply abs_mul_inner_limbs in Ha0 as [Hl1 Hc]; [|done|by vm_compute].
    apply vec_set_ok in Ha1 as ->.
    eapply IH; [|exact H]. by apply limbs_ok_insert.
Qed.

Lemma abs_mul_wf rhs this r :
  limbs_ok (_data this) → abs_mul rhs this = Ok r → wf r.
Proof.
  intros Hl H. unfold abs_mul in H. invert_bind H. injection H as <-.
  apply trim_wf. simpl. eapply abs_mul_outer_limbs; [|exact Ha].
  apply limbs_ok_app. split; [apply limbs_ok_replicate|done].
Qed.

Lemma operator_mul_assign_wf rhs this r :
  limbs_ok (_data this) → operator_mul_assign rhs this = Ok r → wf r.
Proof. intros Hl H. unfold operator_mul_assign in H. by eapply abs_mul_wf in H. Qed.

(** Bitwise operations. *)
Lemma below_base_log2 z : 0 ≤ z → (z < DIGIT_BASE ↔ z = 0 ∨ Z.log2 z < 32).
Proof.
  intros Hz. change DIGIT_BASE with (2 ^ 32). split.
  - intros H. destruct (decide (z = 0)) as [|Hne]; [by left|right].
    apply Z.log2_lt_pow2; lia.
  - intros [->|H]; [done|]. destruct (decide (z = 0)) as [->|Hne]; [done|].
    apply Z.log2_lt_pow2; lia.
Qed.

Lemma op_digit_range op x y :
  0 ≤ x < DIGIT_BASE → 0 ≤ y < DIGIT_BASE → 0 ≤ op_digit op x y < DIGIT_BASE.
Proof.
  intros [Hx0 Hx] [Hy0 Hy].
  apply below_base_log2 in Hx; [|done]. apply below_base_log2 in Hy; [|done].
  assert (Z.log2 x < 32) as Lx by (destruct Hx as [->|]; [by vm_compute|done]).
  assert (Z.log2 y < 32) as Ly by (destruct Hy as [->|]; [by vm_compute|done]).
  destruct op; simpl.
  - assert (0 ≤ Z.land x y) by (by apply Z.land_nonneg; left).
    split; [done|]. apply below_base_log2; [done|]. right.
    pose proof (Z.log2_land x y Hx0 Hy0). lia.
  - assert (0 ≤ Z.lor x y) by (by apply Z.lor_nonneg).
    split; [done|]. apply below_base_log2; [done|]. right.
    rewrite Z.log2_lor by done. lia.
  - assert (0 ≤ Z.lxor x y) by (by apply Z.lxor_nonneg).
    split; [done|]. apply below_base_log2; [done|]. right.
    pose proof (Z.log2_lxor x y Hx0 Hy0). lia.
Qed.

Lemma twos_complement_range neg digit carry :
  0 ≤ digit < DIGIT_BASE → 0 ≤ (twos_complement neg digit carry).1 < DIGIT_BASE.
Proof.
  intros H. unfold twos_complement. destruct neg; simpl; [apply to_digit_range|done].
Qed.

Lemma bitwise_loop_limbs n : ∀ i op result_negative flag rhs d a_carry b_carry res_carry d',
  limbs_ok d → (∀ b, rhs = Other b → limbs_ok (_data b)) →
  bitwise_loop n i op result_negative flag rhs d a_carry b_carry res_carry = Ok d' →
  limbs_ok d'.
Proof.
  induction n as [|n IH];
    intros i op result_negative flag rhs d a_carry b_carry res_carry d' Hl Hr H; simpl in H.
  - by injection H as <-.
  - invert_bind H. apply vec_at_ok in Ha.
    pose proof (limbs_ok_lookup _ _ _ Hl Ha) as Hx.
    pose proof (twos_complement_range (is_negative (mk_big_integer d flag)) a a_carry Hx) as Hta.
    destruct (twos_complement (is_negative (mk_big_integer d flag)) a a_carry) as [a_digit a_carry'].
    invert_bind H.
    assert (0 ≤ a0 < DIGIT_BASE) as Hy.
    { destruct (_ <? _)%nat.
      - apply vec_at_ok in Ha0. eapply limbs_ok_lookup; [|exact Ha0]. by apply data_of_limbs.
      - injection Ha0 as <-. by vm_compute. }
    pose proof (twos_complement_range
                  (is_negative (deref (mk_big_integer d flag) rhs)) a0 b_carry Hy) as Htb.
    destruct (twos_complement (is_negative (deref (mk_big_integer d flag) rhs)) a0 b_carry)
      as [b_digit b_carry'].
    simpl in Hta, Htb.
    pose proof (twos_complement_range result_negative (op_digit op a_digit b_digit) res_carry
                  (op_digit_range op _ _ Hta Htb)) as Htr.
    destruct (twos_complement result_negative (op_digit op a_digit b_digit) res_carry)
      as [r res_carry'].
    invert_bind H. apply vec_set_ok in Ha1 as ->.
    eapply IH; [| |exact H]; [|done]. by apply limbs_ok_insert.
Qed.

Lemma limbs_ok_resize n d : limbs_ok d → limbs_ok (resize n 0 d).
Proof.
  intros H. rewrite resize_spec. apply limbs_ok_app.
  split; [by apply limbs_ok_take|apply limbs_ok_replicate].
Qed.

Lemma bitwise_operation_wf op rhs this r :
  limbs_ok (_data this) → (∀ b, rhs = Other b → limbs_ok (_data b)) →
  bitwise_operation op rhs this = Ok r → wf r.
Proof.
  intros Hl Hr H. unfold bitwise_operation in H. invert_bind H. injection H as <-.
  apply trim_wf. simpl. eapply bitwise_loop_limbs; [| |exact Ha]; [|done].
  by apply limbs_ok_resize.
Qed.

(** Shifts. *)
Lemma shift_one_range r : 0 ≤ r < 32 → 0 < to_digit (Z.shiftl 1 r) < DIGIT_BASE.
Proof.
  intros Hr. rewrite Z.shiftl_mul_pow2, Z.mul_1_l by lia.
  assert (0 < 2 ^ r) by (apply Z.pow_pos_nonneg; lia).
  assert (2 ^ r ≤ 2 ^ 31) by (apply Z.pow_le_mono_r; lia).
  rewrite to_digit_small; unfold DIGIT_BASE, DIGIT_MAX_VALUE; lia.
Qed.

Lemma operator_shl_assign_wf n this : limbs_ok (_data this) → wf (operator_shl_assign n this).
Proof.
  intros Hl. unfold operator_shl_assign. apply abs_mul_int_wf; [|apply to_digit_range].
  simpl. apply limbs_ok_app. split; [apply limbs_ok_replicate|done].
Qed.

Lemma operator_shr_assign_wf n this : limbs_ok (_data this) → wf (operator_shr_assign n this).
Proof.
  intros Hl. unfold operator_shr_assign.
  destruct (_ >? _); [split; [constructor|done]|].
  set (val := to_digit (Z.shiftl 1 (to_unsigned n `mod` DIGIT_BITS))).
  assert (0 < val < DIGIT_BASE) as Hval.
  { apply shift_one_range. apply Z.mod_pos_bound. by vm_compute. }
  set (this1 := mk_big_integer _ _).
  pose proof (abs_divide_int_spec val this1 ltac:(by apply limbs_ok_drop) Hval) as Hd.
  destruct (abs_divide_int val this1) as [this2 rem]. destruct Hd as (Hwf & _).
  simpl. destruct (is_negative this2); [|done].
  apply abs_add_int_wf; [done|by vm_compute].
Qed.

(** Increment, decrement, complement. *)
Lemma operator_pre_inc_wf this : wf this → wf (operator_pre_inc this).
Proof.
  intros Hwf. unfold operator_pre_inc. destruct (negb _).
  - apply abs_add_int_wf; [done|by vm_compute].
  - apply abs_sub_int_wf; [apply Hwf|by vm_compute].
Qed.

Lemma operator_pre_dec_wf this : wf this → wf (operator_pre_dec this).
Proof.
  intros Hwf. unfold operator_pre_dec. destruct (is_zero this) eqn:Hz.
  - unfold is_zero in Hz. destruct (_data this); [|done].
    split; [repeat constructor; by vm_compute|done].
  - apply negate_wf, operator_pre_inc_wf. by apply negate_wf.
Qed.

Lemma operator_compl_wf a : wf a → wf (operator_compl a).
Proof. intros. by apply operator_pre_dec_wf, negate_wf. Qed.

(** Constructors. *)
Lemma big_integer_ull_wf val negative :
  0 ≤ val < 2 ^ 64 → wf (big_integer_ull val negative).
Proof.
  intros Hv. unfold big_integer_ull.
  destruct (Z.eqb_spec val 0) as [|Hne]; [split; [constructor|done]|].
  rewrite shiftr_32.
  assert (0 ≤ val `div` DIGIT_BASE < DIGIT_BASE) as Hhi.
  { limb_consts. split; [apply Z.div_pos; lia|]. apply Z.div_lt_upper_bound; lia. }
  destruct (Z.eqb_spec (val `div` DIGIT_BASE) 0) as [E|Hhne].
  - split; simpl.
    + apply limbs_ok_cons. split; [apply to_digit_range|constructor].
    + apply (canonical_snoc []). pose proof (digit_split val). lia.
  - split; simpl.
    + apply limbs_ok_cons. split; [apply to_digit_range|].
      apply limbs_ok_cons. split; [apply to_digit_range|constructor].
    + apply (canonical_snoc [_]). by rewrite to_digit_small.
Qed.

Lemma big_integer_ll_wf val : wf (big_integer_ll val).
Proof.
  unfold big_integer_ll. apply big_integer_ull_wf.
  destruct (_ =? _); unfold to_double; apply Z.mod_pos_bound; lia.
Qed.

Lemma big_integer_of_string_wf s r : big_integer_of_string s = Ok r → wf r.
Proof.
  intros H.
  destruct (decide (digit_region s = [])) as [E|Hne].
  { destruct (big_integer_of_string_throws s (or_introl E)) as (e & t & Ht & _). congruence. }
  destruct (all_digits_dec (digit_region s)) as [Hd|Hnd].
  - destruct (big_integer_of_string_ok s Hne Hd) as (r' & Hr' & Hwf & _). congruence.
  - destruct (big_integer_of_string_throws s (or_intror Hnd)) as (e & t & Ht & _). congruence.
Qed.

(** Division. *)
Lemma normalize_spec this r k :
  limbs_ok (_data this) → normalize this = Ok (r, k) →
  limbs_ok (_data r) ∧ 0 ≤ k ≤ 31.
Proof.
  intros Hl H. unfold normalize in H. invert_bind H.
  unfold back in Ha. destruct (last (_data this)) as [b|] eqn:E; [|done].
  injection Ha as <-.
  assert (0 ≤ b < DIGIT_BASE) as Hb.
  { apply last_Some in E as [l' E]. rewrite E in Hl. apply limbs_ok_app in Hl as [_ Hl].
    by apply limbs_ok_cons in Hl as [? _]. }
  change (DIGIT_BASE `div` 2) with 2147483648 in H.
  destruct (Z.geb_spec b 2147483648) as [Hge|Hlt].
  { injection H as <- <-. split; [done|lia]. }
  destruct (Z.eqb_spec b 0) as [|Hne]; [done|].
  injection H as <- <-. split; [by apply operator_shl_assign_wf|].
  unfold log2_gap.
  pose proof (Z.log2_up_nonneg b) as Hlo.
  assert (Z.log2_up b ≤ 31) as Hhi by (apply Z.log2_up_le_pow2; lia).
  destruct (Z.ltb_spec (to_digit (Z.shiftl b (31 - Z.log2_up b))) 2147483648) as [Hsh|Hsh]; [|lia].
  split; [lia|].
  destruct (decide (Z.log2_up b = 0)) as [E0|]; [|lia].
  exfalso. apply Z.log2_up_null in E0. assert (b = 1) as -> by lia.
  by vm_compute in Hsh.
Qed.

Lemma div_rem_correct_limbs fuel : ∀ rhs q this q' this',
  limbs_ok (_data this) → limbs_ok (_data rhs) → 0 ≤ q < DIGIT_BASE →
  div_rem_correct fuel rhs q this = Ok (q', this') →
  limbs_ok (_data this') ∧ 0 ≤ q' < DIGIT_BASE.
Proof.
  induction fuel as [|fuel IH]; intros rhs q this q' this' Hl Hr Hq H; simpl in H.
  - destruct (operator_lt _ _); [done|]. by injection H as <- <-.
  - destruct (operator_lt _ _); [|by injection H as <- <-].
    invert_bind H. eapply IH; [| | |exact H].
    + by eapply operator_plus_assign_limbs in Ha.
    + done.
    + apply to_digit_range.
Qed.

Lemma limbs_ok_tail x d : limbs_ok (x :: d) → limbs_ok d.
Proof. by intros [_ ?]%limbs_ok_cons. Qed.

Lemma back_range d b : limbs_ok d → back d = Ok b → 0 ≤ b < DIGIT_BASE.
Proof.
  intros Hl H. unfold back in H. destruct (last d) as [x|] eqn:E; [|done].
  injection H as <-. apply last_Some in E as [l' ->].
  apply limbs_ok_app in Hl as [_ Hl]. by apply limbs_ok_cons in Hl as [? _].
Qed.

Lemma div_rem_loop_limbs fuel n : ∀ rhs this q this' q',
  limbs_ok (_data this) → limbs_ok (_data rhs) → limbs_ok q →
  div_rem_loop fuel n rhs this q = Ok (this', q') →
  limbs_ok (_data this') ∧ limbs_ok q'.
Proof.
  induction n as [|n IH]; intros rhs this q this' q' Hl Hr Hq H; simpl in H.
  - by injection H as <- <-.
  - destruct (_ <? _)%nat; [by injection H as <- <-|].
    destruct (_data rhs) as [|x rhs_data] eqn:E; [done|].
    apply limbs_ok_tail in Hr.
    invert_bind H. invert_bind H. invert_bind H. cbn [_data] in *.
    destruct (a1 =? 0); [done|].
    invert_bind H. invert_bind H. invert_bind H. destruct a4 as [q_digit' this2].
    unfold operator_mul in Ha2. apply operator_mul_assign_wf in Ha2 as [Hprod _]; cycle 1.
    { unfold big_integer_ull. destruct (_ =? 0); [constructor|].
      destruct (_ =? 0); simpl; repeat (apply limbs_ok_cons; split; [apply to_digit_range|]);
        constructor. }
    apply operator_minus_assign_limbs in Ha3; [|done|done].
    apply div_rem_correct_limbs in Ha4 as [Hl2 Hq']; [|done|done|apply to_digit_range].
    eapply IH; [| | |exact H]; [done|done|]. by apply limbs_ok_insert.
Qed.

(** Both results of [div_rem] are well formed. *)
Lemma div_rem_wf fuel rhs this q r :
  wf this → limbs_ok (_data rhs) →
  div_rem fuel rhs this = Ok (q, r) → wf q ∧ wf r.
Proof.
  intros Hwf Hr H. unfold div_rem in H.
  destruct (is_zero rhs); [done|].
  destruct (_ || _).
  { injection H as <- <-. split; [|done]. split; [constructor|done]. }
  invert_bind H. destruct a as [rhs1 k].
  apply normalize_spec in Ha as [Hr1 Hk]; [|done].
  set (this1 := operator_shl_assign k _) in *.
  assert (wf this1) as [Hl1 _] by (apply operator_shl_assign_wf, Hwf).
  destruct (_ <? _)%nat; [done|].
  set (m := (length (_data this1) - length (_data rhs1))%nat) in *.
  invert_bind H. destruct a as [this2 q2].
  invert_bind H. destruct a as [this3 q3]. injection H as <- <-.
  assert (limbs_ok (_data this2) ∧ limbs_ok q2) as [Hl2 Hq2].
  { destruct (operator_ge _ _).
    - invert_bind Ha. injection Ha as <- <-.
      apply abs_subtract_wf in Ha1 as [? _]; [|done]. split; [done|].
      apply limbs_ok_insert; [apply (limbs_ok_replicate (S m))|by vm_compute].
    - injection Ha as <- <-. split; [done|]. apply (limbs_ok_replicate (S m)). }
  apply div_rem_loop_limbs in Ha0 as [Hl3 Hq3]; [|done| |done]; cycle 1.
  { simpl. apply limbs_ok_app. split; [apply limbs_ok_replicate|done]. }
  split; [by apply trim_wf|].
  set (rem := trim _).
  pose proof (abs_divide_int_spec (to_digit (Z.shiftl 1 k)) rem
                ltac:(subst rem; simpl; by apply trim_data_limbs)
                ltac:(apply shift_one_range; lia)) as Hd.
  destruct (abs_divide_int _ rem) as [rem' x]. by destruct Hd as (Hwf' & _).
Qed.

(** * What [operator>>=] computes *)

Lemma abs_value_drop n d :
  limbs_ok d → abs_value (drop n d) = abs_value d `div` DIGIT_BASE ^ Z.of_nat n.
Proof.
  intros Hl. destruct (decide (n ≤ length d)%nat) as [Hle|Hgt].
  - rewrite (abs_value_take_drop n d Hle).
    pose proof (abs_value_bound (take n d) (limbs_ok_take _ _ Hl)) as Hb.
    rewrite length_take_le in Hb by done.
    apply (Z.div_unique _ _ _ (abs_value (take n d))); [lia|lia].
  - rewrite drop_ge by lia. simpl.
    pose proof (abs_value_bound d Hl) as Hb.
    assert (DIGIT_BASE ^ Z.of_nat (length d) ≤ DIGIT_BASE ^ Z.of_nat n)
      by (apply Z.pow_le_mono_r; [done|lia]).
    symmetry. apply Z.div_small. lia.
Qed.

(** On a non-negative object the shift is the floor of the quotient by
    [2^s]; on a negative one the magnitude is shifted and, unless it became
    zero, one is added to it. *)
Lemma operator_shr_value a s :
  wf a → 0 ≤ s < 2 ^ 31 →
  let m := abs_value (_data a) `div` 2 ^ s in
  value (operator_shr a s) =
    if is_negative a then (if m =? 0 then 0 else - (m + 1)) else m.
Proof.
  intros [Hl Hc] Hs m. unfold operator_shr, operator_shr_assign.
  assert (to_unsigned s = s) as -> by (unfold to_unsigned; apply Z.mod_small; lia).
  unfold DIGIT_BITS.
  pose proof (Z.div_mod s 32 ltac:(lia)) as Hdm.
  pose proof (Z.mod_pos_bound s 32 ltac:(lia)) as Hr.
  assert (0 ≤ s `div` 32) as Hq by (apply Z.div_pos; lia).
  assert (2 ^ s = DIGIT_BASE ^ (s `div` 32) * 2 ^ (s `mod` 32)) as Hpow.
  { change DIGIT_BASE with (2 ^ 32). rewrite <- Z.pow_mul_r, <- Z.pow_add_r by lia.
    f_equal. lia. }
  pose proof (abs_value_bound _ Hl) as Hb.
  destruct (Z.gtb_spec (s `div` 32) (Z.of_nat (length (_data a)))) as [Hgt|Hle].
  { assert (m = 0) as Hm.
    { subst m. apply Z.div_small. split; [lia|].
      assert (DIGIT_BASE ^ Z.of_nat (length (_data a)) ≤ DIGIT_BASE ^ (s `div` 32))
        by (apply Z.pow_le_mono_r; [done|lia]).
      assert (0 < 2 ^ (s `mod` 32)) by (apply Z.pow_pos_nonneg; lia).
      nia. }
    rewrite Hm. unfold value. simpl. by destruct (_negative a), (is_negative a). }
  set (this1 := mk_big_integer _ _).
  set (val := to_digit (Z.shiftl 1 (s `mod` 32))).
  assert (val = 2 ^ (s `mod` 32)) as Hval.
  { subst val. rewrite Z.shiftl_mul_pow2, Z.mul_1_l by lia.
    apply to_digit_small.
    assert (0 < 2 ^ (s `mod` 32)) by (apply Z.pow_pos_nonneg; lia).
    assert (2 ^ (s `mod` 32) ≤ 2 ^ 31) by (apply Z.pow_le_mono_r; lia).
    unfold DIGIT_BASE, DIGIT_MAX_VALUE. lia. }
  pose proof (abs_divide_int_spec val this1 ltac:(by apply limbs_ok_drop)
                ltac:(apply shift_one_range; lia)) as Hd.
  destruct (abs_divide_int val this1) as [this2 rem].
  destruct Hd as ([Hl2 Hc2] & Hn2 & Hv2 & _). cbn [fst].
  assert (abs_value (_data this2) = m) as Hm.
  { rewrite Hv2. subst this1. cbn [_data]. rewrite abs_value_drop by done.
    rewrite Z2Nat.id by done.
    assert (0 < DIGIT_BASE ^ (s `div` 32)) by (apply Z.pow_pos_nonneg; [done|lia]).
    assert (0 < 2 ^ (s `mod` 32)) by (apply Z.pow_pos_nonneg; lia).
    rewrite Hval, Z.div_div by lia.
    subst m. by rewrite Hpow. }
  subst this1. cbn [_negative] in Hn2.
  assert (is_zero this2 = (m =? 0)) as Hz2.
  { unfold is_zero. destruct (Z.eqb_spec m 0) as [E|Hne].
    - rewrite E in Hm. by rewrite (canonical_zero _ Hl2 Hc2 Hm).
    - destruct (_data this2); [simpl in Hm; lia|done]. }
  assert (is_negative a = true → _negative a = true) as Hneg.
  { unfold is_negative. by intros [? _]%andb_true_iff. }
  assert (is_negative a = false → _negative a = false ∨ m = 0) as Hpos.
  { unfold is_negative, is_zero. destruct (_negative a); [|by left]. simpl.
    destruct (_data a); [|done]. intros _. right. subst m. simpl. apply Z.div_0_l.
    assert (0 < 2 ^ s) by (apply Z.pow_pos_nonneg; lia). lia. }
  unfold is_negative at 1. rewrite Hn2, Hz2.
  destruct (is_negative a) eqn:Ea.
  - rewrite (Hneg eq_refl). simpl. destruct (Z.eqb_spec m 0) as [E|Hne]; simpl.
    + unfold value. rewrite Hn2, (Hneg eq_refl), Hm. lia.
    + unfold value. rewrite abs_add_int_negative, Hn2, (Hneg eq_refl).
      rewrite abs_add_int_value by (done || by vm_compute). lia.
  - destruct (Hpos eq_refl) as [Hf|E].
    + rewrite Hf. simpl. unfold value. by rewrite Hn2, Hf, Hm.
    + rewrite E. rewrite andb_false_r. unfold value. rewrite Hm, E.
      by destruct (_negative this2).
Qed.

(** * [abs_mul] on two distinct objects: the schoolbook product *)

Lemma abs_mul_inner_spec n : ∀ j i b data_i d carry bs ws,
  take n (drop j (_data b)) = bs → length bs = n →
  take n (drop (i + j) d) = ws → length ws = n →
  abs_mul_inner n j i (Other b) data_i d carry =
    let '(zs, carry') := mul_add_limbs data_i bs ws carry in
    Ok (take (i + j) d ++ zs ++ drop (i + j + n) d, carry').
Proof.
  induction n as [|n IH]; intros j i b data_i d carry bs ws Hbs Hlb Hws Hlw.
  - destruct bs; [|done]. simpl. rewrite Nat.add_0_r, take_drop. done.
  - destruct bs as [|x bs]; [done|]. destruct ws as [|w ws]; [done|].
    apply take_drop_cons in Hbs as [Hx Hbs]. apply take_drop_cons in Hws as [Hw Hws].
    pose proof (lookup_lt_Some _ _ _ Hw) as Hlt.
    simpl. rewrite (vec_at_lookup _ _ _ Hx). cbn [mbind outcome_bind].
    rewrite (vec_at_lookup _ _ _ Hw). cbn [mbind outcome_bind].
    rewrite vec_set_lt by done. cbn [mbind outcome_bind].
    set (res := to_double (data_i * x + w + carry)).
    rewrite (IH (S j) i b data_i (<[(i + j)%nat:=to_digit res]> d)
               (to_digit (Z.shiftr res DIGIT_BITS)) bs ws).
    + destruct (mul_add_limbs data_i bs ws (to_digit (Z.shiftr res DIGIT_BITS))) as [zs c'].
      f_equal. f_equal.
      replace (i + S j)%nat with (S (i + j)) by lia.
      rewrite (take_S_r _ _ (to_digit res)) by (by apply list_lookup_insert_eq).
      rewrite take_insert_ge by lia.
      rewrite <- app_assoc. simpl. do 3 f_equal.
      replace (i + j + S n)%nat with (S (i + j) + n)%nat by lia.
      apply drop_insert_lt. lia.
    + done.
    + simpl in Hlb. lia.
    + replace (i + S j)%nat with (S (i + j)) by lia.
      by rewrite drop_insert_lt by lia.
    + simpl in Hlw. lia.
Qed.

Lemma mul_add_limbs_spec data_i bs : ∀ ws carry,
  limbs_ok bs → limbs_ok ws → length bs = length ws →
  0 ≤ data_i < DIGIT_BASE → 0 ≤ carry < DIGIT_BASE →
  let '(zs, carry') := mul_add_limbs data_i bs ws carry in
  limbs_ok zs ∧ length zs = length bs ∧ 0 ≤ carry' < DIGIT_BASE ∧
  abs_value zs + DIGIT_BASE ^ Z.of_nat (length bs) * carry'
    = abs_value ws + data_i * abs_value bs + carry.
Proof.
  induction bs as [|b bs IH]; intros [|w ws] carry Hb Hw Hlen Hd Hc; try done.
  - simpl. repeat split; try done; lia.
  - apply limbs_ok_cons in Hb as [Hb Hbs]. apply limbs_ok_cons in Hw as [Hw Hws].
    simpl. rewrite to_double_small by (limb_consts; nia).
    rewrite shiftr_32.
    assert (0 ≤ (data_i * b + w + carry) / DIGIT_BASE < DIGIT_BASE) as Hc'.
    { limb_consts. split; [apply Z.div_pos; nia|]. apply Z.div_lt_upper_bound; nia. }
    rewrite (to_digit_small (_ / _)) by done.
    simpl in Hlen. specialize (IH ws _ Hbs Hws ltac:(lia) Hd Hc').
    destruct (mul_add_limbs data_i bs ws ((data_i * b + w + carry) / DIGIT_BASE)) as [zs c'].
    destruct IH as (Hz & Hl & Hcr & Hv).
    repeat split; try tauto.
    + apply limbs_ok_cons. split; [apply to_digit_range|done].
    + simpl. by rewrite Hl.
    + simpl abs_value. rewrite Nat2Z.inj_succ, Z.pow_succ_r by lia.
      pose proof (digit_split (data_i * b + w + carry)). lia.
Qed.

(** The outer loop on the state [pre ++ w ++ rest]: [pre] holds finished
    limbs, [w] is the window of [rhs_size] limbs being accumulated, [rest]
    holds the limbs of the left operand still to be used. *)
Lemma abs_mul_outer_spec b rest : ∀ pre w,
  limbs_ok (_data b) → limbs_ok rest → limbs_ok pre → limbs_ok w →
  length w = length (_data b) →
  ∃ d', abs_mul_outer (length rest) (length pre) (length (_data b)) (Other b)
          (pre ++ w ++ rest) = Ok d' ∧
    limbs_ok d' ∧
    abs_value d' = abs_value (pre ++ w)
      + DIGIT_BASE ^ Z.of_nat (length pre) * (abs_value rest * abs_value (_data b)).
Proof.
  induction rest as [|x rest IH]; intros pre w Hb Hrest Hpre Hw Hlw.
  - exists (pre ++ w). rewrite app_nil_r. simpl. split; [done|].
    split; [by apply limbs_ok_app|]. lia.
  - apply limbs_ok_cons in Hrest as [Hx Hrest].
    simpl length. cbn [abs_mul_outer].
    set (m := length (_data b)) in *.
    assert ((pre ++ w ++ x :: rest) !! (length pre + m)%nat = Some x) as Hx'.
    { rewrite lookup_app_r by lia. rewrite lookup_app_r by lia.
      by replace (length pre + m - length pre - length w)%nat with 0%nat by lia. }
    rewrite (vec_at_lookup _ _ _ Hx'). cbn [mbind outcome_bind].
    rewrite (abs_mul_inner_spec m 0 (length pre) b x _ 0 (_data b) w); cycle 1.
    { simpl. apply take_ge. subst m. lia. }
    { done. }
    { rewrite Nat.add_0_r, drop_app_length. by rewrite take_app_length'. }
    { done. }
    pose proof (mul_add_limbs_spec x (_data b) w 0 Hb Hw ltac:(by rewrite Hlw) Hx
                  ltac:(by vm_compute)) as Hm.
    destruct (mul_add_limbs x (_data b) w 0) as [zs c].
    destruct Hm as (Hzs & Hlz & Hc & Hv). fold m in Hlz, Hv.
    cbn [mbind outcome_bind]. rewrite !Nat.add_0_r.
    rewrite take_app_length.
    replace (drop (length pre + m) (pre ++ w ++ x :: rest)) with (x :: rest); cycle 1.
    { rewrite drop_app_ge by lia. rewrite drop_app_ge by lia.
      by replace (length pre + m - length pre - length w)%nat with 0%nat by lia. }
    rewrite vec_set_lt by (rewrite !length_app; simpl; lia).
    cbn [mbind outcome_bind].
    replace (<[(length pre + m)%nat:=c]> (pre ++ zs ++ x :: rest))
      with (pre ++ zs ++ c :: rest); cycle 1.
    { rewrite insert_app_r_alt by lia. rewrite insert_app_r_alt by lia.
      by replace (length pre + m - length pre - length zs)%nat with 0%nat by lia. }
    destruct (zs ++ [c]) as [|y w'] eqn:E.
    { by destruct zs. }
    assert (length w' = m) as Hlw'.
    { apply (f_equal length) in E. rewrite length_app in E. simpl in E. lia. }
    assert (limbs_ok (y :: w')) as [Hy Hw']%limbs_ok_cons.
    { rewrite <- E. apply limbs_ok_app. split; [done|].
      apply limbs_ok_cons. split; [done|constructor]. }
    replace (pre ++ zs ++ c :: rest) with ((pre ++ [y]) ++ w' ++ rest); cycle 1.
    { rewrite <- !app_assoc. f_equal. simpl.
      change (y :: w' ++ rest) with ((y :: w') ++ rest). rewrite <- E.
      by rewrite <- app_assoc. }
    destruct (IH (pre ++ [y]) w' Hb Hrest) as (d' & Hd' & Hl' & Hv').
    { apply limbs_ok_app. split; [done|]. apply limbs_ok_cons. split; [done|constructor]. }
    { done. }
    { done. }
    rewrite length_app in Hd', Hv'. simpl in Hd', Hv'.
    replace (S (length pre)) with (length pre + 1)%nat by lia.
    exists d'. split; [done|]. split; [done|].
    rewrite Hv'. rewrite <- app_assoc. simpl app.
    change (y :: w') with ((y :: w')). rewrite <- E.
    rewrite !abs_value_app, Hlz. simpl abs_value.
    rewrite Nat2Z.inj_add, Z.pow_add_r by lia.
    change (DIGIT_BASE ^ Z.of_nat 1) with DIGIT_BASE. nia.
Qed.

Lemma abs_mul_spec b this :
  limbs_ok (_data this) → limbs_ok (_data b) →
  ∃ r, abs_mul (Other b) this = Ok r ∧ wf r ∧ _negative r = _negative this ∧
    abs_value (_data r) = abs_value (_data this) * abs_value (_data b).
Proof.
  intros Ha Hb. unfold abs_mul. simpl data_of.
  destruct (abs_mul_outer_spec b (_data this) [] (replicate (length (_data b)) 0) Hb Ha
              ltac:(constructor) (limbs_ok_replicate _) ltac:(apply length_replicate))
    as (d' & Hd' & Hl' & Hv').
  simpl in Hd'. rewrite Hd'. cbn [mbind outcome_bind].
  eexists. split; [reflexivity|]. split; [by apply trim_wf|]. split; [done|].
  simpl. rewrite abs_value_trim, Hv'. simpl. rewrite abs_value_replicate. lia.
Qed.

(** * [abs_subtract]: the index loops and their summaries *)

Lemma abs_subtract_low_spec n : ∀ i recv rhs out borrow xs ys,
  take n (drop i (data_of out recv)) = xs → length xs = n →
  take n (drop i (data_of out rhs)) = ys → length ys = n →
  (i + n ≤ length out)%nat →
  abs_subtract_low n i recv rhs out borrow =
    let '(zs, borrow') := sub_limbs xs ys borrow in
    Ok (take i out ++ zs ++ drop (i + n) out, borrow').
Proof.
  induction n as [|n IH]; intros i recv rhs out borrow xs ys Hxs Hlx Hys Hly Hlen.
  - destruct xs; [|done]. simpl. rewrite Nat.add_0_r, take_drop. done.
  - destruct xs as [|x xs]; [done|]. destruct ys as [|y ys]; [done|].
    apply take_drop_cons in Hxs as [Hx Hxs]. apply take_drop_cons in Hys as [Hy Hys].
    simpl. rewrite (vec_at_lookup _ _ _ Hx). cbn [mbind outcome_bind].
    rewrite (vec_at_lookup _ _ _ Hy). cbn [mbind outcome_bind].
    rewrite vec_set_lt by lia. cbn [mbind outcome_bind].
    set (diff := to_double (x - y - borrow)).
    rewrite (IH (S i) recv rhs (<[i:=to_digit diff]> out)
               (if diff >? DIGIT_MAX_VALUE then 1 else 0) xs ys).
    + destruct (sub_limbs xs ys (if diff >? DIGIT_MAX_VALUE then 1 else 0)) as [zs c'].
      f_equal. f_equal.
      rewrite (take_S_r _ _ (to_digit diff)) by (apply list_lookup_insert_eq; lia).
      rewrite take_insert_ge by lia.
      rewrite <- app_assoc. simpl. do 3 f_equal.
      replace (S i + n)%nat with (S (i + n)) by lia.
      replace (i + S n)%nat with (S (i + n)) by lia.
      apply drop_insert_lt. lia.
    + by rewrite data_of_insert_drop.
    + simpl in Hlx. lia.
    + by rewrite data_of_insert_drop.
    + simpl in Hly. lia.
    + rewrite length_insert. lia.
Qed.

(** The second loop in place: the borrow runs up the receiver's own limbs. *)
Lemma abs_subtract_high_spec n : ∀ i out borrow xs,
  take n (drop i out) = xs → length xs = n →
  abs_subtract_high n i Self out borrow
  = Ok (take i out ++ sub_borrow xs borrow ++ drop (i + n) out).
Proof.
  induction n as [|n IH]; intros i out borrow xs Hxs Hlx.
  - destruct xs; [|done]. simpl. by rewrite Nat.add_0_r, take_drop.
  - destruct xs as [|x xs]; [done|].
    assert (take i out ++ (x :: xs) ++ drop (i + S n) out = out) as Hsame.
    { rewrite <- Hxs, app_assoc, take_take_drop, take_drop. done. }
    apply take_drop_cons in Hxs as [Hx Hxs].
    pose proof (lookup_lt_Some _ _ _ Hx) as Hlt.
    simpl. destruct (borrow =? 0); [by rewrite Hsame|].
    rewrite (vec_at_lookup _ _ _ Hx). cbn [mbind outcome_bind].
    rewrite vec_set_lt by lia. cbn [mbind outcome_bind].
    set (diff := to_double (x - borrow)).
    rewrite (IH (S i) (<[i:=to_digit diff]> out) (if diff >? DIGIT_MAX_VALUE then 1 else 0) xs).
    + f_equal.
      rewrite (take_S_r _ _ (to_digit diff)) by (apply list_lookup_insert_eq; lia).
      rewrite take_insert_ge by lia.
      rewrite <- app_assoc. simpl. do 3 f_equal.
      replace (S i + n)%nat with (S (i + n)) by lia.
      replace (i + S n)%nat with (S (i + n)) by lia.
      apply drop_insert_lt. lia.
    + by rewrite drop_insert_lt by lia.
    + simpl in Hlx. lia.
Qed.

Lemma sub_step x y borrow :
  0 ≤ x < DIGIT_BASE → 0 ≤ y < DIGIT_BASE → 0 ≤ borrow ≤ 1 →
  let diff := to_double (x - y - borrow) in
  let b' := if diff >? DIGIT_MAX_VALUE then 1 else 0 in
  0 ≤ b' ≤ 1 ∧ to_digit diff - DIGIT_BASE * b' = x - y - borrow.
Proof.
  intros Hx Hy Hb. cbv zeta.
  assert (to_double (x - y - borrow) =
          if decide (0 ≤ x - y - borrow) then x - y - borrow
          else 18446744073709551616 + (x - y - borrow)) as ->.
  { limb_consts. case_decide.
    - apply Z.mod_small. lia.
    - symmetry. apply (Z.mod_unique _ _ (-1)); lia. }
  limb_consts. case_decide.
  - destruct (Z.gtb_spec (x - y - borrow) 4294967295); [lia|].
    rewrite Z.mod_small by lia. lia.
  - destruct (Z.gtb_spec (18446744073709551616 + (x - y - borrow)) 4294967295); [|lia].
    split; [lia|].
    rewrite <- (Z.mod_unique (18446744073709551616 + (x - y - borrow)) 4294967296
                  4294967295 (4294967296 + (x - y - borrow))); lia.
Qed.

Lemma sub_limbs_spec xs : ∀ ys borrow,
  limbs_ok xs → limbs_ok ys → length xs = length ys → 0 ≤ borrow ≤ 1 →
  let '(zs, borrow') := sub_limbs xs ys borrow in
  limbs_ok zs ∧ length zs = length xs ∧ 0 ≤ borrow' ≤ 1 ∧
  abs_value zs - DIGIT_BASE ^ Z.of_nat (length xs) * borrow'
    = abs_value xs - abs_value ys - borrow.
Proof.
  induction xs as [|x xs IH]; intros [|y ys] borrow Hx Hy Hlen Hb; try done.
  - simpl. repeat split; try done; lia.
  - apply limbs_ok_cons in Hx as [Hx Hxs]. apply limbs_ok_cons in Hy as [Hy Hys].
    simpl. pose proof (sub_step x y borrow Hx Hy Hb) as [Hb' Hd]. cbv zeta in Hb', Hd.
    simpl in Hlen. specialize (IH ys _ Hxs Hys ltac:(lia) Hb').
    destruct (sub_limbs xs ys _) as [zs c'].
    destruct IH as (Hz & Hl & Hcr & Hv).
    repeat split; try tauto.
    + apply limbs_ok_cons. split; [apply to_digit_range|done].
    + simpl. by rewrite Hl.
    + simpl abs_value. rewrite Nat2Z.inj_succ, Z.pow_succ_r by lia. lia.
Qed.

Lemma sub_borrow_spec xs : ∀ borrow,
  limbs_ok xs → 0 ≤ borrow ≤ 1 →
  limbs_ok (sub_borrow xs borrow) ∧ length (sub_borrow xs borrow) = length xs ∧
  ∃ bout, 0 ≤ bout ≤ 1 ∧
    abs_value (sub_borrow xs borrow) - DIGIT_BASE ^ Z.of_nat (length xs) * bout
      = abs_value xs - borrow.
Proof.
  induction xs as [|x xs IH]; intros borrow Hx Hb.
  - simpl. repeat split; try done. exists borrow. split; [done|]. lia.
  - pose proof Hx as [Hx0 Hxs]%limbs_ok_cons.
    simpl. destruct (Z.eqb_spec borrow 0) as [->|Hne].
    { repeat split; try done. exists 0. split; [lia|]. simpl. lia. }
    pose proof (sub_step x 0 borrow Hx0 ltac:(by vm_compute) Hb) as [Hb' Hd].
    cbv zeta in Hb', Hd. rewrite Z.sub_0_r in Hb', Hd.
    destruct (IH _ Hxs Hb') as (Hl & Hlen & bout & Hbout & Hv).
    repeat split.
    + apply limbs_ok_cons. split; [apply to_digit_range|done].
    + simpl. by rewrite Hlen.
    + exists bout. split; [done|]. simpl abs_value.
      rewrite Nat2Z.inj_succ, Z.pow_succ_r by lia. lia.
Qed.

(** In place, from the longer (or equally long) operand: the difference of
    the magnitudes when that is not negative. *)
Lemma abs_subtract_in_place b this :
  limbs_ok (_data this) → limbs_ok (_data b) →
  (length (_data b) ≤ length (_data this))%nat →
  abs_value (_data b) ≤ abs_value (_data this) →
  ∃ r, abs_subtract Self (Other b) None this = Ok r ∧ wf r ∧
    _negative r = is_negative this ∧
    abs_value (_data r) = abs_value (_data this) - abs_value (_data b).
Proof.
  intros Ha Hb Hlen Hle. unfold abs_subtract. simpl data_of. simpl deref.
  assert (∃ n, n = length (_data b)) as [n Hn] by eauto.
  assert (∃ m, m = length (_data this)) as [m Hm] by eauto.
  rewrite <- Hn, <- Hm in Hlen. rewrite <- Hn.
  rewrite (abs_subtract_low_spec n 0 Self (Other b) (_data this) 0
             (take n (_data this)) (_data b)); cycle 1.
  { done. }
  { rewrite length_take_le; lia. }
  { simpl. apply take_ge. lia. }
  { done. }
  { lia. }
  pose proof (sub_limbs_spec (take n (_data this)) (_data b) 0 (limbs_ok_take _ _ Ha) Hb
                ltac:(rewrite length_take_le; lia) ltac:(lia)) as Hs.
  destruct (sub_limbs (take n (_data this)) (_data b) 0) as [zs b1].
  destruct Hs as (Hzs & Hlz & Hb1 & Hv1). rewrite length_take_le in Hlz, Hv1 by lia.
  simpl take. rewrite app_nil_l. simpl Nat.add. cbn [mbind outcome_bind].
  assert (length (zs ++ drop n (_data this)) = m) as Hlo
    by (rewrite length_app, length_drop; lia).
  rewrite Hlo.
  rewrite (abs_subtract_high_spec (m - n) n _ b1 (drop n (_data this))); cycle 1.
  { rewrite drop_app_length' by done. apply take_ge. rewrite length_drop. lia. }
  { rewrite length_drop. lia. }
  cbn [mbind outcome_bind].
  rewrite take_app_length' by done.
  rewrite (drop_ge (zs ++ drop n (_data this))) by (rewrite Hlo; lia). rewrite app_nil_r.
  destruct (sub_borrow_spec (drop n (_data this)) b1 (limbs_ok_drop _ _ Ha) Hb1)
    as (Hws & Hlw & bout & Hbout & Hv2).
  rewrite length_drop, <- Hm in Hlw, Hv2.
  assert (∃ ws, ws = sub_borrow (drop n (_data this)) b1) as [ws Hws'] by eauto.
  rewrite <- Hws' in *.
  eexists. split; [reflexivity|].
  assert (limbs_ok (zs ++ ws)) as Hzw by (by apply limbs_ok_app).
  split; [by apply trim_wf|]. split; [done|].
  cbn [_data trim]. rewrite abs_value_trim.
  pose proof (abs_value_bound _ Hzw) as Hbd. rewrite length_app, Hlz, Hlw in Hbd.
  replace (n + (m - n))%nat with m in Hbd by lia.
  rewrite abs_value_app, Hlz in Hbd |- *.
  pose proof (abs_value_take_drop n (_data this) ltac:(lia)) as Hsplit.
  assert (DIGIT_BASE ^ Z.of_nat m = DIGIT_BASE ^ Z.of_nat n * DIGIT_BASE ^ Z.of_nat (m - n)) as Hp.
  { rewrite <- Z.pow_add_r by lia. f_equal. lia. }
  pose proof (abs_value_bound _ Ha) as Hba. rewrite <- Hm in Hba.
  assert (0 < DIGIT_BASE ^ Z.of_nat n) by (apply Z.pow_pos_nonneg; [done|lia]).
  assert (0 < DIGIT_BASE ^ Z.of_nat (m - n)) by (apply Z.pow_pos_nonneg; [done|lia]).
  assert (bout = 0) as -> by nia. nia.
Qed.

(** * [abs_subtract] under a [max_size] cap, as [operator+=] calls it *)

Lemma abs_subtract_capped_self b this :
  limbs_ok (_data this) → limbs_ok (_data b) →
  (length (_data this) ≤ length (_data b))%nat →
  abs_value (take (length (_data this)) (_data b)) ≤ abs_value (_data this) →
  ∃ r, abs_subtract Self (Other b) (Some (length (_data this))) this = Ok r ∧ wf r ∧
    _negative r = is_negative this ∧
    abs_value (_data r)
      = abs_value (_data this) - abs_value (take (length (_data this)) (_data b)).
Proof.
  intros Ha Hb Hlen Hle. unfold abs_subtract. simpl data_of. simpl deref.
  assert (∃ k, k = length (_data this)) as [k Hk] by eauto. rewrite <- Hk in *.
  rewrite (Nat.min_l k (length (_data b))) by done.
  rewrite (abs_subtract_low_spec k 0 Self (Other b) (_data this) 0
             (_data this) (take k (_data b))); cycle 1.
  { simpl. apply take_ge. lia. }
  { done. }
  { done. }
  { rewrite length_take_le; lia. }
  { lia. }
  pose proof (sub_limbs_spec (_data this) (take k (_data b)) 0 Ha (limbs_ok_take _ _ Hb)
                ltac:(rewrite length_take_le; lia) ltac:(lia)) as Hs.
  destruct (sub_limbs (_data this) (take k (_data b)) 0) as [zs b1].
  destruct Hs as (Hzs & Hlz & Hb1 & Hv1). rewrite <- Hk in Hlz, Hv1.
  simpl take. rewrite app_nil_l. simpl Nat.add. cbn [mbind outcome_bind].
  rewrite (drop_ge (_data this)) by lia. rewrite app_nil_r.
  rewrite Hlz, Nat.min_id, Nat.sub_diag. cbn [abs_subtract_high mbind outcome_bind].
  eexists. split; [reflexivity|]. split; [by apply trim_wf|]. split; [done|].
  cbn [_data trim]. rewrite abs_value_trim.
  pose proof (abs_value_bound _ Hzs) as Hbd. rewrite Hlz in Hbd.
  assert (0 < DIGIT_BASE ^ Z.of_nat k) by (apply Z.pow_pos_nonneg; [done|lia]).
  assert (b1 = 0) as -> by nia. lia.
Qed.

Lemma abs_subtract_capped_other b this :
  limbs_ok (_data this) → limbs_ok (_data b) →
  (length (_data this) ≤ length (_data b))%nat →
  abs_value (_data this) ≤ abs_value (take (length (_data this)) (_data b)) →
  ∃ r, abs_subtract (Other b) Self (Some (length (_data this))) this = Ok r ∧ wf r ∧
    _negative r = is_negative b ∧
    abs_value (_data r)
      = abs_value (take (length (_data this)) (_data b)) - abs_value (_data this).
Proof.
  intros Ha Hb Hlen Hle. unfold abs_subtract. simpl data_of. simpl deref.
  assert (∃ k, k = length (_data this)) as [k Hk] by eauto. rewrite <- Hk in *.
  rewrite Nat.min_id.
  rewrite (abs_subtract_low_spec k 0 (Other b) Self (_data this) 0
             (take k (_data b)) (_data this)); cycle 1.
  { done. }
  { rewrite length_take_le; lia. }
  { simpl. apply take_ge. lia. }
  { done. }
  { lia. }
  pose proof (sub_limbs_spec (take k (_data b)) (_data this) 0 (limbs_ok_take _ _ Hb) Ha
                ltac:(rewrite length_take_le; lia) ltac:(lia)) as Hs.
  destruct (sub_limbs (take k (_data b)) (_data this) 0) as [zs b1].
  destruct Hs as (Hzs & Hlz & Hb1 & Hv1). rewrite length_take_le in Hlz, Hv1 by lia.
  simpl take. rewrite app_nil_l. simpl Nat.add. cbn [mbind outcome_bind].
  rewrite (drop_ge (_data this)) by lia. rewrite app_nil_r.
  rewrite (Nat.min_l k (length (_data b))) by done.
  rewrite Nat.sub_diag. cbn [abs_subtract_high mbind outcome_bind].
  eexists. split; [reflexivity|]. split; [by apply trim_wf|]. split; [done|].
  cbn [_data trim]. rewrite abs_value_trim.
  pose proof (abs_value_bound _ Hzs) as Hbd. rewrite Hlz in Hbd.
  assert (0 < DIGIT_BASE ^ Z.of_nat k) by (apply Z.pow_pos_nonneg; [done|lia]).
  assert (b1 = 0) as -> by nia. lia.
Qed.

(** * The stripping of equal high limbs *)

Lemma removelast_take (d : list Z) : removelast d = take (length d - 1) d.
Proof.
  rewrite removelast_firstn_len. f_equal. lia.
Qed.

Lemma last_lookup_pred (d : list Z) : last d = d !! (length d - 1)%nat.
Proof.
  destruct d as [|x d _] using rev_ind; [done|].
  rewrite last_snoc, length_app. simpl.
  rewrite lookup_app_r by lia. by replace (length d + 1 - 1 - length d)%nat with 0%nat by lia.
Qed.

(** The loop returns a prefix of the limbs; above it the two operands agree,
    and its own top limb, if any, differs from the other operand's. *)
Lemma strip_equal_high_spec b n : ∀ d,
  (length d ≤ n)%nat → (length d ≤ length (_data b))%nat →
  ∃ k, strip_equal_high n (Other b) d = Ok (take k d) ∧ (k ≤ length d)%nat ∧
    drop k d = take (length d - k) (drop k (_data b)) ∧
    (k = 0%nat ∨ d !! (k - 1)%nat ≠ _data b !! (k - 1)%nat).
Proof.
  induction n as [|n IH]; intros d Hn Hb.
  - destruct d; [|simpl in Hn; lia]. exists 0%nat. simpl. repeat split; try done. by left.
  - simpl. rewrite last_lookup_pred.
    destruct (d !! (length d - 1)%nat) as [x|] eqn:Ex; cycle 1.
    { apply lookup_ge_None in Ex. destruct d; [|simpl in Ex; lia].
      exists 0%nat. repeat split; try done. by left. }
    pose proof (lookup_lt_Some _ _ _ Ex) as Hlt.
    destruct (lookup_lt_is_Some_2 (_data b) (length d - 1)%nat ltac:(lia)) as [y Ey].
    simpl data_of. rewrite (vec_at_lookup _ _ _ Ey). cbn [mbind outcome_bind].
    destruct (Z.eqb_spec x y) as [<-|Hne].
    + rewrite removelast_take.
      destruct (IH (take (length d - 1) d)) as (k & Hk & Hle & Hdrop & Htop).
      { rewrite length_take. lia. }
      { rewrite length_take. lia. }
      rewrite length_take_le in Hle, Hdrop by lia.
      exists k. rewrite Hk. rewrite take_take, Nat.min_l by lia.
      split; [done|]. split; [lia|]. split.
      * rewrite <- (take_drop (length d - 1) d) at 1.
        rewrite drop_app_le by (rewrite length_take_le; lia).
        rewrite Hdrop.
        assert (drop (length d - 1) d = [x]) as ->.
        { apply list_eq. intros [|i]; rewrite lookup_drop.
          - by rewrite Nat.add_0_r.
          - simpl. apply lookup_ge_None. lia. }
        replace (length d - k)%nat with ((length d - 1 - k) + 1)%nat by lia.
        rewrite <- take_take_drop. f_equal.
        rewrite drop_drop.
        apply list_eq. intros [|i].
        -- rewrite lookup_take_lt by lia. rewrite lookup_drop.
           replace (k + (length d - 1 - k) + 0)%nat with (length d - 1)%nat by lia. done.
        -- simpl. by rewrite lookup_take_ge by lia.
      * destruct (decide (k = 0%nat)) as [->|Hk0]; [by left|right].
        destruct Htop as [->|Htop]; [done|].
        rewrite lookup_take_lt in Htop by lia. done.
    + exists (length d). rewrite take_ge by done. split; [done|]. split; [done|].
      split.
      * rewrite drop_all, Nat.sub_diag. done.
      * right. rewrite Ex, Ey. congruence.
Qed.

(** * Signed addition and subtraction *)

(** The integer denoted, read through the observer [is_negative]. *)
Lemma value_is_negative a :
  value a = if is_negative a then - abs_value (_data a) else abs_value (_data a).
Proof.
  unfold value, is_negative, is_zero.
  destruct (_negative a); [|done]. by destruct (_data a).
Qed.

Lemma value_mk d f : value (mk_big_integer d f) = if f then - abs_value d else abs_value d.
Proof. done. Qed.

Lemma is_negative_cons x d f : is_negative (mk_big_integer (x :: d) f) = f.
Proof. unfold is_negative. simpl. apply andb_true_r. Qed.

Lemma is_zero_abs a : wf a → (is_zero a = true ↔ abs_value (_data a) = 0).
Proof.
  intros [Hl Hc]. unfold is_zero. split.
  - by destruct (_data a).
  - intros H. by rewrite (canonical_zero _ Hl Hc H).
Qed.

(** Two equally long magnitudes compare as their top limbs do when these
    differ. *)
Lemma abs_value_top_lt p q x y :
  limbs_ok p → limbs_ok q → length p = length q →
  last p = Some x → last q = Some y → x < y → abs_value p < abs_value q.
Proof.
  intros Hp Hq Hlen [p' ->]%last_Some [q' ->]%last_Some Hxy.
  rewrite !length_app in Hlen. simpl in Hlen.
  apply limbs_ok_app in Hp as [Hp _]. apply limbs_ok_app in Hq as [Hq _].
  rewrite !abs_value_app. simpl.
  pose proof (abs_value_bound _ Hp). pose proof (abs_value_bound _ Hq).
  replace (length q') with (length p') in * by lia.
  assert (0 < DIGIT_BASE ^ Z.of_nat (length p')) by (apply Z.pow_pos_nonneg; [done|lia]).
  nia.
Qed.

(** A canonical magnitude with more limbs is the larger one. *)
Lemma abs_value_longer p q :
  limbs_ok p → canonical p → limbs_ok q → (length q < length p)%nat →
  abs_value q < abs_value p.
Proof.
  intros Hp Hc Hq Hlen.
  pose proof (canonical_lower p Hp Hc ltac:(by destruct p; [simpl in Hlen; lia|])) as Hlow.
  pose proof (abs_value_bound q Hq) as Hb.
  assert (DIGIT_BASE ^ Z.of_nat (length q) ≤ DIGIT_BASE ^ (Z.of_nat (length p) - 1))
    by (apply Z.pow_le_mono_r; [done|lia]).
  lia.
Qed.

(** [a += b] on two distinct well-formed objects denotes the sum, provided
    [a] is not a zero with a stale sign flag and, when the signs differ, [b]
    has no more limbs than [a]. *)
Lemma operator_plus_assign_value a b :
  wf a → wf b → stale_sign a = false →
  is_negative a = is_negative b ∨ (length (_data b) ≤ length (_data a))%nat →
  ∃ r, operator_plus_assign (Other b) a = Ok r ∧ wf r ∧ value r = value a + value b.
Proof.
  intros [Hla Hca] [Hlb Hcb] Hst Hcond.
  unfold operator_plus_assign. simpl deref. simpl data_of.
  rewrite (value_is_negative a), (value_is_negative b).
  destruct (Bool.eqb (is_negative a) (is_negative b)) eqn:Esign.
  { apply Bool.eqb_prop in Esign.
    destruct (abs_add_spec (Other b) a Hla Hlb) as (r & Hr & Hn & Hlr & Hv & Hc).
    exists r. split; [done|]. split; [split; [done|by apply Hc]|].
    unfold value. rewrite Hn, Hv. simpl data_of. rewrite <- Esign.
    unfold stale_sign in Hst. unfold is_negative.
    destruct (_negative a); simpl in *; [|lia]. rewrite Hst. simpl. lia. }
  apply Bool.eqb_false_iff in Esign.
  destruct Hcond as [?|Hlen]; [done|].
  destruct (Nat.eqb_spec (length (_data a)) (length (_data b))) as [Heq|Hneq].
  - destruct (strip_equal_high_spec b (length (_data a)) (_data a) ltac:(done) ltac:(lia))
      as (k & Hk & Hkle & Hdrop & Htop).
    rewrite Hk. cbn [mbind outcome_bind].
    rewrite take_ge in Hdrop by (rewrite length_drop; lia).
    pose proof (abs_value_take_drop k (_data a) Hkle) as Ha.
    pose proof (abs_value_take_drop k (_data b) ltac:(lia)) as Hb.
    rewrite Hdrop in Ha.
    assert (∃ d', d' = take k (_data a)) as [d' Hd'] by eauto.
    rewrite <- Hd' in *.
    assert (length d' = k) as Hld by (rewrite Hd', length_take_le; lia).
    assert (limbs_ok d') as Hl' by (rewrite Hd'; by apply limbs_ok_take).
    assert (limbs_ok (take k (_data b))) as Hlt by (by apply limbs_ok_take).
    assert (length (take k (_data b)) = k) as Hlk by (rewrite length_take_le; lia).
    assert (d' ≠ [] → is_negative (mk_big_integer d' (_negative a)) = is_negative a) as Hneg.
    { unfold is_negative, is_zero. simpl. destruct d' as [|? ?] eqn:Ed; [done|]. intros _.
      destruct (_data a); [by rewrite take_nil in Hd'|done]. }
    assert (last d' = None ∨ ∃ x y, last d' = Some x ∧ _data b !! (length d' - 1)%nat = Some y
              ∧ last (take k (_data b)) = Some y ∧ x ≠ y) as [Hlast|(x & y & Hx & Hy & Hly & Hxy)].
    { rewrite last_lookup_pred, Hld.
      destruct (d' !! (k - 1)%nat) as [x|] eqn:Ex; [right|by left].
      assert (k ≠ 0%nat) as Hk0 by (apply lookup_lt_Some in Ex; lia).
      destruct (lookup_lt_is_Some_2 (_data b) (k - 1)%nat ltac:(lia)) as [y Ey].
      exists x, y. split; [done|]. split; [done|]. split.
      - rewrite last_lookup_pred, Hlk. by rewrite lookup_take_lt by lia.
      - destruct Htop as [?|Htop]; [done|]. rewrite Hd' in Ex.
        rewrite lookup_take_lt in Ex by lia. congruence. }
    + rewrite Hlast.
      apply last_None in Hlast. subst d'. rewrite Hlast in *.
      assert (k = 0%nat) as -> by done. simpl in Ha, Hb.
      eexists. split; [reflexivity|]. split; [split; [done|done]|].
      rewrite value_mk. simpl.
      replace (abs_value (_data a)) with (abs_value (_data b)) by lia.
      destruct (is_negative a), (is_negative b), (_negative a); try done; simpl; lia.
    + rewrite Hx. simpl data_of. rewrite (vec_at_lookup _ _ _ Hy). cbn [mbind outcome_bind].
      destruct (Z.gtb_spec x y) as [Hgt|Hle].
      * destruct (abs_subtract_capped_self b (mk_big_integer d' (_negative a)))
          as (r & Hr & Hwf & Hn & Hv); try done.
        { simpl. lia. }
        { simpl. rewrite Hld.
          apply Z.lt_le_incl, (abs_value_top_lt _ _ y x); try done. lia. }
        simpl in Hr, Hv, Hn. rewrite Hr.
        exists r. split; [done|]. split; [done|].
        unfold value. rewrite Hn, Hneg, Hv, Hld by (by intros ->).
        destruct (is_negative a), (is_negative b); try done; lia.
      * destruct (abs_subtract_capped_other b (mk_big_integer d' (_negative a)))
          as (r & Hr & Hwf & Hn & Hv); try done.
        { simpl. lia. }
        { simpl. rewrite Hld.
          apply Z.lt_le_incl, (abs_value_top_lt _ _ x y); try done; lia. }
        simpl in Hr, Hv, Hn. rewrite Hr.
        exists r. split; [done|]. split; [done|].
        unfold value. rewrite Hn, Hv, Hld.
        destruct (is_negative a), (is_negative b); try done; lia.
  - destruct (Nat.ltb_spec (length (_data b)) (length (_data a))) as [Hlt|Hge]; [|lia].
    destruct (abs_subtract_in_place b a Hla Hlb ltac:(lia)) as (r & Hr & Hwf & Hn & Hv).
    { apply Z.lt_le_incl. by apply abs_value_longer. }
    rewrite Hr. exists r. split; [done|]. split; [done|].
    unfold value. rewrite Hn, Hv.
    destruct (is_negative a), (is_negative b); try done; lia.
Qed.

(** * Comparison of magnitudes *)

Lemma lexicographical_compare_spec p : ∀ q,
  limbs_ok p → limbs_ok q → length p = length q →
  (lexicographical_compare (rev p) (rev q) = true ↔ abs_value p < abs_value q).
Proof.
  induction p as [|x p IH] using rev_ind; intros q Hp Hq Hlen.
  - destruct q; [|done]. simpl. split; [done|lia].
  - destruct q as [|y q _] using rev_ind.
    { rewrite length_app in Hlen. simpl in Hlen. lia. }
    rewrite !length_app in Hlen. simpl in Hlen.
    apply limbs_ok_app in Hp as [Hp [Hx _]%limbs_ok_cons].
    apply limbs_ok_app in Hq as [Hq [Hy _]%limbs_ok_cons].
    rewrite !rev_app_distr. simpl.
    rewrite !abs_value_app. simpl.
    assert (length p = length q) as Hlen' by lia.
    specialize (IH q Hp Hq Hlen').
    pose proof (abs_value_bound _ Hp). pose proof (abs_value_bound _ Hq).
    rewrite <- Hlen' in *.
    assert (0 < DIGIT_BASE ^ Z.of_nat (length p)) by (apply Z.pow_pos_nonneg; [done|lia]).
    set (P := DIGIT_BASE ^ Z.of_nat (length p)) in *.
    destruct (Z.ltb_spec x y).
    { assert (P * (x + 1) ≤ P * y) by (apply Z.mul_le_mono_nonneg_l; lia).
      split; [lia|done]. }
    destruct (Z.ltb_spec y x).
    { assert (P * (y + 1) ≤ P * x) by (apply Z.mul_le_mono_nonneg_l; lia).
      split; [done|intros; exfalso; lia]. }
    assert (x = y) as -> by lia.
    rewrite IH. lia.
Qed.

(** * The two's-complement view on non-negative operands *)

Lemma testbit_limb x X n :
  0 ≤ x < DIGIT_BASE → 0 ≤ X → 0 ≤ n →
  Z.testbit (x + DIGIT_BASE * X) n = if n <? 32 then Z.testbit x n else Z.testbit X (n - 32).
Proof.
  intros Hx HX Hn.
  replace (x + DIGIT_BASE * X) with (X * DIGIT_BASE + x) by lia.
  rewrite <- lor_limb by done.
  replace (X * DIGIT_BASE) with (Z.shiftl X 32)
    by (rewrite Z.shiftl_mul_pow2 by lia; reflexivity).
  rewrite Z.lor_spec.
  destruct (Z.ltb_spec n 32).
  - rewrite Z.shiftl_spec_low by lia. done.
  - rewrite Z.shiftl_spec by lia.
    replace (Z.testbit x n) with false; [by rewrite orb_false_r|].
    symmetry. destruct (decide (x = 0)) as [->|Hne]; [apply Z.bits_0|].
    apply Z.bits_above_log2; [lia|].
    assert (Z.log2 x < 32); [|lia].
    apply Z.log2_lt_pow2; [lia|]. limb_consts. lia.
Qed.

Lemma op_Z_nonneg op x y : 0 ≤ x → 0 ≤ y → 0 ≤ op_Z op x y.
Proof.
  intros. destruct op; simpl.
  - apply Z.land_nonneg. by left.
  - by apply Z.lor_nonneg.
  - by apply Z.lxor_nonneg.
Qed.

Lemma op_Z_testbit op x y n :
  Z.testbit (op_Z op x y) n = op_bool op (Z.testbit x n) (Z.testbit y n).
Proof.
  destruct op; simpl; [apply Z.land_spec|apply Z.lor_spec|apply Z.lxor_spec].
Qed.

Lemma op_digit_op_Z op x y : op_digit op x y = op_Z op x y.
Proof. by destruct op. Qed.

Lemma op_Z_limb op x X y Y :
  0 ≤ x < DIGIT_BASE → 0 ≤ X → 0 ≤ y < DIGIT_BASE → 0 ≤ Y →
  op_Z op (x + DIGIT_BASE * X) (y + DIGIT_BASE * Y)
  = op_digit op x y + DIGIT_BASE * op_Z op X Y.
Proof.
  intros Hx HX Hy HY. apply Z.bits_inj'. intros n Hn.
  rewrite op_Z_testbit,
    !testbit_limb by (done || (by apply op_Z_nonneg) || (by apply op_digit_range)).
  rewrite op_digit_op_Z. destruct (n <? 32); by rewrite op_Z_testbit.
Qed.

Lemma op_limbs_spec op xs : ∀ ys,
  limbs_ok xs → limbs_ok ys → (length ys ≤ length xs)%nat →
  limbs_ok (op_limbs op xs ys) ∧ length (op_limbs op xs ys) = length xs ∧
  abs_value (op_limbs op xs ys) = op_Z op (abs_value xs) (abs_value ys).
Proof.
  induction xs as [|x xs IH]; intros ys Hx Hy Hlen.
  - destruct ys; [|simpl in Hlen; lia]. simpl. repeat split; try done. by destruct op.
  - apply limbs_ok_cons in Hx as [Hx Hxs].
    assert (0 ≤ hd 0 ys < DIGIT_BASE ∧ limbs_ok (tl ys) ∧ (length (tl ys) ≤ length xs)%nat
            ∧ abs_value ys = hd 0 ys + DIGIT_BASE * abs_value (tl ys)) as (Hh & Ht & Hl & Hv).
    { destruct ys as [|y ys]; simpl in *.
      - repeat split; try done. lia.
      - apply limbs_ok_cons in Hy as [? ?]. repeat split; try done; lia. }
    destruct (IH (tl ys) Hxs Ht Hl) as (Hl' & Hlen' & Hv').
    simpl. repeat split.
    + apply limbs_ok_cons. split; [by apply op_digit_range|done].
    + by rewrite Hlen'.
    + rewrite Hv', Hv. symmetry. apply op_Z_limb; try done.
      * by apply abs_value_bound.
      * by apply abs_value_bound.
Qed.

Lemma bitwise_loop_nonneg n : ∀ i op b d a_carry b_carry res_carry xs,
  is_negative b = false →
  take n (drop i d) = xs → length xs = n →
  bitwise_loop n i op false false (Other b) d a_carry b_carry res_carry
  = Ok (take i d ++ op_limbs op xs (drop i (_data b)) ++ drop (i + n) d).
Proof.
  induction n as [|n IH]; intros i op b d a_carry b_carry res_carry xs Hb Hxs Hlx.
  - destruct xs; [|done]. simpl. by rewrite Nat.add_0_r, take_drop.
  - destruct xs as [|x xs]; [done|].
    apply take_drop_cons in Hxs as [Hx Hxs].
    pose proof (lookup_lt_Some _ _ _ Hx) as Hlt.
    cbn [bitwise_loop]. rewrite (vec_at_lookup _ _ _ Hx). cbn [mbind outcome_bind].
    assert (is_negative (mk_big_integer d false) = false) as -> by done.
    cbn [twos_complement deref data_of]. rewrite Hb.
    assert ((if (i <? length (_data b))%nat then vec_at (_data b) i else Ok 0)
            = Ok (hd 0 (drop i (_data b)))) as ->.
    { destruct (Nat.ltb_spec i (length (_data b))) as [Hi|Hi].
      - destruct (lookup_lt_is_Some_2 (_data b) i Hi) as [y Hy].
        rewrite (vec_at_lookup _ _ _ Hy). by rewrite (drop_S _ _ _ Hy).
      - by rewrite drop_ge by lia. }
    cbn [mbind outcome_bind twos_complement].
    rewrite vec_set_lt by done. cbn [mbind outcome_bind].
    rewrite (IH (S i) op b _ a_carry b_carry res_carry xs Hb).
    + f_equal. cbn [op_limbs].
      rewrite (take_S_r _ _ (op_digit op x (hd 0 (drop i (_data b)))))
        by (by apply list_lookup_insert_eq).
      rewrite take_insert_ge by lia.
      rewrite <- app_assoc. simpl. do 2 f_equal.
      assert (tl (drop i (_data b)) = drop (S i) (_data b)) as ->.
      { destruct (_data b !! i) as [y|] eqn:Ey.
        - by rewrite (drop_S _ _ _ Ey).
        - apply lookup_ge_None in Ey. by rewrite !drop_ge by lia. }
      f_equal.
      replace (S i + n)%nat with (S (i + n)) by lia.
      replace (i + S n)%nat with (S (i + n)) by lia.
      apply drop_insert_lt. lia.
    + by rewrite drop_insert_lt by lia.
    + simpl in Hlx. lia.
Qed.

Lemma abs_value_resize n d : (length d ≤ n)%nat → abs_value (resize n 0 d) = abs_value d.
Proof.
  intros H. rewrite resize_spec, take_ge by done.
  rewrite abs_value_app, abs_value_replicate. lia.
Qed.

(** * Values of constructed and negated objects *)

Lemma big_integer_ull_abs val negative :
  0 ≤ val < 2 ^ 64 → abs_value (_data (big_integer_ull val negative)) = val.
Proof.
  intros Hv. unfold big_integer_ull.
  destruct (Z.eqb_spec val 0) as [->|Hne]; [done|].
  rewrite shiftr_32.
  pose proof (digit_split val) as Hs.
  assert (0 ≤ val / DIGIT_BASE < DIGIT_BASE) as Hhi.
  { limb_consts. split; [apply Z.div_pos; lia|apply Z.div_lt_upper_bound; lia]. }
  destruct (Z.eqb_spec (val / DIGIT_BASE) 0) as [E|E]; cbn [_data abs_value].
  - rewrite E in Hs. lia.
  - rewrite (to_digit_small (val / DIGIT_BASE)) by done. lia.
Qed.

Lemma big_integer_ull_negative val negative :
  _negative (big_integer_ull val negative) = negative.
Proof. unfold big_integer_ull. by destruct (val =? 0). Qed.

Lemma value_negate a : value (negate a) = - value a.
Proof. unfold value, negate. cbn. destruct (_negative a); simpl; lia. Qed.

Lemma is_negative_pos a : wf a → is_negative a = true → 0 < abs_value (_data a).
Proof.
  intros [Hl Hc] Hn. pose proof (abs_value_bound _ Hl).
  destruct (decide (abs_value (_data a) = 0)) as [E|]; [|lia].
  apply (canonical_zero _ Hl Hc) in E. unfold is_negative, is_zero in Hn.
  rewrite E in Hn. by rewrite andb_false_r in Hn.
Qed.

Lemma stale_sign_value a :
  stale_sign a = false → value a = if _negative a then - abs_value (_data a) else abs_value (_data a).
Proof. done. Qed.

Lemma pow2_split n :
  0 ≤ n → DIGIT_BASE ^ (n `div` 32) * 2 ^ (n `mod` 32) = 2 ^ n.
Proof.
  intros Hn. limb_consts. change 4294967296 with (2 ^ 32).
  pose proof (Z.div_mod n 32 ltac:(lia)) as Hdm.
  pose proof (Z.mod_pos_bound n 32 ltac:(lia)).
  assert (0 ≤ n `div` 32) by (apply Z.div_pos; lia).
  rewrite <- Z.pow_mul_r by lia. rewrite <- Z.pow_add_r by lia. f_equal. lia.
Qed.

(** * Subtracting into the shorter operand *)

Lemma sub_limbs_length xs : ∀ ys borrow,
  length xs = length ys → length (sub_limbs xs ys borrow).1 = length xs.
Proof.
  induction xs as [|x xs IH]; intros [|y ys] borrow Hlen; try done.
  simpl in *. specialize (IH ys (if to_double (x - y - borrow) >? DIGIT_MAX_VALUE then 1 else 0)
                            ltac:(lia)).
  destruct (sub_limbs xs ys _). simpl in *. lia.
Qed.

(** [rhs.abs_subtract( *this, *this)] when the receiver [b] of the call has
    more limbs than the output: the second loop writes past the end of the
    output when a borrow is left, and otherwise leaves the limbs of [b]
    above the output unread. *)
Lemma abs_subtract_other_short b this :
  (length (_data this) < length (_data b))%nat →
  abs_subtract (Other b) Self None this =
    let '(zs, borrow) := sub_limbs (take (length (_data this)) (_data b)) (_data this) 0 in
    if borrow =? 0 then Ok (trim (mk_big_integer zs (is_negative b))) else Undefined.
Proof.
  intros Hlen. unfold abs_subtract. cbn [data_of deref].
  assert (∃ n, n = length (_data this)) as [n Hn] by eauto. rewrite <- Hn.
  rewrite (abs_subtract_low_spec n 0 (Other b) Self (_data this) 0
             (take n (_data b)) (_data this)); cbn [data_of].
  - pose proof (sub_limbs_length (take n (_data b)) (_data this) 0) as Hzl.
    rewrite length_take in Hzl. specialize (Hzl ltac:(lia)).
    destruct (sub_limbs (take n (_data b)) (_data this) 0) as [zs borrow].
    cbn [fst] in Hzl.
    cbn [mbind outcome_bind]. rewrite drop_ge by lia. rewrite app_nil_r. cbn [take app].
    destruct (length (_data b) - n)%nat as [|k] eqn:Ek; [lia|].
    cbn [abs_subtract_high]. destruct (borrow =? 0); [done|].
    cbn [data_of].
    destruct (lookup_lt_is_Some_2 (_data b) n ltac:(lia)) as [x Hx].
    rewrite (vec_at_lookup _ _ _ Hx). cbn [mbind outcome_bind].
    unfold vec_set. rewrite decide_False; [done|]. simpl. lia.
  - done.
  - rewrite length_take. lia.
  - by rewrite drop_0, take_ge by lia.
  - lia.
  - lia.
Qed.

Lemma abs_value_drop_pos n d :
  limbs_ok d → canonical d → (n < length d)%nat → 0 < abs_value (drop n d).
Proof.
  intros Hl Hc Hn.
  pose proof (canonical_lower d Hl Hc) as Hlow.
  assert (d ≠ []) as Hne by (intros ->; simpl in Hn; lia). specialize (Hlow Hne).
  pose proof (abs_value_take_drop n d ltac:(lia)) as Hsplit.
  pose proof (abs_value_bound _ (limbs_ok_take n d Hl)) as Hb.
  rewrite length_take, Nat.min_l in Hb by lia.
  pose proof (abs_value_bound _ (limbs_ok_drop n d Hl)) as Hd.
  assert (DIGIT_BASE ^ Z.of_nat n ≤ DIGIT_BASE ^ (Z.of_nat (length d) - 1))
    by (apply Z.pow_le_mono_r; [done|lia]).
  destruct (decide (abs_value (drop n d) = 0)) as [E|]; [|lia].
  rewrite E in Hsplit. lia.
Qed.

(** * Adding to a zero whose sign flag is set *)

Lemma operator_plus_assign_stale b :
  limbs_ok (_data b) →
  ∃ r, operator_plus_assign (Other b) (mk_big_integer [] true) = Ok r ∧
    _negative r = true ∧ abs_value (_data r) = Z.max (value b) 0.
Proof.
  intros Hlb. unfold operator_plus_assign. cbn [_data _negative deref data_of].
  assert (is_negative (mk_big_integer [] true) = false) as -> by done.
  pose proof (abs_value_bound _ Hlb) as Hb.
  destruct (is_negative b) eqn:Eb; cbn [Bool.eqb].
  - assert (_data b ≠ []) as Hne.
    { intros E. unfold is_negative, is_zero in Eb. rewrite E in Eb.
      by rewrite andb_false_r in Eb. }
    assert ((length (@nil Z) =? length (_data b))%nat = false) as ->.
    { destruct (_data b); [done|reflexivity]. }
    assert ((length (_data b) <? length (@nil Z))%nat = false) as -> by reflexivity.
    rewrite (abs_subtract_other_short b (mk_big_integer [] true)).
    2:{ cbn. destruct (_data b); [done|simpl; lia]. }
    cbn. rewrite Eb. eexists. split; [reflexivity|]. split; [done|].
    rewrite (value_is_negative b), Eb. cbn. lia.
  - destruct (abs_add_spec (Other b) (mk_big_integer [] true)) as (r & Hr & Hnr & _ & Hv & _);
      [constructor|done|].
    exists r. split; [done|]. split; [done|]. rewrite Hv. cbn.
    rewrite (value_is_negative b), Eb. lia.
Qed.

Lemma operator_plus_assign_cancel a :
  is_negative a = true →
  operator_plus_assign (Other (negate a)) a = Ok (mk_big_integer [] true).
Proof.
  intros Hn. unfold operator_plus_assign. cbn [deref data_of].
  assert (_negative a = true ∧ is_zero a = false) as [Hf Hz].
  { unfold is_negative in Hn. apply andb_true_iff in Hn as [? ?]. split; [done|].
    by apply negb_true_iff. }
  assert (is_negative (negate a) = false) as ->.
  { unfold is_negative, negate. cbn. by rewrite Hf. }
  rewrite Hn. cbn [Bool.eqb negate _data]. rewrite Nat.eqb_refl.
  destruct (strip_equal_high_spec (negate a) (length (_data a)) (_data a))
    as (k & Hk & Hkl & _ & Hstop); [done|done|].
  cbn [negate _data] in Hk, Hstop. rewrite Hk.
  destruct Hstop as [->|Hstop]; [|done].
  cbn. by rewrite Hf.
Qed.

(** * Left shift of the magnitude *)

Lemma operator_shl_assign_abs n a :
  limbs_ok (_data a) → 0 ≤ n < 2 ^ 31 →
  _negative (operator_shl_assign n a) = _negative a ∧
  abs_value (_data (operator_shl_assign n a)) = abs_value (_data a) * 2 ^ n.
Proof.
  intros Hl Hn. unfold operator_shl_assign.
  rewrite abs_mul_int_negative. cbn [_negative]. split; [done|].
  assert (to_unsigned n = n) as -> by (apply Z.mod_small; lia).
  unfold DIGIT_BITS.
  pose proof (Z.mod_pos_bound n 32 ltac:(lia)) as Hr.
  assert (0 ≤ n `div` 32) as Hq by (apply Z.div_pos; lia).
  pose proof (shift_one_range (n `mod` 32) Hr) as Hm.
  rewrite abs_mul_int_value; cbn [_data]; [| |lia].
  2:{ apply limbs_ok_app. split; [apply limbs_ok_replicate|done]. }
  rewrite abs_value_app, abs_value_replicate, length_replicate, Z2Nat.id by done.
  assert (to_digit (Z.shiftl 1 (n `mod` 32)) = 2 ^ (n `mod` 32)) as ->.
  { rewrite Z.shiftl_mul_pow2, Z.mul_1_l by lia. apply to_digit_small.
    split; [apply Z.pow_nonneg; lia|]. limb_consts. change 4294967296 with (2 ^ 32).
    apply Z.pow_lt_mono_r; lia. }
  rewrite <- (pow2_split n) by lia. lia.
Qed.

(** * A bitwise operation of an object with itself *)

Lemma is_negative_mk d f : d ≠ [] → is_negative (mk_big_integer d f) = f.
Proof. intros H. unfold is_negative, is_zero. cbn. destruct d; [done|]. apply andb_true_r. Qed.

(** Converting a limb to two's complement and back, with the carries of the
    two conversions in step. *)
Lemma twos_complement_involution x c :
  0 ≤ x < DIGIT_BASE → c = 0 ∨ c = 1 →
  let '(ad, c') := twos_complement true x c in
  twos_complement true ad c = (x, c') ∧ (c' = 0 ∨ c' = 1) ∧ 0 ≤ ad < DIGIT_BASE.
Proof.
  intros Hx Hc. unfold twos_complement. limb_consts.
  assert (∀ s, 0 ≤ s ≤ 4294967296 →
            (s `mod` 18446744073709551616) `mod` 4294967296
              = (if decide (s = 4294967296) then 0 else s) ∧
            (Z.shiftr (s `mod` 18446744073709551616) 32) `mod` 4294967296
              = (if decide (s = 4294967296) then 1 else 0)) as Hs.
  { intros s Hs. rewrite (Z.mod_small s) by lia. rewrite Z.shiftr_div_pow2 by lia.
    change (2 ^ 32) with 4294967296. case_decide as E.
    - subst. by vm_compute.
    - rewrite Z.div_small by lia. rewrite !Z.mod_small by lia. done. }
  destruct (Hs (c + (4294967295 - x)) ltac:(lia)) as [-> ->].
  case_decide as E.
  - destruct (Hs (c + (4294967295 - 0)) ltac:(lia)) as [-> ->].
    repeat case_decide; try lia. split; [f_equal; lia|]. split; [by right|lia].
  - destruct (Hs (c + (4294967295 - (c + (4294967295 - x)))) ltac:(lia)) as [-> ->].
    repeat case_decide; try lia. split; [f_equal; lia|]. split; [by left|lia].
Qed.

Lemma op_digit_diag op x : op ≠ bit_xor → op_digit op x x = x.
Proof. destruct op; simpl; intros; [apply Z.land_diag|apply Z.lor_diag|done]. Qed.

Lemma bitwise_loop_self_id n : ∀ i op flag d c,
  op ≠ bit_xor → limbs_ok d → (i + n ≤ length d)%nat → c = 0 ∨ c = 1 →
  bitwise_loop n i op flag flag Self d c c c = Ok d.
Proof.
  induction n as [|n IH]; intros i op flag d c Hop Hl Hlen Hc; [done|].
  destruct (lookup_lt_is_Some_2 d i ltac:(lia)) as [x Hx].
  pose proof (limbs_ok_lookup _ _ _ Hl Hx) as Hxr.
  cbn [bitwise_loop data_of deref]. rewrite (vec_at_lookup _ _ _ Hx). cbn [mbind outcome_bind].
  assert ((i <? length d)%nat = true) as -> by (apply Nat.ltb_lt; lia).
  cbn [mbind outcome_bind].
  rewrite is_negative_mk by (intros ->; simpl in Hlen; lia).
  destruct flag.
  - pose proof (twos_complement_involution x c Hxr Hc) as Hinv.
    destruct (twos_complement true x c) as [ad c'].
    destruct Hinv as (Hback & Hc' & Had).
    cbv beta iota zeta. rewrite op_digit_diag by done. rewrite Hback.
    rewrite vec_set_lt by lia. cbn [mbind outcome_bind].
    rewrite list_insert_id by done. apply IH; try done. lia.
  - cbn [twos_complement]. cbv beta iota zeta. rewrite op_digit_diag by done.
    rewrite vec_set_lt by lia. cbn [mbind outcome_bind].
    rewrite list_insert_id by done. apply IH; try done. lia.
Qed.

Lemma bitwise_loop_self_xor n : ∀ i flag d c cr,
  (i + n ≤ length d)%nat →
  bitwise_loop n i bit_xor false flag Self d c c cr
  = Ok (take i d ++ replicate n 0 ++ drop (i + n) d).
Proof.
  induction n as [|n IH]; intros i flag d c cr Hlen.
  - cbn. by rewrite Nat.add_0_r, take_drop.
  - destruct (lookup_lt_is_Some_2 d i ltac:(lia)) as [x Hx].
    cbn [bitwise_loop data_of deref]. rewrite (vec_at_lookup _ _ _ Hx). cbn [mbind outcome_bind].
    assert ((i <? length d)%nat = true) as -> by (apply Nat.ltb_lt; lia).
    cbn [mbind outcome_bind].
  cbn [mbind outcome_bind].
    destruct (twos_complement (is_negative (mk_big_integer d flag)) x c) as [ad c'].
    cbn [op_digit twos_complement]. cbv beta iota zeta. rewrite Z.lxor_nilpotent.
    rewrite vec_set_lt by lia. cbn [mbind outcome_bind].
    rewrite IH by (rewrite length_insert; lia). f_equal.
    rewrite (take_S_r _ _ 0) by (apply list_lookup_insert_eq; lia).
    rewrite take_insert_ge by lia. rewrite <- app_assoc. cbn [replicate app]. do 3 f_equal.
    replace (S i + n)%nat with (S (i + n)) by lia.
    replace (i + S n)%nat with (S (i + n)) by lia.
    apply drop_insert_lt. lia.
Qed.

(** * Normalisation of a divisor *)

Lemma normalize_shift b :
  0 < b < DIGIT_BASE / 2 →
  let k0 := log2_gap b in
  let k := if to_digit (Z.shiftl b k0) <? DIGIT_BASE / 2 then k0 + 1 else k0 in
  0 ≤ k ≤ 31 ∧ DIGIT_BASE / 2 ≤ b * 2 ^ k ∧ (b + 1) * 2 ^ k ≤ DIGIT_BASE.
Proof.
  change (DIGIT_BASE / 2) with 2147483648. intros Hb. cbv zeta. unfold log2_gap.
  assert (∀ k, 0 ≤ k ≤ 31 → 2147483648 ≤ b * 2 ^ k < 4294967296 →
               0 ≤ k ≤ 31 ∧ 2147483648 ≤ b * 2 ^ k ∧ (b + 1) * 2 ^ k ≤ DIGIT_BASE) as Hfin.
  { intros k Hk Hr. split; [done|]. split; [lia|].
    change DIGIT_BASE with (2 ^ 32).
    replace 32 with ((32 - k) + k) by lia. rewrite Z.pow_add_r by lia.
    assert (0 < 2 ^ k) by (apply Z.pow_pos_nonneg; lia).
    assert (b < 2 ^ (32 - k)).
    { apply (Z.mul_lt_mono_pos_r (2 ^ k)); [done|].
      rewrite <- Z.pow_add_r by lia. replace (32 - k + k) with 32 by lia.
      change (2 ^ 32) with 4294967296. lia. }
    apply Z.mul_le_mono_nonneg_r; lia. }
  destruct (decide (b = 1)) as [->|Hne].
  { change (Z.log2_up 1) with 0. simpl. apply (Hfin 31); by vm_compute. }
  pose proof (Z.log2_up_spec b ltac:(lia)) as Hspec.
  pose proof (Z.log2_up_pos b ltac:(lia)) as Hpos.
  assert (Z.log2_up b ≤ 31) as Hle.
  { apply Z.log2_up_le_pow2; [lia|]. change (2 ^ 31) with 2147483648. lia. }
  assert (∃ L, L = Z.log2_up b) as [L HL] by eauto. rewrite <- HL in *.
  rewrite Z.shiftl_mul_pow2 by lia.
  assert (0 < 2 ^ (31 - L)) as HP by (apply Z.pow_pos_nonneg; lia).
  assert (2 ^ Z.pred L * 2 ^ (31 - L) = 1073741824) as Hlo.
  { rewrite <- Z.pow_add_r by lia. replace (Z.pred L + (31 - L)) with 30 by lia. done. }
  assert (2 ^ L * 2 ^ (31 - L) = 2147483648) as Hhi.
  { rewrite <- Z.pow_add_r by lia. replace (L + (31 - L)) with 31 by lia. done. }
  assert (1073741824 < b * 2 ^ (31 - L) ≤ 2147483648) as Hr.
  { split.
    - rewrite <- Hlo. apply Z.mul_lt_mono_pos_r; [done|lia].
    - rewrite <- Hhi. apply Z.mul_le_mono_nonneg_r; lia. }
  rewrite to_digit_small by (limb_consts; lia).
  destruct (Z.ltb_spec (b * 2 ^ (31 - L)) 2147483648).
  - apply Hfin; [lia|]. replace (31 - L + 1) with (Z.succ (31 - L)) by lia.
    rewrite Z.pow_succ_r by lia. lia.
  - apply Hfin; lia.
Qed.

Lemma top_limb_lower r n T :
  limbs_ok r → canonical r → (0 < n)%nat → 0 < T →
  DIGIT_BASE ^ (Z.of_nat n - 1) * T ≤ abs_value r < DIGIT_BASE ^ Z.of_nat n →
  length r = n ∧ ∃ top, last r = Some top ∧ T ≤ top.
Proof.
  intros Hl Hc Hn HT Hr.
  assert (0 < DIGIT_BASE ^ (Z.of_nat n - 1)) as HP by (apply Z.pow_pos_nonneg; [done|lia]).
  assert (DIGIT_BASE ^ (Z.of_nat n - 1) ≤ abs_value r) as Hlow by nia.
  assert (r ≠ []) as Hne by (intros ->; simpl in *; lia).
  pose proof (canonical_lower r Hl Hc Hne) as Hcl.
  pose proof (abs_value_bound r Hl) as Hb.
  assert (length r = n) as Hlen.
  { assert (Z.of_nat (length r) - 1 < Z.of_nat n).
    { apply (Z.pow_lt_mono_r_iff DIGIT_BASE); [done|lia|lia]. }
    assert (Z.of_nat n - 1 < Z.of_nat (length r)).
    { apply (Z.pow_lt_mono_r_iff DIGIT_BASE); [done|lia|lia]. }
    lia. }
  split; [done|].
  destruct r as [|x r _] using rev_ind; [done|].
  rewrite last_snoc. exists x. split; [done|].
  apply limbs_ok_app in Hl as [Hl' _].
  pose proof (abs_value_bound r Hl') as Hb'.
  rewrite abs_value_app in Hr. simpl in Hr.
  rewrite length_app in Hlen. simpl in Hlen.
  replace (Z.of_nat n - 1) with (Z.of_nat (length r)) in * by lia.
  nia.
Qed.

(** * Comparison of values *)

Lemma operator_gt_value a b :
  wf a → wf b → (operator_gt a b = true ↔ value b < value a).
Proof.
  intros Ha Hb.
  pose proof Ha as [Hla Hca]. pose proof Hb as [Hlb Hcb].
  pose proof (abs_value_bound _ Hla). pose proof (abs_value_bound _ Hlb).
  pose proof (is_negative_pos a Ha) as Hpa. pose proof (is_negative_pos b Hb) as Hpb.
  rewrite !value_is_negative. unfold operator_gt.
  destruct (is_negative a) eqn:Ea, (is_negative b) eqn:Eb; cbn [negb andb];
    try (specialize (Hpa eq_refl)); try (specialize (Hpb eq_refl));
    try (split; [intros; lia|done]); try (split; [done|intros; lia]).
  - destruct (Nat.eqb_spec (length (_data a)) (length (_data b))) as [E|E]; cbn [negb].
    + rewrite (lexicographical_compare_spec _ _ Hla Hlb E). lia.
    + rewrite xorb_true_r, negb_true_iff, Nat.ltb_ge.
      split; intros Hlen.
      * pose proof (abs_value_longer (_data b) (_data a) Hlb Hcb Hla ltac:(lia)). lia.
      * destruct (decide (length (_data a) ≤ length (_data b))%nat) as [|Hn]; [done|].
        pose proof (abs_value_longer (_data a) (_data b) Hla Hca Hlb ltac:(lia)). lia.
  - destruct (Nat.eqb_spec (length (_data a)) (length (_data b))) as [E|E]; cbn [negb].
    + by rewrite (lexicographical_compare_spec _ _ Hlb Hla (eq_sym E)).
    + rewrite xorb_false_r, Nat.ltb_lt.
      split; intros Hlen.
      * by apply abs_value_longer.
      * destruct (decide (length (_data b) < length (_data a))%nat) as [|Hn]; [done|].
        pose proof (abs_value_longer (_data b) (_data a) Hlb Hcb Hla ltac:(lia)). lia.
Qed.

(** [normalize] on a canonical non-zero object. *)
Lemma normalize_top this :
  wf this → is_zero this = false →
  ∃ r k top, normalize this = Ok (r, k) ∧ 0 ≤ k ≤ 31 ∧
    wf r ∧ _negative r = _negative this ∧
    abs_value (_data r) = abs_value (_data this) * 2 ^ k ∧
    length (_data r) = length (_data this) ∧
    last (_data r) = Some top ∧ DIGIT_BASE / 2 ≤ top.
Proof.
  intros [Hl Hc] Hz. destruct this as [d f]. cbn [_data] in Hl, Hc.
  unfold is_zero in Hz. cbn in Hz.
  destruct d as [|b lo _] using rev_ind; [done|]. clear Hz.
  apply canonical_snoc in Hc.
  pose proof Hl as [Hlo [Hb _]%limbs_ok_cons]%limbs_ok_app.
  unfold normalize, back. cbn [_data]. rewrite last_snoc. cbn [mbind outcome_bind].
  destruct (Z.geb_spec b (DIGIT_BASE / 2)) as [Hge|Hlt].
  { exists (mk_big_integer (lo ++ [b]) f), 0, b. cbn [_data]. rewrite last_snoc.
    repeat split; try done; try lia. by apply canonical_snoc. }
  destruct (Z.eqb_spec b 0) as [|_]; [done|].
  pose proof (normalize_shift b ltac:(lia)) as Hk. cbv zeta in Hk.
  assert (∃ k, k = if to_digit (Z.shiftl b (log2_gap b)) <? DIGIT_BASE / 2
                   then log2_gap b + 1 else log2_gap b) as [k Ek] by eauto.
  rewrite <- Ek in *. destruct Hk as (Hkr & Hlow & Hup).
  assert (0 ≤ k < 2 ^ 31) as Hk31 by (change (2 ^ 31) with 2147483648; lia).
  destruct (operator_shl_assign_abs k (mk_big_integer (lo ++ [b]) f) Hl Hk31) as [Hf Hv].
  pose proof (operator_shl_assign_wf k (mk_big_integer (lo ++ [b]) f) Hl) as Hwf.
  cbn [_data _negative] in Hf, Hv.
  pose proof (abs_value_bound _ Hlo) as Hlob.
  rewrite abs_value_app in Hv. simpl in Hv.
  assert (0 < 2 ^ k) as H2k by (apply Z.pow_pos_nonneg; lia).
  assert (0 < DIGIT_BASE ^ Z.of_nat (length lo)) as HP by (apply Z.pow_pos_nonneg; [done|lia]).
  destruct (top_limb_lower (_data (operator_shl_assign k (mk_big_integer (lo ++ [b]) f)))
              (length (lo ++ [b])) (DIGIT_BASE / 2)) as (Hlen & top & Htop & Hhalf);
    [apply Hwf|apply Hwf|rewrite length_app; simpl; lia|done| |].
  { rewrite length_app. simpl length.
    replace (Z.of_nat (length lo + 1) - 1) with (Z.of_nat (length lo)) by lia.
    replace (Z.of_nat (length lo + 1)) with (Z.succ (Z.of_nat (length lo))) by lia.
    rewrite Z.pow_succ_r by lia. rewrite Hv.
    set (P := DIGIT_BASE ^ Z.of_nat (length lo)) in *.
    set (Q := 2 ^ k) in *. set (A := abs_value lo) in *.
    assert (P * (DIGIT_BASE / 2) ≤ P * (b * Q)) by (apply Z.mul_le_mono_nonneg_l; lia).
    assert (P * ((b + 1) * Q) ≤ P * DIGIT_BASE) by (apply Z.mul_le_mono_nonneg_l; lia).
    assert (A * Q < P * Q) by (apply Z.mul_lt_mono_pos_r; lia).
    assert (0 ≤ A * Q) by (apply Z.mul_nonneg_nonneg; lia).
    split; lia. }
  exists (operator_shl_assign k (mk_big_integer (lo ++ [b]) f)), k, top.
  repeat split; try done; try lia; try apply Hwf.
  rewrite Hv. cbn [_data]. rewrite abs_value_app. simpl. lia.
Qed.

(** * Division of one limb by one limb *)

Lemma operator_ge_value a b : wf a → wf b → (operator_ge a b = true ↔ value b ≤ value a).
Proof.
  intros Ha Hb. unfold operator_ge, operator_le. rewrite negb_true_iff.
  pose proof (operator_gt_value b a Hb Ha) as H.
  destruct (operator_gt b a); split; try done.
  - intros. assert (value a < value b) by (by apply H). lia.
  - intros _. destruct (decide (value a < value b)) as [C|]; [|lia].
    apply H in C. done.
Qed.

Lemma operator_eq_value a b : wf a → wf b → (operator_eq a b = true ↔ value a = value b).
Proof.
  intros Ha Hb.
  pose proof Ha as [Hla Hca]. pose proof Hb as [Hlb Hcb].
  pose proof (abs_value_bound _ Hla). pose proof (abs_value_bound _ Hlb).
  pose proof (is_negative_pos a Ha) as Hpa. pose proof (is_negative_pos b Hb) as Hpb.
  rewrite !value_is_negative. unfold operator_eq.
  rewrite andb_true_iff, bool_decide_eq_true, Bool.eqb_true_iff.
  split.
  - intros [-> ->]. done.
  - intros Hv.
    destruct (is_negative a) eqn:Ea, (is_negative b) eqn:Eb;
      try (specialize (Hpa eq_refl)); try (specialize (Hpb eq_refl)); try lia;
      (split; [done|]); apply canonical_unique; try done; lia.
Qed.

Lemma operator_lt_zero this : wf this → 0 ≤ value this → operator_lt this (big_integer_ll 0) = false.
Proof.
  intros Hwf Hv. unfold operator_lt.
  pose proof (operator_gt_value (big_integer_ll 0) this (big_integer_ll_wf 0) Hwf) as H.
  destruct (operator_gt (big_integer_ll 0) this); [|done].
  assert (value this < value (big_integer_ll 0)) as C by (by apply H).
  change (value (big_integer_ll 0)) with 0 in C. lia.
Qed.

Lemma div_rem_correct_nonneg fuel rhs q this :
  wf this → 0 ≤ value this → div_rem_correct fuel rhs q this = Ok (q, this).
Proof. intros Hwf Hv. destruct fuel; cbn; by rewrite operator_lt_zero. Qed.

(** The limbs of a canonical number below the square of the base. *)
Lemma wf_small_cases d :
  limbs_ok d → canonical d → 0 < abs_value d < DIGIT_BASE * DIGIT_BASE →
  (∃ x, d = [x] ∧ 0 < x < DIGIT_BASE) ∨
  (∃ lo hi, d = [lo; hi] ∧ 0 ≤ lo < DIGIT_BASE ∧ 0 < hi < DIGIT_BASE).
Proof.
  intros Hl Hc Hv. destruct d as [|l0 [|l1 [|l2 rest]]].
  - simpl in Hv. lia.
  - left. exists l0. apply limbs_ok_cons in Hl as [? _]. simpl in Hv. split; [done|lia].
  - right. exists l0, l1. apply limbs_ok_cons in Hl as [? [? _]%limbs_ok_cons].
    split; [done|]. split; [done|].
    assert (l1 ≠ 0); [|lia]. intros ->. by apply (Hc).
  - pose proof (canonical_lower _ Hl Hc ltac:(done)) as Hlow.
    replace (Z.of_nat (length (l0 :: l1 :: l2 :: rest)) - 1)
      with (2 + Z.of_nat (length rest)) in Hlow by (simpl; lia).
    rewrite Z.pow_add_r in Hlow by lia.
    assert (0 < DIGIT_BASE ^ Z.of_nat (length rest)) by (apply Z.pow_pos_nonneg; [done|lia]).
    change (DIGIT_BASE ^ 2) with (DIGIT_BASE * DIGIT_BASE) in Hlow.
    assert (0 < DIGIT_BASE * DIGIT_BASE) by done. nia.
Qed.

Lemma shift_one_value k : 0 ≤ k ≤ 31 → to_digit (Z.shiftl 1 k) = 2 ^ k.
Proof.
  intros Hk. rewrite Z.shiftl_mul_pow2, Z.mul_1_l by lia. apply to_digit_small.
  split; [apply Z.pow_nonneg; lia|]. limb_consts. change 4294967296 with (2 ^ 32).
  apply Z.pow_lt_mono_r; lia.
Qed.

Lemma value_abs a : limbs_ok (_data a) → Z.abs (value a) = abs_value (_data a).
Proof.
  intros Hl. pose proof (abs_value_bound _ Hl). unfold value. destruct (_negative a); lia.
Qed.

Lemma wf_length_le d n :
  limbs_ok d → canonical d → abs_value d < DIGIT_BASE ^ Z.of_nat n → (length d ≤ n)%nat.
Proof.
  intros Hl Hc Hv. destruct (decide (d = [])) as [->|Hne]; [simpl; lia|].
  pose proof (canonical_lower d Hl Hc Hne) as Hlow.
  assert (Z.of_nat (length d) - 1 < Z.of_nat n); [|lia].
  apply (Z.pow_lt_mono_r_iff DIGIT_BASE); [done|lia|lia].
Qed.

(** The remainder left by [div_rem]: the working dividend, unshifted. *)
Lemma div_rem_tail this k f R :
  wf this → 0 ≤ k ≤ 31 → abs_value (_data this) = R * 2 ^ k →
  let rem := trim (mk_big_integer (_data this) false) in
  let rem := fst (abs_divide_int (to_digit (Z.shiftl 1 k)) rem) in
  let rem := mk_big_integer (_data rem) f in
  wf rem ∧ abs_value (_data rem) = R.
Proof.
  intros [Hl Hc] Hk Hv. cbv zeta.
  assert (0 < 2 ^ k) as H2k by (apply Z.pow_pos_nonneg; lia).
  assert (2 ^ k < DIGIT_BASE).
  { change DIGIT_BASE with (2 ^ 32). apply Z.pow_lt_mono_r; lia. }
  rewrite shift_one_value by done.
  pose proof (abs_divide_int_spec (2 ^ k) (trim (mk_big_integer (_data this) false))) as Hd.
  cbn [trim _data _negative] in *.
  specialize (Hd (trim_data_limbs _ Hl) ltac:(lia)).
  destruct (abs_divide_int _ _) as [rem r]. destruct Hd as (Hwf & _ & Hq & _).
  cbn [fst]. split; [exact Hwf|]. cbn [_data]. rewrite Hq, abs_value_trim, Hv.
  by rewrite Z.div_mul by lia.
Qed.

Lemma div_rem_single fuel a b x y :
  _data a = [x] → _data b = [y] → 0 < x < DIGIT_BASE → 0 < y < DIGIT_BASE →
  ∃ q r, div_rem fuel b a = Ok (q, r) ∧ wf q ∧ wf r ∧
    _negative q = xorb (is_negative a) (is_negative b) ∧
    abs_value (_data q) = x `div` y ∧
    _negative r = is_negative a ∧
    abs_value (_data r) = x `mod` y.
Proof.
  intros Ea Eb Hx Hy. unfold div_rem.
  assert (is_zero b = false) as -> by (unfold is_zero; by rewrite Eb).
  assert (is_zero a = false) as -> by (unfold is_zero; by rewrite Ea).
  rewrite Ea, Eb. cbn [length Nat.ltb Nat.leb orb].
  assert (wf (mk_big_integer [y] false)) as Hwfb.
  { split; cbn; [repeat constructor; lia|]. intros [=]. lia. }
  assert (limbs_ok [x]) as Hlx by (repeat constructor; lia).
  destruct (normalize_top (mk_big_integer [y] false) Hwfb eq_refl)
    as (rb & k & top & Hn & Hk & Hwfr & Hfr & Hvr & Hlr & Htop & Hhalf).
  rewrite Hn. cbn [mbind outcome_bind]. cbn [_data _negative] in Hfr, Hvr, Hlr.
  destruct rb as [db fb]. cbn [_data _negative] in *. subst fb.
  destruct db as [|y' [|? ?]]; try done. cbn in Htop. injection Htop as ->.
  cbn [abs_value] in Hvr. rewrite Z.mul_0_r, !Z.add_0_r in Hvr. clear Hlr Hn.
  change (DIGIT_BASE `div` 2) with 2147483648 in Hhalf.
  assert (0 ≤ k < 2 ^ 31) as Hk31 by (change (2 ^ 31) with 2147483648; lia).
  destruct (operator_shl_assign_abs k (mk_big_integer [x] false) Hlx Hk31) as [HfA HvA].
  pose proof (operator_shl_assign_wf k (mk_big_integer [x] false) Hlx) as HwfA.
  assert (∃ A, A = operator_shl_assign k (mk_big_integer [x] false)) as [A EA] by eauto.
  rewrite <- EA in *. clear EA. destruct A as [dA fA]. cbn [_data _negative] in *. subst fA.
  cbn [abs_value] in HvA. rewrite Z.mul_0_r, !Z.add_0_r in HvA.
  assert (DIGIT_BASE = 4294967296) as HB by reflexivity.
  assert (0 < 2 ^ k) as H2k by (apply Z.pow_pos_nonneg; lia).
  assert (2 ^ k ≤ 2147483648) as H2k'.
  { change 2147483648 with (2 ^ 31). apply Z.pow_le_mono_r; lia. }
  assert (top < DIGIT_BASE) as Htopb.
  { destruct Hwfr as [[? _]%limbs_ok_cons _]. cbn in *. lia. }
  assert (x `div` y = (x * 2 ^ k) `div` (y * 2 ^ k)) as Hquot
    by (by rewrite Z.div_mul_cancel_r by lia).
  pose proof (Z.div_mod x y ltac:(lia)) as Hdm.
  pose proof (Z.mod_pos_bound x y ltac:(lia)) as Hmod.
  assert (0 ≤ x `div` y) as Hq0 by (apply Z.div_pos; lia).
  assert (x `div` y ≤ x) as Hqx by (apply Z.div_le_upper_bound; nia).
  destruct (wf_small_cases dA (proj1 HwfA) (proj2 HwfA))
    as [(x' & -> & Hx')|(lo & hi & -> & Hlo & Hhi)].
  { rewrite HvA. limb_consts. nia. }
  - (* the shifted dividend has one limb *)
    cbn [length Nat.leb Nat.sub replicate app]. cbn [abs_value] in HvA.
    rewrite Z.mul_0_r, Z.add_0_r in HvA.
    pose proof (operator_ge_value (mk_big_integer [x'] false) (mk_big_integer [top] false)
                  HwfA Hwfr) as Hge.
    unfold value in Hge. cbn in Hge. rewrite !Z.add_0_r in Hge.
    destruct (operator_ge _ _).
    + assert (top ≤ x') as Hle by (by apply Hge).
      destruct (abs_subtract_in_place (mk_big_integer [top] false) (mk_big_integer [x'] false))
        as (r & Hr & Hwfr' & Hfr' & Hvr'); cbn [_data]; try done; try apply HwfA; try apply Hwfr.
      { cbn. lia. }
      rewrite Hr. cbn [mbind outcome_bind div_rem_loop list_insert replicate].
      cbn [abs_value _data] in Hvr'. rewrite ?Z.mul_0_r, ?Z.add_0_r in Hvr'.
      assert (x `div` y = 1 ∧ x `mod` y = x - y) as [Hq1 Hr1].
      { assert (y ≤ x) by nia. assert (x < 2 * y) by nia.
        assert (x `div` y = 1); [|lia].
        symmetry. apply (Z.div_unique x y 1 (x - y)); lia. }
      destruct (div_rem_tail r k (is_negative a) (x - y) Hwfr' Hk) as [Hwfrem Hvrem].
      { rewrite Hvr'. lia. }
      cbv zeta in Hwfrem, Hvrem.
      eexists _, _. split; [reflexivity|].
      split; [apply trim_wf; repeat constructor; by vm_compute|].
      split; [exact Hwfrem|]. split; [done|].
      split; [|split; [done|by rewrite Hvrem]].
      cbn. lia.
    + assert (x' < top) as Hlt.
      { destruct (decide (top ≤ x')) as [C|]; [|lia]. apply Hge in C. done. }
      cbn [mbind outcome_bind div_rem_loop list_insert replicate].
      assert (x `div` y = 0 ∧ x `mod` y = x) as [Hq1 Hr1].
      { assert (x < y) by nia. rewrite Z.div_small, Z.mod_small by lia. done. }
      destruct (div_rem_tail (mk_big_integer [x'] false) k (is_negative a) x HwfA Hk)
        as [Hwfrem Hvrem].
      { cbn. lia. }
      cbv zeta in Hwfrem, Hvrem.
      eexists _, _. split; [reflexivity|].
      split; [apply trim_wf; repeat constructor; by vm_compute|].
      split; [exact Hwfrem|]. split; [done|].
      split; [|split; [done|by rewrite Hvrem]].
      cbn. lia.
  - (* the shifted dividend has two limbs *)
    cbn [length Nat.leb Nat.sub replicate app]. cbn [abs_value] in HvA.
    rewrite Z.mul_0_r, Z.add_0_r in HvA.
    assert (wf (mk_big_integer [0; top] false)) as Hwf0.
    { split; cbn; [repeat constructor; lia|]. intros [=]. lia. }
    pose proof (operator_ge_value (mk_big_integer [lo; hi] false) (mk_big_integer [0; top] false)
                  HwfA Hwf0) as Hge.
    unfold value in Hge. cbn [_data _negative abs_value] in Hge.
    rewrite !Z.mul_0_r, !Z.add_0_r, Z.add_0_l in Hge.
    destruct (operator_ge _ _).
    { assert (DIGIT_BASE * top ≤ lo + DIGIT_BASE * hi) as C by (by apply Hge). nia. }
    clear Hge.
    cbn [mbind outcome_bind div_rem_loop length Nat.ltb Nat.leb _data _negative back last
         Nat.sub vec_at lookup list_lookup].
    assert ((top =? 0) = false) as -> by (apply Z.eqb_neq; lia).
    assert (Z.lor (to_double (Z.shiftl hi DIGIT_BITS)) lo = x * 2 ^ k) as ->.
    { rewrite shiftl_32, to_double_small by (limb_consts; lia).
      rewrite lor_limb by lia. lia. }
    assert (to_digit (Z.min ((x * 2 ^ k) `div` top) (DIGIT_BASE - 1)) = x `div` y) as ->.
    { rewrite Hvr, <- Hquot. rewrite Z.min_l by lia. apply to_digit_small. lia. }
    assert (∃ qd, qd = x `div` y) as [qd Eqd] by eauto. rewrite <- Eqd in *.
    (* the product of the quotient limb and the divisor *)
    unfold operator_mul, operator_mul_assign. cbn [deref].
    destruct (abs_mul_spec (mk_big_integer [top] false)
                (mk_big_integer (_data (big_integer_ull qd false))
                   (xorb (_negative (big_integer_ull qd false))
                      (is_negative (mk_big_integer [top] false)))))
      as (prod & Hprod & Hwfp & Hfp & Hvp).
    { cbn [_data]. apply big_integer_ull_wf. change (2 ^ 64) with 18446744073709551616. lia. }
    { apply Hwfr. }
    rewrite Hprod. cbn [mbind outcome_bind].
    cbn [_data _negative] in Hfp, Hvp. rewrite big_integer_ull_negative in Hfp.
    rewrite big_integer_ull_abs in Hvp by (change (2 ^ 64) with 18446744073709551616; lia).
    cbn in Hfp. cbn [abs_value] in Hvp. rewrite Z.mul_0_r, Z.add_0_r in Hvp.
    assert (qd * top + (x `mod` y) * 2 ^ k = x * 2 ^ k) as Hrel by (rewrite Hvr; nia).
    assert (0 ≤ (x `mod` y) * 2 ^ k) as Hrem0 by (apply Z.mul_nonneg_nonneg; lia).
    (* the subtraction of the product *)
    unfold operator_minus_assign.
    destruct (operator_plus_assign_value (negate (mk_big_integer [lo; hi] false)) prod)
      as (r1 & Hr1 & Hwf1 & Hv1); try done.
    { right. cbn [negate _data length].
      apply wf_length_le; [apply Hwfp|apply Hwfp|].
      change (DIGIT_BASE ^ Z.of_nat 2) with (DIGIT_BASE * DIGIT_BASE). nia. }
    rewrite Hr1. cbn [mbind outcome_bind].
    assert (value (negate r1) = (x `mod` y) * 2 ^ k) as Hv2.
    { rewrite value_negate, Hv1, value_negate. unfold value. rewrite Hfp, Hvp.
      cbn [_data _negative abs_value]. lia. }
    assert (wf (negate r1)) as Hwf2 by (by apply negate_wf).
    rewrite div_rem_correct_nonneg by (done || lia).
    cbn [mbind outcome_bind div_rem_loop list_insert].
    destruct (div_rem_tail (negate r1) k (is_negative a) (x `mod` y) Hwf2 Hk)
      as [Hwfrem Hvrem].
    { rewrite <- value_abs by apply Hwf2. rewrite Hv2. lia. }
    cbv zeta in Hwfrem, Hvrem.
    eexists _, _. split; [reflexivity|].
    split.
    { apply trim_wf. cbn [_data]. repeat constructor; try done; lia. }
    split; [exact Hwfrem|]. split; [done|].
    split; [|split; [done|by rewrite Hvrem]].
    cbn [trim _data]. rewrite abs_value_trim. simpl. lia.
Qed.

(** * The class template [vector] *)

Lemma copy_elems_none {T} (copy : T → option T) src : ∀ dst,
  vector.copy_elems copy src dst = None ↔ ∃ y, y ∈ src ∧ copy y = None.
Proof.
  induction src as [|x src IH]; intros dst; simpl.
  - split; [done|]. intros (y & Hy & _). by apply elem_of_nil in Hy.
  - destruct (copy x) as [x'|] eqn:Ex.
    + rewrite IH. split.
      * intros (y & Hy & Hn). exists y. split; [by apply elem_of_cons; right|done].
      * intros (y & Hy & Hn). apply elem_of_cons in Hy as [->|Hy]; [congruence|eauto].
    + split; [|done]. intros _. exists x. split; [apply elem_of_cons; by left|done].
Qed.

Section vector_lemmas.
Context {T : Type} (copy : T → option T).
Hypothesis copy_faithful : vector.faithful copy.

Lemma copy_elems_faithful src : ∀ dst, vector.copy_elems copy src dst = Some (dst ++ src).
Proof using copy_faithful.
  induction src as [|x src IH]; intros dst; simpl.
  - by rewrite app_nil_r.
  - rewrite copy_faithful, IH. by rewrite <- app_assoc.
Qed.

Lemma vector_copy_capacity_faithful (other : vector.vector T) n :
  (vector.size other ≤ n)%nat →
  vector.vector_copy_capacity copy other n = vector.Ret (vector.mk_vector (vector.elems other) n).
Proof using copy_faithful.
  intros Hn. unfold vector.vector_copy_capacity.
  assert ((vector.size other <=? n)%nat = true) as -> by (by apply Nat.leb_le).
  cbn [negb]. destruct (Nat.eqb_spec n 0) as [->|Hne].
  - unfold vector.size in Hn. destruct (vector.elems other); [done|simpl in Hn; lia].
  - by rewrite copy_elems_faithful.
Qed.

Lemma push_back_fits fuel x (v : vector.vector T) :
  vector.fits v →
  vector.push_back copy (S fuel) x v =
    vector.Ret (vector.mk_vector (vector.elems v ++ [x])
      (if (vector.size v <? vector.capacity v)%nat then vector.capacity v
       else if (vector.capacity v =? 0)%nat then 1%nat
       else (vector.capacity v * 2)%nat)).
Proof using copy_faithful.
  unfold vector.fits. intros Hfit. cbn [vector.push_back].
  destruct (Nat.leb_spec (vector.size v + 1) (vector.capacity v)) as [Hle|Hgt].
  - rewrite copy_faithful.
    assert ((vector.size v <? vector.capacity v)%nat = true) as ->
      by (apply Nat.ltb_lt; lia).
    done.
  - assert ((vector.size v <? vector.capacity v)%nat = false) as ->
      by (apply Nat.ltb_ge; lia).
    assert (∃ c, c = if (vector.capacity v =? 0)%nat then 1%nat
                     else (vector.capacity v * 2)%nat) as [c Hc] by eauto.
    rewrite <- Hc.
    assert (vector.size v + 1 ≤ c)%nat as Hroom.
    { rewrite Hc. destruct (Nat.eqb_spec (vector.capacity v) 0); lia. }
    rewrite vector_copy_capacity_faithful by lia. cbn [mbind vector.result_bind].
    assert (∀ f, vector.push_back copy f x (vector.mk_vector (vector.elems v) c)
                 = vector.Ret (vector.mk_vector (vector.elems v ++ [x]) c)) as Hin.
    { intros f. destruct f; cbn [vector.push_back];
        unfold vector.size, vector.capacity in *; cbn [vector.elems vector.capacity_];
        (assert ((length (vector.elems v) + 1 <=? c)%nat = true) as ->
           by (by apply Nat.leb_le)); by rewrite copy_faithful. }
    apply Hin.
Qed.

Lemma push_back_keeps_fits fuel x (v v' : vector.vector T) :
  vector.fits v → vector.push_back copy (S fuel) x v = vector.Ret v' → vector.fits v'.
Proof using copy_faithful.
  intros Hfit. rewrite push_back_fits by done. intros [= <-].
  unfold vector.fits, vector.size, vector.capacity in *.
  cbn [vector.elems vector.capacity_]. rewrite length_app. cbn [length].
  destruct (Nat.ltb_spec (length (vector.elems v)) (vector.capacity_ v)); [lia|].
  destruct (Nat.eqb_spec (vector.capacity_ v) 0); lia.
Qed.

End vector_lemmas.

(** The loop of [insert] carries the new element down over [mid]. *)
Lemma insert_loop_spec {T} k : ∀ (pre mid post : list T) x,
  length mid = k →
  vector.insert_loop k (length pre + k) (pre ++ mid ++ [x] ++ post)
  = vector.Ret (pre ++ [x] ++ mid ++ post).
Proof.
  induction k as [|k IH]; intros pre mid post x Hlen.
  - destruct mid; [|done]. done.
  - destruct mid as [|m mid _] using rev_ind; [done|].
    rewrite length_app in Hlen. simpl in Hlen.
    cbn [vector.insert_loop]. unfold vector.iter_swap.
    replace (length pre + S k - 1)%nat with (length pre + k)%nat by lia.
    assert ((pre ++ (mid ++ [m]) ++ [x] ++ post) !! (length pre + S k)%nat = Some x) as ->.
    { rewrite lookup_app_r by lia. rewrite <- app_assoc. rewrite lookup_app_r by lia.
      replace (length pre + S k - length pre - length mid)%nat with 1%nat by lia. done. }
    assert ((pre ++ (mid ++ [m]) ++ [x] ++ post) !! (length pre + k)%nat = Some m) as ->.
    { rewrite lookup_app_r by lia. rewrite <- app_assoc. rewrite lookup_app_r by lia.
      replace (length pre + k - length pre - length mid)%nat with 0%nat by lia. done. }
    cbn [mbind vector.result_bind].
    assert (<[(length pre + S k)%nat:=m]> (<[(length pre + k)%nat:=x]>
              (pre ++ (mid ++ [m]) ++ [x] ++ post))
            = pre ++ mid ++ [x] ++ (m :: post)) as ->.
    { rewrite <- !app_assoc.
      rewrite (insert_app_r_alt pre) by lia.
      rewrite (insert_app_r_alt mid) by lia.
      replace (length pre + k - length pre - length mid)%nat with 0%nat by lia.
      cbn [app list_insert].
      rewrite (insert_app_r_alt pre) by lia.
      rewrite (insert_app_r_alt mid) by lia.
      replace (length pre + S k - length pre - length mid)%nat with 1%nat by lia.
      done. }
    rewrite (IH pre mid (m :: post) x) by lia.
    by rewrite <- !app_assoc.
Qed.

(** [swap_ranges] on two runs of [n] elements that do not overlap. *)
Lemma swap_ranges_loop_spec {T} n : ∀ (pre A gap B post : list T),
  length A = n → length B = n →
  vector.swap_ranges_loop n (length pre + n + length gap) (length pre)
    (pre ++ A ++ gap ++ B ++ post)
  = vector.Ret (pre ++ B ++ gap ++ A ++ post).
Proof.
  induction n as [|n IH]; intros pre A gap B post HA HB.
  - destruct A, B; try done.
  - destruct A as [|a A]; [done|]. destruct B as [|b B]; [done|].
    simpl in HA, HB.
    cbn [vector.swap_ranges_loop]. unfold vector.iter_swap.
    assert ((pre ++ (a :: A) ++ gap ++ (b :: B) ++ post) !! (length pre + S n + length gap)%nat
            = Some b) as ->.
    { rewrite lookup_app_r by lia. rewrite lookup_app_r by (simpl; lia).
      rewrite lookup_app_r by (simpl; lia).
      replace (length pre + S n + length gap - length pre - length (a :: A) - length gap)%nat
        with 0%nat by (simpl; lia). done. }
    assert ((pre ++ (a :: A) ++ gap ++ (b :: B) ++ post) !! length pre = Some a) as ->.
    { rewrite lookup_app_r by lia. by rewrite Nat.sub_diag. }
    cbn [mbind vector.result_bind].
    assert (<[(length pre + S n + length gap)%nat:=a]> (<[length pre:=b]>
              (pre ++ (a :: A) ++ gap ++ (b :: B) ++ post))
            = (pre ++ [b]) ++ A ++ (gap ++ [a]) ++ B ++ post) as ->.
    { rewrite (insert_app_r_alt pre) by lia. rewrite Nat.sub_diag.
      rewrite (insert_app_r_alt pre) by lia.
      replace (length pre + S n + length gap - length pre)%nat
        with (S (length A + length gap)) by lia.
      cbn [app insert list_insert].
      rewrite (insert_app_r_alt A) by lia.
      rewrite (insert_app_r_alt gap) by lia.
      replace (length A + length gap - length A - length gap)%nat with 0%nat by lia.
      cbn [app insert list_insert]. by rewrite <- !app_assoc. }
    replace (S (length pre + S n + length gap))
      with (length (pre ++ [b]) + n + length (gap ++ [a]))%nat
      by (rewrite !length_app; simpl; lia).
    replace (S (length pre)) with (length (pre ++ [b])) by (rewrite length_app; simpl; lia).
    rewrite (IH (pre ++ [b]) A (gap ++ [a]) B post) by lia.
    by rewrite <- !app_assoc.
Qed.

Lemma removelast_firstn {T} (l : list T) : removelast l = take (length l - 1) l.
Proof.
  induction l as [|x l IH] using rev_ind; [done|].
  rewrite removelast_last, length_app. simpl.
  replace (length l + 1 - 1)%nat with (length l) by lia.
  by rewrite take_app_length.
Qed.

Lemma pop_until_spec {T} fuel : ∀ new_size (v : vector.vector T),
  (new_size ≤ vector.size v)%nat → (vector.size v - new_size ≤ fuel)%nat →
  vector.pop_until fuel new_size v
  = vector.Ret (vector.mk_vector (take new_size (vector.elems v)) (vector.capacity_ v)).
Proof.
  induction fuel as [|fuel IH]; intros new_size v Hle Hfuel.
  - cbn [vector.pop_until].
    assert ((vector.size v =? new_size)%nat = true) as -> by (apply Nat.eqb_eq; lia).
    unfold vector.size in *. rewrite take_ge by lia. by destruct v.
  - cbn [vector.pop_until].
    destruct (Nat.eqb_spec (vector.size v) new_size) as [E|E].
    + unfold vector.size in *. rewrite take_ge by lia. by destruct v.
    + unfold vector.pop_back, vector.empty.
      assert ((vector.size v =? 0)%nat = false) as -> by (apply Nat.eqb_neq; lia).
      cbn [mbind vector.result_bind].
      unfold vector.size in *.
      rewrite IH; cbn [vector.elems vector.capacity_].
      * rewrite removelast_firstn, take_take. do 2 f_equal. f_equal. lia.
      * rewrite removelast_firstn, length_take. lia.
      * rewrite removelast_firstn, length_take. lia.
Qed.

(** * The class template [matrix] *)

Lemma offset_in_range (i k R C : nat) : (i < R)%nat → (k < C)%nat → (i * C + k < R * C)%nat.
Proof.
  intros Hi Hk. assert (S i * C ≤ R * C)%nat by (apply Nat.mul_le_mono_r; lia).
  simpl in *. lia.
Qed.

Lemma lookup_map_seq {A} (f : nat → A) n : ∀ k i,
  (i < n)%nat → map f (seq k n) !! i = Some (f (k + i)%nat).
Proof.
  induction n as [|n IH]; intros k i Hi; [lia|].
  destruct i as [|i]; simpl.
  - by rewrite Nat.add_0_r.
  - rewrite IH by lia. do 2 f_equal. lia.
Qed.

Lemma Forall_map_seq {A} (P : A → Prop) (f : nat → A) n k :
  (∀ i, P (f i)) → Forall P (map f (seq k n)).
Proof.
  intros H. revert k. induction n as [|n IH]; intros k; simpl; [constructor|].
  constructor; [apply H|apply IH].
Qed.

Lemma buffer_at_entry {T} (zero : T) (m : matrix.matrix T) i k :
  matrix.shaped m → (i < matrix.rows m)%nat → (k < matrix.cols m)%nat →
  matrix.buffer_at m (i * matrix.cols m + k) = matrix.Ret (matrix.entry zero m i k).
Proof.
  unfold matrix.shaped, matrix.size, matrix.entry, matrix.elements, matrix.buffer_at.
  intros Hs Hi Hk. pose proof (offset_in_range i k _ _ Hi Hk) as Hlt.
  destruct (matrix._data m) as [l|]; simpl in *; [|lia].
  destruct (lookup_lt_is_Some_2 l (i * matrix.cols m + k)) as [x Hx]; [lia|].
  by rewrite Hx.
Qed.

Section matrix_lemmas.
Context {T : Type} (zero : T) (add mul : T → T → T).

Lemma inner_product_loop_spec (a b : matrix.matrix T) i j n : ∀ k acc,
  matrix.shaped a → matrix.shaped b → matrix.cols a = matrix.rows b →
  (i < matrix.rows a)%nat → (j < matrix.cols b)%nat → (k + n = matrix.cols a)%nat →
  matrix.inner_product_loop add mul n k a b i j acc
  = matrix.Ret (fold_left (λ acc k, add acc (mul (matrix.entry zero a i k) (matrix.entry zero b k j)))
                  (seq k n) acc).
Proof.
  induction n as [|n IH]; intros k acc Ha Hb Hab Hi Hj Hk; [done|].
  cbn [matrix.inner_product_loop seq fold_left].
  rewrite (buffer_at_entry zero a i k) by (done || lia).
  cbn [mbind matrix.result_bind].
  rewrite (buffer_at_entry zero b k j) by (done || lia).
  cbn [mbind matrix.result_bind].
  apply IH; try done. lia.
Qed.

Lemma inner_product_spec (a b : matrix.matrix T) i j :
  matrix.shaped a → matrix.shaped b → matrix.cols a = matrix.rows b →
  (i < matrix.rows a)%nat → (j < matrix.cols b)%nat →
  matrix.inner_product zero add mul a b i j = matrix.Ret (matrix.dot zero add mul a b i j).
Proof.
  intros Ha Hb Hab Hi Hj. unfold matrix.inner_product.
  assert ((i <? matrix.rows a)%nat = true) as -> by (by apply Nat.ltb_lt).
  assert ((j <? matrix.cols b)%nat = true) as -> by (by apply Nat.ltb_lt).
  cbn [negb]. by apply inner_product_loop_spec.
Qed.

Lemma multiply_inner_spec (a b : matrix.matrix T) i R n : ∀ j pre zs,
  matrix.shaped a → matrix.shaped b → matrix.cols a = matrix.rows b →
  (i < matrix.rows a)%nat → (i < R)%nat →
  (j + n = matrix.cols b)%nat → length pre = (i * matrix.cols b + j)%nat →
  (n ≤ length zs)%nat →
  matrix.multiply_inner zero add mul n j a b
    (matrix.mk_matrix (Some (pre ++ zs)) R (matrix.cols b)) i
  = matrix.Ret (matrix.mk_matrix
      (Some (pre ++ map (matrix.dot zero add mul a b i) (seq j n) ++ drop n zs))
      R (matrix.cols b)).
Proof.
  induction n as [|n IH]; intros j pre zs Ha Hb Hab Hi HiR Hj Hpre Hzs.
  - cbn. by rewrite drop_0.
  - cbn [matrix.multiply_inner]. rewrite inner_product_spec by (done || lia).
    cbn [mbind matrix.result_bind].
    destruct zs as [|z zs]; [simpl in Hzs; lia|].
    unfold matrix.assign_at, matrix.buffer_set, matrix.rows, matrix.cols.
    cbn [matrix._data matrix._rows matrix._cols].
    assert ((i <? R)%nat = true) as -> by (by apply Nat.ltb_lt).
    cbn [negb]. fold (matrix.cols b). rewrite <- Hpre.
    rewrite decide_True by (rewrite length_app; simpl; lia).
    cbn [mbind matrix.result_bind].
    rewrite insert_app_r_alt, Nat.sub_diag by lia. cbn [insert list_insert].
    replace (pre ++ matrix.dot zero add mul a b i j :: zs)
      with ((pre ++ [matrix.dot zero add mul a b i j]) ++ zs) by (by rewrite <- app_assoc).
    rewrite (IH (S j) (pre ++ [matrix.dot zero add mul a b i j]) zs); try done.
    + cbn [seq map drop]. by rewrite <- !app_assoc.
    + lia.
    + rewrite length_app. simpl. lia.
    + simpl in Hzs. lia.
Qed.

Lemma product_row_length (a b : matrix.matrix T) i :
  length (matrix.product_row zero add mul a b i) = matrix.cols b.
Proof. unfold matrix.product_row. by rewrite length_map, length_seq. Qed.

Lemma multiply_outer_spec (a b : matrix.matrix T) R n : ∀ i pre zs,
  matrix.shaped a → matrix.shaped b → matrix.cols a = matrix.rows b →
  (i + n = matrix.rows a)%nat → matrix.rows a = R →
  length pre = (i * matrix.cols b)%nat → length zs = (n * matrix.cols b)%nat →
  matrix.multiply_outer zero add mul n i a b
    (matrix.mk_matrix (Some (pre ++ zs)) R (matrix.cols b))
  = matrix.Ret (matrix.mk_matrix
      (Some (pre ++ concat (map (matrix.product_row zero add mul a b) (seq i n)))) R (matrix.cols b)).
Proof.
  induction n as [|n IH]; intros i pre zs Ha Hb Hab Hi HR Hpre Hzs.
  - destruct zs; [|done]. done.
  - cbn [matrix.multiply_outer].
    unfold matrix.cols at 1. cbn [matrix._cols]. fold (matrix.cols b).
    rewrite (multiply_inner_spec a b i R (matrix.cols b) 0 pre zs); try done; try lia.
    cbn [mbind matrix.result_bind]. fold (matrix.product_row zero add mul a b i).
    rewrite app_assoc.
    rewrite (IH (S i) (pre ++ matrix.product_row zero add mul a b i) (drop (matrix.cols b) zs)); try done.
    + cbn [seq map concat]. by rewrite <- !app_assoc.
    + lia.
    + rewrite length_app, product_row_length. simpl. lia.
    + rewrite length_drop, Hzs. simpl. lia.
Qed.

Lemma concat_uniform_lookup (c : nat) (ls : list (list T)) : ∀ i j,
  Forall (λ l, length l = c) ls → (j < c)%nat →
  concat ls !! (i * c + j)%nat = ls !! i ≫= (.!! j).
Proof.
  induction ls as [|l ls IH]; intros i j Hall Hj; [done|].
  apply Forall_cons in Hall as [Hl Hall]. destruct i as [|i]; simpl.
  - rewrite lookup_app_l by lia. done.
  - rewrite lookup_app_r by lia. rewrite Hl.
    replace (c + i * c + j - c)%nat with (i * c + j)%nat by lia. by apply IH.
Qed.

Lemma multiply_spec (a b : matrix.matrix T) :
  matrix.shaped a → matrix.shaped b → matrix.cols a = matrix.rows b →
  matrix.multiply zero add mul a b =
    matrix.Ret (if (matrix.rows a * matrix.cols b =? 0)%nat then matrix.matrix_default
                else matrix.mk_matrix
                       (Some (concat (map (matrix.product_row zero add mul a b) (seq 0 (matrix.rows a)))))
                       (matrix.rows a) (matrix.cols b)).
Proof.
  intros Ha Hb Hab. unfold matrix.multiply, matrix.matrix_new.
  assert ((matrix.cols a =? matrix.rows b)%nat = true) as -> by (by apply Nat.eqb_eq).
  cbn [negb]. destruct (Nat.eqb_spec (matrix.rows a * matrix.cols b) 0) as [E|E].
  - assert (∀ n i, matrix.cols b = 0%nat ∨ n = 0%nat →
              matrix.multiply_outer zero add mul n i a b (matrix.mk_matrix None 0 0)
              = matrix.Ret (matrix.mk_matrix None 0 0)) as Hloop.
    { induction n as [|n IH]; intros i Hc; [done|].
      destruct Hc as [Hc|?]; [|done].
      cbn [matrix.multiply_outer]. rewrite Hc. cbn [matrix.multiply_inner mbind matrix.result_bind].
      apply IH. by left. }
    apply Hloop. lia.
  - pose proof (multiply_outer_spec a b (matrix.rows a) (matrix.rows a) 0 []
                  (replicate (matrix.rows a * matrix.cols b) zero)) as Hloop.
    cbn [app] in Hloop. apply Hloop; try done. by rewrite length_replicate.
Qed.

End matrix_lemmas.

(** * Sums and equality of matrices *)

Lemma buffer_at_elements {T} (m : matrix.matrix T) idx x :
  matrix.elements m !! idx = Some x → matrix.buffer_at m idx = matrix.Ret x.
Proof.
  unfold matrix.elements, matrix.buffer_at. destruct (matrix._data m); simpl; [|done].
  by intros ->.
Qed.

Lemma transform_loop_spec {T} (op : T → T → T) (a b : matrix.matrix T) R C n : ∀ idx pre zs,
  length (matrix.elements a) = (idx + n)%nat → length (matrix.elements b) = (idx + n)%nat →
  length pre = idx → length zs = n →
  matrix.transform_loop n idx op a b (matrix.mk_matrix (Some (pre ++ zs)) R C)
  = matrix.Ret (matrix.mk_matrix
      (Some (pre ++ zip_with op (drop idx (matrix.elements a)) (drop idx (matrix.elements b))))
      R C).
Proof.
  induction n as [|n IH]; intros idx pre zs Ha Hb Hpre Hzs.
  - destruct zs; [|done]. rewrite !drop_ge by lia. done.
  - destruct zs as [|z zs]; [done|]. simpl in Hzs.
    destruct (lookup_lt_is_Some_2 (matrix.elements a) idx ltac:(lia)) as [x Hx].
    destruct (lookup_lt_is_Some_2 (matrix.elements b) idx ltac:(lia)) as [y Hy].
    cbn [matrix.transform_loop].
    rewrite (buffer_at_elements a idx x Hx), (buffer_at_elements b idx y Hy).
    cbn [mbind matrix.result_bind]. unfold matrix.buffer_set. cbn [matrix._data matrix._rows matrix._cols].
    rewrite decide_True by (rewrite length_app; simpl; lia).
    cbn [mbind matrix.result_bind].
    rewrite insert_app_r_alt by lia. replace (idx - length pre)%nat with 0%nat by lia.
    cbn [insert list_insert].
    replace (pre ++ op x y :: zs) with ((pre ++ [op x y]) ++ zs) by (by rewrite <- app_assoc).
    rewrite (IH (S idx) (pre ++ [op x y]) zs); try lia.
    + rewrite (drop_S _ _ _ Hx), (drop_S _ _ _ Hy). cbn [zip_with]. by rewrite <- app_assoc.
    + rewrite length_app. simpl. lia.
Qed.

Lemma operator_plus_spec {T} (zero : T) (add : T → T → T) (a b : matrix.matrix T) :
  matrix.shaped a → matrix.shaped b →
  matrix.rows a = matrix.rows b → matrix.cols a = matrix.cols b →
  matrix.operator_plus zero add a b
  = matrix.Ret (matrix.mk_matrix
      (Some (zip_with add (matrix.elements a) (matrix.elements b)))
      (matrix.rows a) (matrix.cols a)).
Proof.
  unfold matrix.shaped, matrix.size. intros Ha Hb Hr Hc.
  unfold matrix.operator_plus, matrix.matrix_combine, matrix.transform.
  rewrite Hr, Hc, !Nat.eqb_refl. cbn [andb negb].
  pose proof (transform_loop_spec add a b (matrix.rows b) (matrix.cols b)
                (matrix.size a) 0 [] (replicate (matrix.size a) zero)) as H.
  cbn [app] in H. rewrite !drop_0 in H. unfold matrix.size in *. rewrite Hr, Hc in *.
  apply H; try done. by rewrite length_replicate.
Qed.

Lemma equal_loop_same {T} (eqb : T → T → bool) (a b : matrix.matrix T) n : ∀ idx,
  (∀ x, eqb x x = true) →
  matrix.elements a = matrix.elements b → length (matrix.elements a) = (idx + n)%nat →
  matrix.equal_loop eqb n idx a b = matrix.Ret true.
Proof.
  induction n as [|n IH]; intros idx Hrefl Heq Hlen; [done|].
  destruct (lookup_lt_is_Some_2 (matrix.elements a) idx ltac:(lia)) as [x Hx].
  cbn [matrix.equal_loop]. rewrite (buffer_at_elements a idx x Hx).
  rewrite Heq in Hx. rewrite (buffer_at_elements b idx x Hx).
  cbn [mbind matrix.result_bind]. rewrite Hrefl. apply IH; try done. lia.
Qed.

Lemma zip_with_map_same {A B} (f : B → B → B) (g h : A → B) (l : list A) :
  zip_with f (map g l) (map h l) = map (λ x, f (g x) (h x)) l.
Proof. induction l as [|x l IH]; simpl; [done|]. by rewrite IH. Qed.

Lemma zip_with_concat_rows {B} (f : B → B → B) (g h : nat → list B) c n : ∀ k,
  (∀ i, length (g i) = c) → (∀ i, length (h i) = c) →
  zip_with f (concat (map g (seq k n))) (concat (map h (seq k n)))
  = concat (map (λ i, zip_with f (g i) (h i)) (seq k n)).
Proof.
  induction n as [|n IH]; intros k Hg Hh; [done|].
  cbn [seq map concat]. rewrite zip_with_app by (by rewrite Hg, Hh).
  by rewrite IH.
Qed.

Lemma product_rows_length {T} (zero : T) (add mul : T → T → T) (a b : matrix.matrix T) n : ∀ k,
  length (concat (map (matrix.product_row zero add mul a b) (seq k n)))
  = (n * matrix.cols b)%nat.
Proof.
  induction n as [|n IH]; intros k; [done|].
  cbn [seq map concat]. rewrite length_app, product_row_length, IH. simpl. lia.
Qed.

Lemma entry_zip_with {T} (zero : T) (add : T → T → T) (b c : matrix.matrix T) k j :
  matrix.shaped b → matrix.shaped c →
  matrix.rows b = matrix.rows c → matrix.cols b = matrix.cols c →
  (k < matrix.rows b)%nat → (j < matrix.cols b)%nat →
  matrix.entry zero
    (matrix.mk_matrix (Some (zip_with add (matrix.elements b) (matrix.elements c)))
       (matrix.rows b) (matrix.cols b)) k j
  = add (matrix.entry zero b k j) (matrix.entry zero c k j).
Proof.
  unfold matrix.shaped, matrix.size. intros Hb Hc Hr Hcc Hk Hj.
  pose proof (offset_in_range k j _ _ Hk Hj) as Hlt.
  unfold matrix.entry at 1. unfold matrix.cols at 1.
  cbn [matrix._cols]. fold (matrix.cols b).
  change (matrix.elements (matrix.mk_matrix
            (Some (zip_with add (matrix.elements b) (matrix.elements c)))
            (matrix.rows b) (matrix.cols b)))
    with (zip_with add (matrix.elements b) (matrix.elements c)).
  rewrite lookup_zip_with.
  destruct (lookup_lt_is_Some_2 (matrix.elements b) (k * matrix.cols b + j)) as [x Hx]; [lia|].
  destruct (lookup_lt_is_Some_2 (matrix.elements c) (k * matrix.cols b + j)) as [y Hy];
    [rewrite Hc, <- Hr, <- Hcc; lia|].
  rewrite Hx, Hy. cbn. unfold matrix.entry. rewrite <- Hcc, Hx, Hy. done.
Qed.

Section distributivity.
Context {T : Type} (zero : T) (add mul : T → T → T).
Hypothesis add_assoc : ∀ x y z, add x (add y z) = add (add x y) z.
Hypothesis add_comm : ∀ x y, add x y = add y x.
Hypothesis add_zero : ∀ x, add zero x = x.
Hypothesis mul_add : ∀ x y z, mul x (add y z) = add (mul x y) (mul x z).

Lemma dot_add (a b c s : matrix.matrix T) i j :
  matrix.cols b = matrix.cols c → matrix.cols s = matrix.cols b →
  (∀ k, (k < matrix.cols a)%nat →
     matrix.entry zero s k j = add (matrix.entry zero b k j) (matrix.entry zero c k j)) →
  matrix.dot zero add mul a s i j
  = add (matrix.dot zero add mul a b i j) (matrix.dot zero add mul a c i j).
Proof using add_assoc add_comm add_zero mul_add.
  intros Hbc Hsb Hent. unfold matrix.dot.
  assert (∀ n k0 acc1 acc2, (k0 + n ≤ matrix.cols a)%nat →
    fold_left (λ acc k, add acc (mul (matrix.entry zero a i k) (matrix.entry zero s k j)))
      (seq k0 n) (add acc1 acc2)
    = add (fold_left (λ acc k, add acc (mul (matrix.entry zero a i k) (matrix.entry zero b k j)))
             (seq k0 n) acc1)
          (fold_left (λ acc k, add acc (mul (matrix.entry zero a i k) (matrix.entry zero c k j)))
             (seq k0 n) acc2)) as H.
  { induction n as [|n IH]; intros k0 acc1 acc2 Hk; [done|].
    cbn [seq fold_left]. rewrite <- IH by lia. f_equal.
    rewrite Hent by lia. rewrite mul_add.
    set (p := mul _ (matrix.entry zero b k0 j)). set (q := mul _ (matrix.entry zero c k0 j)).
    rewrite <- !add_assoc. f_equal. rewrite !add_assoc. f_equal. apply add_comm. }
  rewrite <- (add_zero zero) at 1. apply H. lia.
Qed.

End distributivity.

(** * The scenarios of the specification, run on the code *)

Example scenario_add :
  scenario2 operator_plus "123456789012345678901234567890" "1"
  = Ok "123456789012345678901234567891"%string.
Proof. reflexivity. Qed.

Example scenario_mul :
  scenario2 operator_mul "100000000000000000000" "100000000000000000000"
  = Ok "10000000000000000000000000000000000000000"%string.
Proof. reflexivity. Qed.

Example scenario_div :
  scenario2 (operator_div 0) "-7" "2" = Ok "-3"%string ∧
  scenario2 (operator_rem 0) "-7" "2" = Ok "-1"%string.
Proof. split; reflexivity. Qed.

(** The specification expects ["-1"] and ["-2"] here. *)
Example scenario_shr :
  scenario1 (λ a, operator_shr a 1) "-1" = Ok "0"%string ∧
  scenario1 (λ a, operator_shr a 2) "-8" = Ok "-3"%string.
Proof. split; reflexivity. Qed.

Example scenario_compl : scenario1 operator_compl "0" = Ok "-1"%string.
Proof. reflexivity. Qed.

Example scenario_and :
  scenario2 operator_and "4294967295" "4294967295" = Ok "4294967295"%string ∧
  scenario2 operator_and "4294967295" "-1" = Ok "4294967295"%string.
Proof. split; reflexivity. Qed.

Example scenario_minus_zero : scenario1 operator_pos "-0" = Ok "0"%string.
Proof. reflexivity. Qed.

(** * Division *)

(** The scenario of the specification: [-7 / 2 = -3] and [-7 % 2 = -1]. *)
Lemma div_rem_minus_7_by_2 fuel :
  div_rem fuel (big_integer_ll 2) (big_integer_ll (-7))
  = Ok (big_integer_ll (-3), big_integer_ll (-1)).
Proof. destruct fuel; reflexivity. Qed.

(** C1 fails on the code.  Dividing 4294967297 by 1, [div_rem] stops its
    quotient loop as soon as the working dividend has fewer than two limbs:
    the low quotient limb stays 0, the quotient is 4294967296 and the
    remainder 1, which is not smaller in magnitude than the divisor. *)
Theorem div_rem_4294967297_by_1 fuel :
  let a := big_integer_ull 4294967297 false in
  let b := big_integer_ull 1 false in
  ∃ q r, div_rem fuel b a = Ok (q, r) ∧
    value a = 4294967297 ∧ value b = 1 ∧
    value q = 4294967296 ∧ value r = 1 ∧
    ¬ (Z.abs (value r) < Z.abs (value b)).
Proof.
  eexists _, _. split; [destruct fuel; reflexivity|]. vm_compute. repeat split; congruence.
Qed.

(** C3: [/=] and [%=] are left by the division-by-zero exception exactly
    when the divisor is zero, and the exception leaves the receiver as it
    was (the divisor is passed by value and cannot change). *)
Theorem division_by_zero_exactly (fuel : nat) (a b : big_integer) :
  wf b →
  (value b = 0 →
     operator_div_assign fuel (Other b) a = Throw division_by_zero a ∧
     operator_rem_assign fuel (Other b) a = Throw division_by_zero a) ∧
  (value b ≠ 0 →
     ∀ e t, operator_div_assign fuel (Other b) a = Throw e t ∨
            operator_rem_assign fuel (Other b) a = Throw e t →
            ¬ DivisionByZero e).
Proof.
  intros Hb. pose proof (is_zero_value b Hb) as Hz.
  unfold operator_div_assign, operator_rem_assign. simpl deref. split.
  - intros Hv. apply Hz in Hv. by rewrite (div_rem_throw fuel b a Hv).
  - intros Hv e t H. assert (is_zero b = false) as Hnz.
    { destruct (is_zero b); [|done]. by destruct Hv, (proj1 Hz). }
    assert (div_rem fuel b a = Throw e t) as Hd.
    { destruct (div_rem fuel b a) as [[q r]|e' t'| |]; simpl in H; destruct H as [H|H];
        done || by injection H as -> ->. }
    apply div_rem_throws_only in Hd as ->; [|done]. by intros [=].
Qed.

Lemma division_by_zero_exactly_witness :
  operator_div_assign 0 (Other (big_integer_ll 0)) (big_integer_ll 5)
    = Throw division_by_zero (big_integer_ll 5) ∧
  ∀ e t, operator_div_assign 0 (Other (big_integer_ll 2)) (big_integer_ll 5) = Throw e t ∨
         operator_rem_assign 0 (Other (big_integer_ll 2)) (big_integer_ll 5) = Throw e t →
         ¬ DivisionByZero e.
Proof.
  split.
  - refine (proj1 (proj1 (division_by_zero_exactly 0 (big_integer_ll 5) (big_integer_ll 0) _) _)).
    + split; [constructor|done].
    + reflexivity.
  - refine (proj2 (division_by_zero_exactly 0 (big_integer_ll 5) (big_integer_ll 2) _) _).
    + split; [repeat constructor; vm_compute; congruence|done].
    + vm_compute. congruence.
Defined.

(** * Right shift *)

(** C2 fails on the code.  [>>=] adds one to the magnitude of every negative
    result, also when no bit was shifted out, and never when the shifted
    magnitude is zero: [-8 >> 2] is -3 and [-1 >> 1] is 0, where the floors
    are -2 and -1. *)
Theorem shr_negative_not_floor :
  value (operator_shr (big_integer_ll (-8)) 2) = -3 ∧
  (-8) `div` 2 ^ 2 = -2 ∧
  value (operator_shr (big_integer_ll (-1)) 1) = 0 ∧
  (-1) `div` 2 ^ 1 = -1.
Proof. repeat split. Qed.

(** * Bitwise operations *)

(** The scenario of the specification:
    [4294967295 & 4294967295 = 4294967295 & -1 = 4294967295]. *)
Lemma and_4294967295 :
  operator_and (big_integer_ull 4294967295 false) (big_integer_ull 4294967295 false)
    = Ok (big_integer_ull 4294967295 false) ∧
  operator_and (big_integer_ull 4294967295 false) (big_integer_ll (-1))
    = Ok (big_integer_ull 4294967295 false).
Proof. split; reflexivity. Qed.

(** The sign flag of a bitwise result is the operation on the sign bits. *)
Lemma bitwise_operation_flag op rhs this r :
  bitwise_operation op rhs this = Ok r →
  _negative r = op_bool op (is_negative this) (is_negative (deref this rhs)).
Proof.
  unfold bitwise_operation. intros H.
  destruct (bitwise_loop _ _ _ _ _ _ _ _ _ _); simpl in H; try done.
  by injection H as <-.
Qed.

(** C8 fails on the code.  [4294967295 ^ -1] is -4294967296 and negative, as
    the exclusive or of the sign bits says; the conversion of the result back
    to a magnitude drops the carry out of the top limb, the magnitude comes out
    empty and the result is 0, which is not negative. *)
Theorem xor_sign_lost :
  let a := big_integer_ull 4294967295 false in
  let b := big_integer_ll (-1) in
  ∃ r, operator_xor a b = Ok r ∧
    value r = 0 ∧ is_negative r = false ∧
    op_bool bit_xor (is_negative a) (is_negative b) = true ∧
    Z.lxor (value a) (value b) = -4294967296.
Proof. eexists. split; [reflexivity|]. repeat split. Qed.

(** * Compound assignment of an object to itself *)

(** C9: [a -= a] leaves [a] holding twice its value.  The receiver is negated
    first, the right-hand side is read through the negated receiver, so the
    signs agree and the magnitudes are added; the final negation restores the
    sign.  Holds for every [a] whose limbs are 32-bit values. *)
Theorem minus_assign_self_doubles (a : big_integer) :
  limbs_ok (_data a) →
  ∃ r, operator_minus_assign Self a = Ok r ∧
    _negative r = _negative a ∧
    value r = 2 * value a.
Proof.
  intros Hl. unfold operator_minus_assign.
  destruct (operator_plus_assign_self (negate a) Hl) as (r & Hr & Hn & _ & Hv & _).
  rewrite Hr. cbn [mbind outcome_bind]. eexists. split; [reflexivity|].
  unfold value, negate in *. cbn [_data _negative] in *. rewrite Hn, negb_involutive.
  split; [done|]. rewrite Hv. destruct (_negative a); lia.
Qed.

Lemma minus_assign_self_doubles_witness :
  ∃ r, operator_minus_assign Self (big_integer_ll (-5)) = Ok r ∧
    _negative r = true ∧ value r = 2 * -5.
Proof.
  apply (minus_assign_self_doubles (big_integer_ll (-5))).
  repeat constructor; vm_compute; congruence.
Defined.

(** C10: [a *= a] leaves [a] equal to 0, whatever [a] was: [abs_mul] puts
    [rhs_size] zero limbs in front of the shared buffer and then reads the
    limbs of the right-hand side out of those zeros. *)
Theorem mul_assign_self_is_zero (a : big_integer) :
  ∃ r, operator_mul_assign Self a = Ok r ∧
    _data r = [] ∧ is_zero r = true ∧ value r = 0.
Proof.
  unfold operator_mul_assign. rewrite abs_mul_self. eexists. split; [reflexivity|].
  unfold value. cbn. split; [done|]. split; [done|]. by destruct (xorb _ _).
Qed.

(** * Complement *)

(** What [operator~] computes: on the integers denoted, [~a] is
    [-(a + 1)] for every well-formed [a], a zero whose flag is set included,
    and [~0] is the object [-1]. *)
Lemma complement_value :
  (∀ a, wf a → value (operator_compl a) = - (value a + 1)) ∧
  operator_compl (big_integer_ll 0) = big_integer_ll (-1).
Proof.
  split; [|reflexivity].
  intros [d neg] [Hl Hc]. simpl in Hl, Hc.
  unfold operator_compl, operator_pre_dec, negate. cbn [_data _negative].
  destruct (decide (d = [])) as [->|Hne].
  { cbn. by destruct neg. }
  assert (∀ f, is_zero (mk_big_integer d f) = false) as Hnz by (intros; by destruct d).
  rewrite Hnz, negb_involutive. unfold operator_pre_inc, is_negative. cbn [_data _negative].
  rewrite Hnz, andb_true_r.
  assert (1 ≤ abs_value d) as Hpos.
  { pose proof (canonical_lower d Hl Hc Hne) as Hlow.
    assert (0 < DIGIT_BASE ^ (Z.of_nat (length d) - 1)); [|lia].
    apply Z.pow_pos_nonneg; [done|]. destruct d; [done|]. simpl length. lia. }
  destruct neg; cbn [negb]; unfold value; cbn [_data _negative].
  - rewrite abs_sub_int_negative. cbn [_negative negb].
    rewrite abs_sub_int_value by (done || by vm_compute). simpl. lia.
  - rewrite abs_add_int_negative. cbn [_negative negb].
    rewrite abs_add_int_value by (done || by vm_compute). simpl. lia.
Qed.

(** Away from the zero whose sign flag is set, the identity holds between the
    objects the library computes: [a + 1] is returned, [~a] and [-(a + 1)] are
    canonical, and [==] finds them equal. *)
Lemma complement_identity (a : big_integer) :
  wf a → stale_sign a = false →
  ∃ s, operator_plus a (big_integer_ll 1) = Ok s ∧
    wf (operator_compl a) ∧ wf (operator_neg s) ∧
    operator_eq (operator_compl a) (operator_neg s) = true.
Proof.
  intros Ha Hs.
  destruct (operator_plus_assign_value a (big_integer_ll 1) Ha (big_integer_ll_wf 1) Hs)
    as (s & Hplus & Hwf & Hv).
  { destruct (is_negative a) eqn:En; [right|by left].
    unfold is_negative, is_zero in En. destruct (_data a); [|simpl; lia].
    by rewrite andb_false_r in En. }
  exists s. split; [done|].
  assert (wf (operator_compl a)) as Hwc by (by apply operator_compl_wf).
  assert (wf (operator_neg s)) as Hwn by (by apply negate_wf).
  split; [done|]. split; [done|].
  apply operator_eq_value; [done|done|].
  unfold operator_neg. rewrite value_negate, Hv, (proj1 complement_value a Ha). done.
Qed.

(** C6 fails on the code.  The string constructor reads ["-0"] as a zero whose
    sign flag is set.  On it [~a] is -1, as the claim says; but [a + 1] adds
    the magnitudes and keeps that flag, so [a + 1] is -1, [-(a + 1)] is 1, and
    [==] finds [~a] and [-(a + 1)] different. *)
Theorem complement_stale_zero :
  ∃ a s, big_integer_of_string (str "-0") = Ok a ∧ wf a ∧ value a = 0 ∧
    operator_plus a (big_integer_ll 1) = Ok s ∧
    value s = -1 ∧
    value (operator_compl a) = -1 ∧ value (operator_neg s) = 1 ∧
    operator_eq (operator_compl a) (operator_neg s) = false.
Proof.
  eexists _, _. split; [reflexivity|]. split; [split; [constructor|done]|].
  split; [reflexivity|]. split; [reflexivity|]. repeat split.
Qed.

(** * Parsing *)

(** C5: the string constructor is left by a parse error exactly when the
    string is empty, is a lone minus sign, or has a character that is not a
    decimal digit after the optional leading minus sign; on every other string
    it returns the well-formed integer the numeral denotes. *)
Theorem parse_error_exactly (s : list ascii) :
  let malformed := s = [] ∨ s = ["-"%char] ∨ ¬ all_digits (digit_region s) in
  (malformed ↔ ∃ e t, big_integer_of_string s = Throw e t ∧ ParseError e) ∧
  (¬ malformed →
     ∃ r, big_integer_of_string s = Ok r ∧ wf r ∧
       value r = if has_minus s then - decimal_value (digit_region s)
                 else decimal_value (digit_region s)).
Proof.
  intros malformed.
  assert (malformed ↔ digit_region s = [] ∨ ¬ all_digits (digit_region s)) as Hm.
  { subst malformed. rewrite digit_region_nil. tauto. }
  assert (¬ malformed →
     ∃ r, big_integer_of_string s = Ok r ∧ wf r ∧
       value r = if has_minus s then - decimal_value (digit_region s)
                 else decimal_value (digit_region s)) as Hok.
  { intros Hn. rewrite Hm in Hn.
    destruct (big_integer_of_string_ok s) as (r & Hr & Hwf & Hneg & Hv).
    - intros E. apply Hn. by left.
    - destruct (all_digits_dec (digit_region s)) as [|Hnd]; [done|]. destruct Hn. by right.
    - exists r. split; [done|]. split; [done|]. unfold value. by rewrite Hneg, Hv. }
  split; [|done]. split.
  - intros H. apply big_integer_of_string_throws. by apply Hm.
  - intros (e & t & Ht & _).
    destruct (all_digits_dec (digit_region s)) as [Hd|Hnd]; [|right; by right].
    destruct (decide (digit_region s = [])) as [E|Hne]; [by apply Hm; left|].
    destruct (big_integer_of_string_ok s Hne Hd) as (r & Hr & _). congruence.
Qed.

Lemma parse_error_exactly_witness :
  ∃ r, big_integer_of_string (str "-1234567890123") = Ok r ∧ wf r ∧
    value r = - decimal_value (str "1234567890123").
Proof.
  apply (proj2 (parse_error_exactly (str "-1234567890123"))).
  intros [H|[H|H]]; [done|done|]. apply H. vm_compute. repeat constructor.
Defined.

(** * Round trip through decimal text *)

(** C4: for every well-formed [a], [to_string] returns a numeral that is
    ["0"] or has a first digit other than 0 after its optional minus sign (so
    no leading zero and no ["-0"]), and the string constructor reads that
    numeral back as an integer equal to [a] (the same object whenever [a] is
    not zero); [to_string(from_string("-0"))] is ["0"]. *)
Theorem to_string_round_trip :
  (∀ a, wf a →
     ∃ s, to_string a = Ok s ∧
       (s = ["0"%char] ∨
        ∃ c rest, digit_region s = c :: rest ∧ c ≠ "0"%char ∧ all_digits (c :: rest)) ∧
       ∃ r, big_integer_of_string s = Ok r ∧ operator_eq r a = true ∧
         (is_zero a = false → r = a)) ∧
  (∃ r, big_integer_of_string (str "-0") = Ok r ∧ to_string r = Ok (str "0")).
Proof.
  split; [|by eexists].
  intros a Hwf. destruct (is_zero a) eqn:Hz.
  - exists ["0"%char]. unfold to_string. rewrite Hz. split; [done|]. split; [by left|].
    eexists. split; [reflexivity|]. split; [|done].
    unfold operator_eq, is_negative. rewrite Hz. cbn. unfold is_zero in Hz.
    destruct (_data a); [|done]. by rewrite andb_false_r.
  - destruct (to_string_spec a Hwf Hz) as (ds & Hs & Hd & Hv & Hhead & Hne).
    destruct ds as [|c rest]; [done|].
    pose proof Hd as [Hc _]%all_digits_cons.
    destruct (digit_region_digit c rest Hc) as [Hreg Hmin].
    set (s := if is_negative a then "-"%char :: c :: rest else c :: rest) in *.
    assert (digit_region s = c :: rest ∧ has_minus s = is_negative a) as [Hrs Hms].
    { subst s. destruct (is_negative a); [done|]. by split. }
    exists s. split; [done|]. split.
    { right. exists c, rest. split; [done|]. split; [|done]. intros ->. by apply Hhead. }
    destruct (big_integer_of_string_ok s) as (r & Hr & [Hlr Hcr] & Hnr & Hvr).
    { by rewrite Hrs. }
    { by rewrite Hrs. }
    assert (r = a) as ->.
    { destruct Hwf as [Hla Hca]. rewrite Hrs, Hv in Hvr. rewrite Hms in Hnr.
      rewrite (is_negative_nonzero a Hz) in Hnr.
      pose proof (canonical_unique _ _ Hlr Hcr Hla Hca Hvr) as Hdata.
      destruct r, a. simpl in *. by subst. }
    exists a. split; [done|]. split; [|done].
    unfold operator_eq. rewrite Bool.eqb_reflx. by rewrite bool_decide_eq_true_2.
Qed.

Lemma to_string_round_trip_witness :
  ∃ s, to_string (big_integer_ll (-4294967296)) = Ok s ∧
    (s = ["0"%char] ∨
     ∃ c rest, digit_region s = c :: rest ∧ c ≠ "0"%char ∧ all_digits (c :: rest)) ∧
    ∃ r, big_integer_of_string s = Ok r ∧
      operator_eq r (big_integer_ll (-4294967296)) = true ∧
      (is_zero (big_integer_ll (-4294967296)) = false → r = big_integer_ll (-4294967296)).
Proof.
  apply (proj1 to_string_round_trip).
  split; [repeat constructor; vm_compute; congruence|done].
Defined.

(** * The canonical form *)

(** C7: whatever object a public operation returns (construction, parsing,
    arithmetic, bitwise operations, shifts, increment and decrement, also with
    the right-hand side aliasing the receiver), its limbs are 32-bit values,
    its highest limb, if any, is not zero, and it is 0 exactly when it has no
    limb. *)
Theorem canonical_form_invariant (a : big_integer) :
  produced a →
  limbs_ok (_data a) ∧ canonical (_data a) ∧ (value a = 0 ↔ _data a = []).
Proof.
  intros H.
  assert (wf a) as Hwf.
  { induction H as
      [ | val negative Hv | val | s r Hs | this _ IH
      | rhs this r _ IH _ IHr Hr | rhs this r _ IH _ IHr Hr | rhs this r _ IH _ IHr Hr
      | fuel rhs this r _ IH _ IHr Hr | fuel rhs this r _ IH _ IHr Hr
      | rhs this r _ IH _ IHr Hr | rhs this r _ IH _ IHr Hr | rhs this r _ IH _ IHr Hr
      | n this _ IH | n this _ IH | this _ IH | this _ IH | this _ IH | this _ IH
      | this _ IH ].
    - split; [constructor|done].
    - by apply big_integer_ull_wf.
    - apply big_integer_ll_wf.
    - by eapply big_integer_of_string_wf.
    - by apply negate_wf.
    - eapply operator_plus_assign_wf; [exact IH| |exact Hr].
      destruct rhs; [done|]. by apply IHr.
    - eapply operator_minus_assign_wf; [exact IH| |exact Hr].
      destruct rhs; [done|]. by apply IHr.
    - eapply operator_mul_assign_wf; [apply IH|exact Hr].
    - unfold operator_div_assign in Hr. apply bind_ok in Hr as ([q rem] & Hd & Hr).
      injection Hr as <-. eapply div_rem_wf in Hd as [? _]; [done|done|].
      destruct rhs; [apply IH|]. by apply IHr.
    - unfold operator_rem_assign in Hr. apply bind_ok in Hr as ([q rem] & Hd & Hr).
      injection Hr as <-. eapply div_rem_wf in Hd as [_ ?]; [done|done|].
      destruct rhs; [apply IH|]. by apply IHr.
    - eapply bitwise_operation_wf; [apply IH| |exact Hr]. intros b ->. by apply IHr.
    - eapply bitwise_operation_wf; [apply IH| |exact Hr]. intros b ->. by apply IHr.
    - eapply bitwise_operation_wf; [apply IH| |exact Hr]. intros b ->. by apply IHr.
    - apply operator_shl_assign_wf, IH.
    - apply operator_shr_assign_wf, IH.
    - done.
    - by apply negate_wf.
    - by apply operator_compl_wf.
    - by apply operator_pre_inc_wf.
    - by apply operator_pre_dec_wf. }
  destruct Hwf as [Hl Hc]. split; [done|]. split; [done|].
  rewrite <- (is_zero_value a (conj Hl Hc)). unfold is_zero.
  destruct (_data a); split; done.
Qed.

Lemma canonical_form_invariant_witness :
  ∃ r, operator_mul (big_integer_ll (-4294967296)) (big_integer_ll 4294967296) = Ok r ∧
    limbs_ok (_data r) ∧ canonical (_data r) ∧ (value r = 0 ↔ _data r = []).
Proof.
  eexists. split; [reflexivity|].
  apply canonical_form_invariant.
  eapply (produced_mul_assign (Other (big_integer_ll 4294967296)) (big_integer_ll (-4294967296))).
  - apply produced_ll.
  - intros b [= <-]. apply produced_ll.
  - reflexivity.
Defined.

(** * Construction from machine integers *)

(** X1: the constructor from [long long] denotes its argument, over the whole
    range of the type; the most negative value, whose magnitude [std::abs]
    cannot return, is handled by the special case of the constructor. *)
Theorem big_integer_ll_value (val : Z) :
  LLONG_MIN ≤ val ≤ LLONG_MAX →
  wf (big_integer_ll val) ∧ value (big_integer_ll val) = val.
Proof.
  intros Hv. split; [apply big_integer_ll_wf|].
  unfold big_integer_ll, value. rewrite big_integer_ull_negative.
  destruct (Z.eqb_spec val LLONG_MIN) as [->|Hne].
  - reflexivity.
  - unfold LLONG_MIN, LLONG_MAX in *.
    assert (0 ≤ Z.abs val < 2 ^ 64) as Habs
      by (change (2 ^ 64) with 18446744073709551616; lia).
    rewrite (to_double_small _ Habs).
    rewrite (big_integer_ull_abs _ _ Habs).
    destruct (Z.ltb_spec val 0); lia.
Qed.

Lemma big_integer_ll_value_witness :
  wf (big_integer_ll LLONG_MIN) ∧ value (big_integer_ll LLONG_MIN) = LLONG_MIN.
Proof. apply (big_integer_ll_value LLONG_MIN). vm_compute. split; congruence. Defined.

(** X2: the constructor from [unsigned long long] and a sign denotes the
    argument with that sign, in one or two limbs. *)
Theorem big_integer_ull_value (val : Z) (negative : bool) :
  0 ≤ val < 2 ^ 64 →
  wf (big_integer_ull val negative) ∧
  value (big_integer_ull val negative) = (if negative then - val else val) ∧
  (length (_data (big_integer_ull val negative)) ≤ 2)%nat.
Proof.
  intros Hv. split; [by apply big_integer_ull_wf|]. split.
  - unfold value. by rewrite big_integer_ull_negative, big_integer_ull_abs.
  - unfold big_integer_ull. destruct (val =? 0); [simpl; lia|].
    destruct (Z.shiftr val DIGIT_BITS =? 0); simpl; lia.
Qed.

Lemma big_integer_ull_value_witness :
  wf (big_integer_ull 18446744073709551615 true) ∧
  value (big_integer_ull 18446744073709551615 true) = - 18446744073709551615 ∧
  (length (_data (big_integer_ull 18446744073709551615 true)) ≤ 2)%nat.
Proof. apply (big_integer_ull_value 18446744073709551615 true). lia. Defined.

(** * Left shift *)

(** X3: [a << n] multiplies by [2 ^ n], for every shift count an [int] can
    hold without being negative, and returns a canonical object. *)
Theorem operator_shl_value (a : big_integer) (n : Z) :
  limbs_ok (_data a) → 0 ≤ n < 2 ^ 31 →
  wf (operator_shl a n) ∧ value (operator_shl a n) = value a * 2 ^ n.
Proof.
  intros Hl Hn. split; [by apply operator_shl_assign_wf|].
  destruct (operator_shl_assign_abs n a Hl Hn) as [Hf Hv].
  unfold operator_shl, value. rewrite Hf, Hv. destruct (_negative a); lia.
Qed.

Lemma operator_shl_value_witness :
  wf (operator_shl (big_integer_ll (-3)) 70) ∧
  value (operator_shl (big_integer_ll (-3)) 70) = value (big_integer_ll (-3)) * 2 ^ 70.
Proof.
  apply (operator_shl_value (big_integer_ll (-3)) 70); [|lia].
  repeat constructor; vm_compute; congruence.
Defined.

(** * Multiplication *)

(** X4: the product of two distinct objects is returned, is canonical and
    denotes the product of their values, whatever the sign flag of a zero
    operand is. *)
Theorem operator_mul_value (a b : big_integer) :
  limbs_ok (_data a) → limbs_ok (_data b) →
  ∃ r, operator_mul a b = Ok r ∧ wf r ∧ value r = value a * value b.
Proof.
  intros Ha Hb. unfold operator_mul, operator_mul_assign. cbn [deref].
  destruct (abs_mul_spec b (mk_big_integer (_data a) (xorb (_negative a) (is_negative b))) Ha Hb)
    as (r & Hr & Hwf & Hneg & Hv).
  exists r. split; [done|]. split; [done|].
  unfold value. rewrite Hneg, Hv. cbn [_data _negative].
  unfold is_negative, is_zero.
  destruct (_data b) as [|y d] eqn:Eb; cbn.
  - rewrite andb_false_r. destruct (_negative a), (_negative b); simpl; lia.
  - rewrite andb_true_r. destruct (_negative a), (_negative b); simpl; lia.
Qed.

Lemma operator_mul_value_witness :
  ∃ r, operator_mul (big_integer_ll (-4294967296)) (big_integer_ll 3) = Ok r ∧ wf r ∧
    value r = value (big_integer_ll (-4294967296)) * value (big_integer_ll 3).
Proof.
  apply (operator_mul_value (big_integer_ll (-4294967296)) (big_integer_ll 3));
    repeat constructor; vm_compute; congruence.
Defined.

(** * Addition and subtraction *)

(** X5: [a + b] is returned, is canonical and denotes the sum of the values
    whenever the operands have the same sign or the right operand has no more
    limbs than the left one, the left operand not being a zero whose sign flag
    is set. *)
Theorem operator_plus_value (a b : big_integer) :
  wf a → wf b → stale_sign a = false →
  is_negative a = is_negative b ∨ (length (_data b) ≤ length (_data a))%nat →
  ∃ r, operator_plus a b = Ok r ∧ wf r ∧ value r = value a + value b.
Proof. apply operator_plus_assign_value. Qed.

Lemma operator_plus_value_witness :
  ∃ r, operator_plus (big_integer_ll 4294967296) (big_integer_ll (-1)) = Ok r ∧ wf r ∧
    value r = value (big_integer_ll 4294967296) + value (big_integer_ll (-1)).
Proof.
  apply (operator_plus_value (big_integer_ll 4294967296) (big_integer_ll (-1)));
    [apply big_integer_ll_wf|apply big_integer_ll_wf|reflexivity|right; vm_compute; lia].
Defined.

(** X6: with operands of different signs and a right operand of more limbs,
    [a + b] is never the sum: the subtraction writes its result into the
    shorter left operand, so either it stores a limb past the end of that
    vector, or it returns a number that lacks the high limbs of the
    difference. *)
Theorem plus_mixed_sign_longer_rhs (a b : big_integer) :
  wf a → wf b → is_negative a ≠ is_negative b →
  (length (_data a) < length (_data b))%nat →
  operator_plus a b = Undefined ∨
  ∃ r, operator_plus a b = Ok r ∧ Z.abs (value r) < Z.abs (value a + value b).
Proof.
  intros [Hla Hca] [Hlb Hcb] Hneg Hlen.
  unfold operator_plus, operator_plus_assign. cbn [deref data_of].
  assert (Bool.eqb (is_negative a) (is_negative b) = false) as ->.
  { apply Bool.eqb_false_iff. done. }
  assert ((length (_data a) =? length (_data b))%nat = false) as ->
    by (apply Nat.eqb_neq; lia).
  assert ((length (_data b) <? length (_data a))%nat = false) as ->
    by (apply Nat.ltb_ge; lia).
  rewrite (abs_subtract_other_short b a Hlen).
  pose proof (sub_limbs_spec (take (length (_data a)) (_data b)) (_data a) 0
                (limbs_ok_take _ _ Hlb) Hla) as Hs.
  rewrite length_take, Nat.min_l in Hs by lia. specialize (Hs eq_refl ltac:(lia)).
  destruct (sub_limbs (take (length (_data a)) (_data b)) (_data a) 0) as [zs borrow].
  destruct Hs as (Hlz & Hlenz & Hbor & Hv).
  destruct (Z.eqb_spec borrow 0) as [->|Hb]; [|by left].
  right. eexists. split; [reflexivity|].
  pose proof (abs_value_take_drop (length (_data a)) (_data b) ltac:(lia)) as Hsplit.
  pose proof (abs_value_drop_pos (length (_data a)) (_data b) Hlb Hcb Hlen) as Hhi.
  pose proof (abs_value_bound _ Hlz) as Hzb. rewrite Hlenz in Hzb.
  pose proof (abs_value_bound _ Hla) as Hab.
  assert (0 < DIGIT_BASE ^ Z.of_nat (length (_data a))) by (apply Z.pow_pos_nonneg; [done|lia]).
  assert (DIGIT_BASE ^ Z.of_nat (length (_data a))
          ≤ DIGIT_BASE ^ Z.of_nat (length (_data a)) * abs_value (drop (length (_data a)) (_data b)))
    by nia.
  unfold value at 1, trim. cbn [_data _negative].
  rewrite abs_value_trim, !value_is_negative.
  destruct (is_negative a), (is_negative b); try done; lia.
Qed.

Lemma plus_mixed_sign_longer_rhs_witness :
  operator_plus (big_integer_ll 5) (big_integer_ll (-4294967303)) = Undefined ∨
  ∃ r, operator_plus (big_integer_ll 5) (big_integer_ll (-4294967303)) = Ok r ∧
    Z.abs (value r) < Z.abs (value (big_integer_ll 5) + value (big_integer_ll (-4294967303))).
Proof.
  apply (plus_mixed_sign_longer_rhs (big_integer_ll 5) (big_integer_ll (-4294967303)));
    [apply big_integer_ll_wf|apply big_integer_ll_wf|done|vm_compute; lia].
Defined.

(** X7: [a - b] is returned, is canonical and denotes the difference of the
    values whenever the negated left operand and the right operand have the
    same sign or the right operand has no more limbs than the left one, the
    left operand not being a zero whose sign flag is clear. *)
Theorem operator_minus_value (a b : big_integer) :
  wf a → wf b → (is_zero a = true → _negative a = true) →
  is_negative (negate a) = is_negative b ∨ (length (_data b) ≤ length (_data a))%nat →
  ∃ r, operator_minus a b = Ok r ∧ wf r ∧ value r = value a - value b.
Proof.
  intros Ha Hb Hz Hc. unfold operator_minus, operator_minus_assign.
  destruct (operator_plus_assign_value (negate a) b) as (r & Hr & Hwf & Hv); try done.
  { unfold stale_sign, negate. cbn. destruct (is_zero a) eqn:E.
    - unfold is_zero in *. cbn. rewrite Hz by done. by destruct (_data a).
    - unfold is_zero in *. cbn. destruct (_data a); [done|]. apply andb_false_r. }
  rewrite Hr. cbn [mbind outcome_bind]. eexists. split; [reflexivity|].
  split; [by apply negate_wf|]. rewrite value_negate, Hv, value_negate. lia.
Qed.

Lemma operator_minus_value_witness :
  ∃ r, operator_minus (big_integer_ll (-7)) (big_integer_ll 4294967296) = Ok r ∧ wf r ∧
    value r = value (big_integer_ll (-7)) - value (big_integer_ll 4294967296).
Proof.
  apply (operator_minus_value (big_integer_ll (-7)) (big_integer_ll 4294967296));
    [apply big_integer_ll_wf|apply big_integer_ll_wf|done|by left].
Defined.

(** X8: subtracting from a zero whose sign flag is clear, as the default
    constructor and [big_integer(0)] make it, does not negate: [0 - b] is [b]
    for a [b] that is not negative, and 0 for a negative [b]. *)
Theorem zero_minus (a b : big_integer) :
  is_zero a = true → _negative a = false → limbs_ok (_data b) →
  ∃ r, operator_minus a b = Ok r ∧ value r = Z.max (value b) 0.
Proof.
  intros Hz Hn Hlb. destruct a as [d f]. unfold is_zero in Hz. cbn in Hz, Hn.
  destruct d; [|done]. subst f.
  unfold operator_minus, operator_minus_assign, negate at 2. cbn [_data _negative negb].
  destruct (operator_plus_assign_stale b Hlb) as (r & Hr & Hf & Hv).
  rewrite Hr. cbn [mbind outcome_bind]. eexists. split; [reflexivity|].
  rewrite value_negate. unfold value at 1. rewrite Hf, Hv. cbv iota. lia.
Qed.

Lemma zero_minus_witness :
  ∃ r, operator_minus (big_integer_ll 0) (big_integer_ll 5) = Ok r ∧
    value r = Z.max (value (big_integer_ll 5)) 0.
Proof.
  apply (zero_minus (big_integer_ll 0) (big_integer_ll 5)); [done|done|].
  repeat constructor; vm_compute; congruence.
Defined.

(** X9: [a += a] doubles the value: the right-hand side is read through the
    receiver, limb by limb, before each limb is overwritten. *)
Theorem plus_assign_self_doubles (a : big_integer) :
  wf a →
  ∃ r, operator_plus_assign Self a = Ok r ∧ wf r ∧ value r = 2 * value a.
Proof.
  intros [Hl Hc].
  destruct (operator_plus_assign_self a Hl) as (r & Hr & Hn & Hlr & Hv & Hcr).
  exists r. split; [done|]. split; [split; auto|].
  unfold value. rewrite Hn, Hv. destruct (_negative a); lia.
Qed.

Lemma plus_assign_self_doubles_witness :
  ∃ r, operator_plus_assign Self (big_integer_ll (-4294967295)) = Ok r ∧ wf r ∧
    value r = 2 * value (big_integer_ll (-4294967295)).
Proof.
  apply (plus_assign_self_doubles (big_integer_ll (-4294967295))).
  apply big_integer_ll_wf.
Defined.

(** X10: a sum that cancels keeps the sign flag of its left operand, and the
    zero it returns then adds with that flag: for a negative [a] and a [b]
    that is not negative, [(a + -a) + b] is [-b]. *)
Theorem cancel_then_add (a b : big_integer) :
  is_negative a = true → limbs_ok (_data b) → is_negative b = false →
  ∃ z r, operator_plus a (operator_neg a) = Ok z ∧ operator_plus z b = Ok r ∧
    value z = 0 ∧ value r = - value b.
Proof.
  intros Ha Hlb Hb. unfold operator_plus, operator_neg.
  rewrite (operator_plus_assign_cancel a Ha).
  destruct (operator_plus_assign_stale b Hlb) as (r & Hr & Hf & Hv).
  exists (mk_big_integer [] true), r. split; [done|]. split; [done|]. split; [done|].
  unfold value at 1. rewrite Hf, Hv. cbv iota.
  pose proof (abs_value_bound _ Hlb). rewrite (value_is_negative b), Hb. lia.
Qed.

Lemma cancel_then_add_witness :
  ∃ z r, operator_plus (big_integer_ll (-5)) (operator_neg (big_integer_ll (-5))) = Ok z ∧
    operator_plus z (big_integer_ll 3) = Ok r ∧
    value z = 0 ∧ value r = - value (big_integer_ll 3).
Proof.
  apply (cancel_then_add (big_integer_ll (-5)) (big_integer_ll 3)); [done| |done].
  repeat constructor; vm_compute; congruence.
Defined.

(** * Comparison *)

(** X11: on canonical objects the four order operators decide the order of
    the values. *)
Theorem order_operators_value (a b : big_integer) :
  wf a → wf b →
  (operator_gt a b = true ↔ value b < value a) ∧
  (operator_lt a b = true ↔ value a < value b) ∧
  (operator_le a b = true ↔ value a ≤ value b) ∧
  (operator_ge a b = true ↔ value b ≤ value a).
Proof.
  intros Ha Hb. unfold operator_ge, operator_le, operator_lt.
  pose proof (operator_gt_value a b Ha Hb) as H1.
  pose proof (operator_gt_value b a Hb Ha) as H2.
  repeat split; try tauto.
  - rewrite negb_true_iff. intros E. destruct (decide (value b < value a)) as [C|]; [|lia].
    apply H1 in C. congruence.
  - intros. apply negb_true_iff. destruct (operator_gt a b) eqn:E; [|done].
    assert (value b < value a) by tauto. lia.
  - rewrite negb_true_iff. intros E. destruct (decide (value a < value b)) as [C|]; [|lia].
    apply H2 in C. congruence.
  - intros. apply negb_true_iff. destruct (operator_gt b a) eqn:E; [|done].
    assert (value a < value b) by tauto. lia.
Qed.

Lemma order_operators_value_witness :
  (operator_gt (big_integer_ll (-4294967296)) (big_integer_ll (-7)) = true
     ↔ value (big_integer_ll (-7)) < value (big_integer_ll (-4294967296))) ∧
  (operator_lt (big_integer_ll (-4294967296)) (big_integer_ll (-7)) = true
     ↔ value (big_integer_ll (-4294967296)) < value (big_integer_ll (-7))) ∧
  (operator_le (big_integer_ll (-4294967296)) (big_integer_ll (-7)) = true
     ↔ value (big_integer_ll (-4294967296)) ≤ value (big_integer_ll (-7))) ∧
  (operator_ge (big_integer_ll (-4294967296)) (big_integer_ll (-7)) = true
     ↔ value (big_integer_ll (-7)) ≤ value (big_integer_ll (-4294967296))).
Proof.
  apply (order_operators_value (big_integer_ll (-4294967296)) (big_integer_ll (-7)));
    apply big_integer_ll_wf.
Defined.

(** X12: on canonical objects [==] and [!=] decide equality of the values;
    a zero is equal to a zero whatever their sign flags are. *)
Theorem equality_operators_value (a b : big_integer) :
  wf a → wf b →
  (operator_eq a b = true ↔ value a = value b) ∧
  (operator_ne a b = true ↔ value a ≠ value b).
Proof.
  intros Ha Hb.
  assert (operator_eq a b = true ↔ value a = value b) as Heq.
  { pose proof Ha as [Hla Hca]. pose proof Hb as [Hlb Hcb].
    pose proof (abs_value_bound _ Hla). pose proof (abs_value_bound _ Hlb).
    pose proof (is_negative_pos a Ha) as Hpa. pose proof (is_negative_pos b Hb) as Hpb.
    rewrite !value_is_negative. unfold operator_eq.
    rewrite andb_true_iff, bool_decide_eq_true, Bool.eqb_true_iff.
    split.
    - intros [-> ->]. done.
    - intros Hv.
      destruct (is_negative a) eqn:Ea, (is_negative b) eqn:Eb;
        try (specialize (Hpa eq_refl)); try (specialize (Hpb eq_refl)); try lia;
        (split; [done|]); apply canonical_unique; try done; lia. }
  split; [done|]. unfold operator_ne. rewrite negb_true_iff.
  destruct (operator_eq a b); split; try done.
  - intros E. destruct E. by apply Heq.
  - intros _ E. apply Heq in E. done.
Qed.

Lemma equality_operators_value_witness :
  (operator_eq (mk_big_integer [] true) (big_integer_ll 0) = true
     ↔ value (mk_big_integer [] true) = value (big_integer_ll 0)) ∧
  (operator_ne (mk_big_integer [] true) (big_integer_ll 0) = true
     ↔ value (mk_big_integer [] true) ≠ value (big_integer_ll 0)).
Proof.
  apply (equality_operators_value (mk_big_integer [] true) (big_integer_ll 0));
    split; done || constructor.
Defined.

(** * Increment and decrement *)

(** X13: [++a] adds one, except on a zero whose sign flag is set, which it
    turns into -1; [--a] always subtracts one.  Both return canonical
    objects. *)
Theorem increment_decrement_value (a : big_integer) :
  wf a →
  value (operator_pre_inc a) = (if stale_sign a then -1 else value a + 1) ∧
  value (operator_pre_dec a) = value a - 1 ∧
  wf (operator_pre_inc a) ∧ wf (operator_pre_dec a).
Proof.
  assert (∀ a, wf a →
            value (operator_pre_inc a) = if stale_sign a then -1 else value a + 1) as Hinc.
  { clear a. intros a Ha. pose proof Ha as [Hla Hca].
    pose proof (is_negative_pos a Ha) as Hpa.
    assert (0 ≤ 1 < DIGIT_BASE) as H1 by (limb_consts; lia).
    unfold operator_pre_inc. destruct (is_negative a) eqn:En; cbn [negb].
    - specialize (Hpa eq_refl).
      assert (stale_sign a = false) as ->.
      { unfold stale_sign, is_negative in *. destruct (_negative a), (is_zero a); done. }
      unfold value at 1. rewrite abs_sub_int_negative, abs_sub_int_value by (done || lia).
      rewrite value_is_negative, En.
      unfold is_negative in En. apply andb_true_iff in En as [-> _]. lia.
    - unfold value at 1. rewrite abs_add_int_negative, abs_add_int_value by done.
      unfold stale_sign, is_negative, value in *.
      destruct (_negative a), (is_zero a) eqn:Ez; cbn in *; try done; try lia.
      apply (is_zero_abs a Ha) in Ez. lia. }
  intros Ha. split; [by apply Hinc|]. split.
  - unfold operator_pre_dec. destruct (is_zero a) eqn:Ez.
    + pose proof (proj1 (is_zero_abs a Ha) Ez) as E0.
      unfold is_zero in Ez. destruct (_data a) eqn:Ed; [|done].
      unfold value. rewrite Ed. cbn. destruct (_negative a); lia.
    + rewrite value_negate, Hinc by (by apply negate_wf).
      assert (stale_sign (negate a) = false) as ->.
      { unfold stale_sign, negate, is_zero in *. cbn. destruct (_data a); [done|].
        apply andb_false_r. }
      rewrite value_negate. lia.
  - split; [by apply operator_pre_inc_wf|by apply operator_pre_dec_wf].
Qed.

Lemma increment_decrement_value_witness :
  value (operator_pre_inc (big_integer_ll (-4294967296)))
    = (if stale_sign (big_integer_ll (-4294967296)) then -1
       else value (big_integer_ll (-4294967296)) + 1) ∧
  value (operator_pre_dec (big_integer_ll (-4294967296)))
    = value (big_integer_ll (-4294967296)) - 1 ∧
  wf (operator_pre_inc (big_integer_ll (-4294967296))) ∧
  wf (operator_pre_dec (big_integer_ll (-4294967296))).
Proof.
  apply (increment_decrement_value (big_integer_ll (-4294967296))).
  apply big_integer_ll_wf.
Defined.

(** * Bitwise operations *)

(** X14: on operands that are not negative, [&], [|] and [^] are returned,
    are canonical and denote the bitwise operation on the values. *)
Theorem bitwise_nonneg_value (a b : big_integer) :
  limbs_ok (_data a) → limbs_ok (_data b) →
  _negative a = false → is_negative b = false →
  (∃ r, operator_and a b = Ok r ∧ wf r ∧ value r = Z.land (value a) (value b)) ∧
  (∃ r, operator_or a b = Ok r ∧ wf r ∧ value r = Z.lor (value a) (value b)) ∧
  (∃ r, operator_xor a b = Ok r ∧ wf r ∧ value r = Z.lxor (value a) (value b)).
Proof.
  intros Hla Hlb Ha Hb.
  assert (∀ op, ∃ r, bitwise_operation op (Other b) a = Ok r ∧ wf r ∧
                  value r = op_Z op (value a) (value b)) as H.
  { intros op. unfold bitwise_operation. cbn [deref data_of].
    assert (is_negative a = false) as -> by (unfold is_negative; by rewrite Ha).
    rewrite Hb, Ha.
    assert (op_bool op false false = false) as -> by (by destruct op).
    assert (∃ d, d = resize (length (_data a) `max` length (_data b)) 0 (_data a))
      as [d Hd] by eauto.
    rewrite <- Hd.
    assert (length d = (length (_data a) `max` length (_data b))%nat) as Hld
      by (by rewrite Hd, length_resize).
    rewrite <- Hld.
    rewrite (bitwise_loop_nonneg (length d) 0 op b d 1 1 1 d Hb);
      [|by rewrite drop_0, take_ge by lia|done].
    cbn [mbind outcome_bind]. rewrite take_0, drop_0, drop_ge, app_nil_r by lia.
    cbn [app].
    assert (limbs_ok d) as Hl by (rewrite Hd; by apply limbs_ok_resize).
    destruct (op_limbs_spec op d (_data b) Hl Hlb ltac:(lia)) as (Hlo & _ & Hv).
    eexists. split; [reflexivity|]. split; [by apply trim_wf|].
    unfold value at 1, trim. cbn [_data _negative]. rewrite abs_value_trim, Hv.
    rewrite Hd, abs_value_resize by lia.
    rewrite (value_is_negative b), Hb. unfold value. by rewrite Ha. }
  split; [apply (H bit_and)|]. split; [apply (H bit_or)|apply (H bit_xor)].
Qed.

Lemma bitwise_nonneg_value_witness :
  (∃ r, operator_and (big_integer_ll 12) (big_integer_ll 4294967306) = Ok r ∧ wf r ∧
     value r = Z.land (value (big_integer_ll 12)) (value (big_integer_ll 4294967306))) ∧
  (∃ r, operator_or (big_integer_ll 12) (big_integer_ll 4294967306) = Ok r ∧ wf r ∧
     value r = Z.lor (value (big_integer_ll 12)) (value (big_integer_ll 4294967306))) ∧
  (∃ r, operator_xor (big_integer_ll 12) (big_integer_ll 4294967306) = Ok r ∧ wf r ∧
     value r = Z.lxor (value (big_integer_ll 12)) (value (big_integer_ll 4294967306))).
Proof.
  apply (bitwise_nonneg_value (big_integer_ll 12) (big_integer_ll 4294967306));
    try done; repeat constructor; vm_compute; congruence.
Defined.

(** X15: a bitwise compound assignment of a canonical object to itself:
    [a &= a] and [a |= a] keep the limbs of [a] (and clear the sign flag of a
    zero), [a ^= a] is the zero of the default constructor. *)
Theorem bitwise_assign_self (a : big_integer) :
  wf a →
  operator_and_assign Self a = Ok (mk_big_integer (_data a) (is_negative a)) ∧
  operator_or_assign Self a = Ok (mk_big_integer (_data a) (is_negative a)) ∧
  operator_xor_assign Self a = Ok big_integer_default.
Proof.
  intros [Hl Hc].
  assert (∀ op, op ≠ bit_xor →
            bitwise_operation op Self a = Ok (mk_big_integer (_data a) (is_negative a))) as H.
  { intros op Hop. unfold bitwise_operation. cbn [deref data_of].
    rewrite Nat.max_id, resize_all.
    assert (op_bool op (is_negative a) (is_negative a) = is_negative a) as ->.
    { destruct op; simpl; [apply andb_diag|apply orb_diag|done]. }
    destruct (decide (_data a = [])) as [E|Hne].
    - rewrite E. cbn. done.
    - assert (is_negative a = _negative a) as ->.
      { destruct a as [d f]. by apply is_negative_mk. }
      rewrite bitwise_loop_self_id by (done || lia || by right).
      cbn [mbind outcome_bind]. unfold trim. cbn [_data _negative].
      by rewrite trim_data_id. }
  split; [by apply H|]. split; [by apply H|].
  unfold operator_xor_assign, bitwise_operation. cbn [deref data_of].
  rewrite Nat.max_id, resize_all.
  assert (op_bool bit_xor (is_negative a) (is_negative a) = false) as ->
    by (simpl; apply xorb_nilpotent).
  rewrite bitwise_loop_self_xor by (simpl; lia).
  cbn [mbind outcome_bind]. rewrite take_0, drop_ge, app_nil_r by (simpl; lia).
  cbn [app]. unfold trim. cbn [_data _negative]. by rewrite trim_data_replicate.
Qed.

Lemma bitwise_assign_self_witness :
  operator_and_assign Self (big_integer_ll (-4294967296))
    = Ok (mk_big_integer (_data (big_integer_ll (-4294967296)))
            (is_negative (big_integer_ll (-4294967296)))) ∧
  operator_or_assign Self (big_integer_ll (-4294967296))
    = Ok (mk_big_integer (_data (big_integer_ll (-4294967296)))
            (is_negative (big_integer_ll (-4294967296)))) ∧
  operator_xor_assign Self (big_integer_ll (-4294967296)) = Ok big_integer_default.
Proof.
  apply (bitwise_assign_self (big_integer_ll (-4294967296))). apply big_integer_ll_wf.
Defined.

(** * Right shift *)

(** X16: for a shift count an [int] can hold without being negative,
    [a >> s] is the floor of [a / 2 ^ s] exactly when [a] is not negative,
    or bits are shifted out of its magnitude and bits remain. *)
Theorem operator_shr_floor (a : big_integer) (s : Z) :
  wf a → 0 ≤ s < 2 ^ 31 →
  (value (operator_shr a s) = value a `div` 2 ^ s ↔
   is_negative a = false ∨
   (abs_value (_data a) `mod` 2 ^ s ≠ 0 ∧ 2 ^ s ≤ abs_value (_data a))).
Proof.
  intros Ha Hs. pose proof (operator_shr_value a s Ha Hs) as Hv. cbv zeta in Hv.
  rewrite Hv, value_is_negative.
  pose proof (is_negative_pos a Ha) as Hpos.
  pose proof (abs_value_bound _ (proj1 Ha)) as Hb.
  assert (0 < 2 ^ s) as Hp by (apply Z.pow_pos_nonneg; lia).
  pose proof (Z.div_mod (abs_value (_data a)) (2 ^ s) ltac:(lia)) as Hdm.
  pose proof (Z.mod_pos_bound (abs_value (_data a)) (2 ^ s) Hp) as Hmod.
  assert (0 ≤ abs_value (_data a) `div` 2 ^ s) as Hq by (apply Z.div_pos; lia).
  destruct (is_negative a); [|tauto]. specialize (Hpos eq_refl).
  assert (∀ q, q * 2 ^ s ≤ - abs_value (_data a) < (q + 1) * 2 ^ s →
               (- abs_value (_data a)) `div` 2 ^ s = q) as Hfloor.
  { intros q Hq'. symmetry. apply (Z.div_unique _ _ q (- abs_value (_data a) - q * 2 ^ s)); lia. }
  destruct (Z.eqb_spec (abs_value (_data a) `div` 2 ^ s) 0) as [E|E].
  - rewrite E in Hdm. rewrite (Hfloor (-1)) by lia.
    split; [lia|]. intros [?|[_ ?]]; [done|lia].
  - destruct (decide (abs_value (_data a) `mod` 2 ^ s = 0)) as [E0|E0].
    + rewrite (Hfloor (- (abs_value (_data a) `div` 2 ^ s))) by lia.
      split; [lia|]. intros [?|[? _]]; [done|lia].
    + rewrite (Hfloor (- (abs_value (_data a) `div` 2 ^ s + 1))) by lia.
      split; [|done]. intros _. right. split; [done|]. nia.
Qed.

Lemma operator_shr_floor_witness :
  value (operator_shr (big_integer_ll (-4294967303)) 33)
    = value (big_integer_ll (-4294967303)) `div` 2 ^ 33 ↔
  is_negative (big_integer_ll (-4294967303)) = false ∨
  (abs_value (_data (big_integer_ll (-4294967303))) `mod` 2 ^ 33 ≠ 0 ∧
   2 ^ 33 ≤ abs_value (_data (big_integer_ll (-4294967303)))).
Proof.
  apply (operator_shr_floor (big_integer_ll (-4294967303)) 33);
    [apply big_integer_ll_wf|lia].
Defined.

(** * Short division *)

(** X17: [abs_divide_int] divides the magnitude by a non-zero limb, keeps
    the sign flag, leaves the quotient canonical and returns the remainder of
    the magnitude. *)
Theorem abs_divide_int_quot_rem (val : Z) (a : big_integer) :
  limbs_ok (_data a) → 0 < val < DIGIT_BASE →
  wf (abs_divide_int val a).1 ∧
  value (abs_divide_int val a).1 = value a ÷ val ∧
  (abs_divide_int val a).2 = Z.abs (value a) `mod` val.
Proof.
  intros Hl Hval. pose proof (abs_divide_int_spec val a Hl Hval) as H.
  destruct (abs_divide_int val a) as [q r]. destruct H as (Hwf & Hf & Hv & Hr).
  pose proof (abs_value_bound _ Hl) as Hb.
  cbn [fst snd]. split; [done|]. unfold value. rewrite Hf, Hv, Hr. split.
  - destruct (_negative a).
    + rewrite Z.quot_opp_l by lia. by rewrite Z.quot_div_nonneg by lia.
    + by rewrite Z.quot_div_nonneg by lia.
  - f_equal. destruct (_negative a); lia.
Qed.

Lemma abs_divide_int_quot_rem_witness :
  wf (abs_divide_int 1000000000 (big_integer_ll (-12345678901234567890))).1 ∧
  value (abs_divide_int 1000000000 (big_integer_ll (-12345678901234567890))).1
    = value (big_integer_ll (-12345678901234567890)) ÷ 1000000000 ∧
  (abs_divide_int 1000000000 (big_integer_ll (-12345678901234567890))).2
    = Z.abs (value (big_integer_ll (-12345678901234567890))) `mod` 1000000000.
Proof.
  apply (abs_divide_int_quot_rem 1000000000 (big_integer_ll (-12345678901234567890))).
  - repeat constructor; vm_compute; congruence.
  - by vm_compute.
Defined.

(** * Decimal text *)

(** X18: [to_string] returns, for every canonical object, a numeral that
    has a minus sign exactly when the object is negative and whose digits
    denote the magnitude of its value. *)
Theorem to_string_value (a : big_integer) :
  wf a →
  ∃ s, to_string a = Ok s ∧
    has_minus s = is_negative a ∧
    all_digits (digit_region s) ∧
    decimal_value (digit_region s) = Z.abs (value a).
Proof.
  intros Ha. pose proof (abs_value_bound _ (proj1 Ha)) as Hb.
  destruct (is_zero a) eqn:Hz.
  - exists ["0"%char]. unfold to_string. rewrite Hz. split; [done|].
    pose proof (proj1 (is_zero_abs a Ha) Hz) as E0.
    unfold is_negative. rewrite Hz, andb_false_r.
    split; [done|]. split; [by repeat constructor|].
    rewrite value_is_negative. unfold is_negative. rewrite Hz, andb_false_r, E0. done.
  - destruct (to_string_spec a Ha Hz) as (ds & Hs & Hd & Hv & _ & Hne).
    destruct ds as [|c rest]; [done|].
    pose proof Hd as [Hc _]%all_digits_cons.
    destruct (digit_region_digit c rest Hc) as [Hreg Hmin].
    eexists. split; [exact Hs|].
    rewrite value_is_negative.
    destruct (is_negative a).
    + cbn [has_minus digit_region]. rewrite Hv. repeat split; [done|lia].
    + rewrite Hreg, Hmin, Hv. repeat split; [done|lia].
Qed.

Lemma to_string_value_witness :
  ∃ s, to_string (big_integer_ll (-18446744073709551)) = Ok s ∧
    has_minus s = is_negative (big_integer_ll (-18446744073709551)) ∧
    all_digits (digit_region s) ∧
    decimal_value (digit_region s) = Z.abs (value (big_integer_ll (-18446744073709551))).
Proof. apply (to_string_value (big_integer_ll (-18446744073709551))). apply big_integer_ll_wf. Defined.

(** * Division *)

(** X19: whenever [div_rem] returns, the remainder is negative only if the
    dividend is, and the quotient is negative only if the operands have
    different signs: each sign is the expected one unless the number is 0. *)
Theorem div_rem_signs (fuel : nat) (a b q r : big_integer) :
  div_rem fuel b a = Ok (q, r) →
  is_negative q = xorb (is_negative a) (is_negative b) && negb (is_zero q) ∧
  is_negative r = is_negative a && negb (is_zero r).
Proof.
  unfold div_rem. intros H.
  destruct (is_zero b); [done|].
  destruct (is_zero a || _)%bool.
  { injection H as <- <-. split; [by rewrite andb_false_r|].
    unfold is_negative. by rewrite <- andb_assoc, andb_diag. }
  invert_bind H. destruct a0 as [rhs k]. cbn beta iota zeta in H.
  destruct (_ <? _)%nat; [done|].
  invert_bind H. destruct a0 as [this1 q1]. cbn beta iota zeta in H.
  invert_bind H. destruct a0 as [this2 q2]. cbn beta iota zeta in H.
  injection H as <- <-. split; reflexivity.
Qed.

Lemma div_rem_signs_witness :
  is_negative (big_integer_ll (-3))
    = xorb (is_negative (big_integer_ll (-7))) (is_negative (big_integer_ll 2))
      && negb (is_zero (big_integer_ll (-3))) ∧
  is_negative (big_integer_ll (-1))
    = is_negative (big_integer_ll (-7)) && negb (is_zero (big_integer_ll (-1))).
Proof.
  apply (div_rem_signs 0 (big_integer_ll (-7)) (big_integer_ll 2)
           (big_integer_ll (-3)) (big_integer_ll (-1))).
  reflexivity.
Defined.

(** X20: [normalize] shifts a canonical non-zero object left by the count
    [k ≤ 31] it returns, which multiplies the value by [2 ^ k], keeps the
    number of limbs and brings the highest limb to at least half the base. *)
Theorem normalize_top_limb (this : big_integer) :
  wf this → is_zero this = false →
  ∃ r k top, normalize this = Ok (r, k) ∧ 0 ≤ k ≤ 31 ∧
    wf r ∧ value r = value this * 2 ^ k ∧
    length (_data r) = length (_data this) ∧
    last (_data r) = Some top ∧ DIGIT_BASE / 2 ≤ top.
Proof.
  intros Hwf Hz.
  destruct (normalize_top this Hwf Hz) as (r & k & top & Hn & Hk & Hr & Hf & Hv & Hlen & Htop).
  exists r, k, top. repeat split; try done; try lia; try apply Hr; try apply Htop.
  unfold value. rewrite Hf, Hv. destruct (_negative this); lia.
Qed.

Lemma normalize_top_limb_witness :
  ∃ r k top, normalize (big_integer_ll 12884901888) = Ok (r, k) ∧ 0 ≤ k ≤ 31 ∧
    wf r ∧ value r = value (big_integer_ll 12884901888) * 2 ^ k ∧
    length (_data r) = length (_data (big_integer_ll 12884901888)) ∧
    last (_data r) = Some top ∧ DIGIT_BASE / 2 ≤ top.
Proof.
  apply (normalize_top_limb (big_integer_ll 12884901888)); [apply big_integer_ll_wf|done].
Defined.

(** X21: for canonical operands of at most one limb, the divisor not zero,
    [/] and [%] are returned, are canonical and denote the quotient rounded
    towards zero and the remainder of the sign of the dividend. *)
Theorem division_single_limb (fuel : nat) (a b : big_integer) :
  wf a → wf b → (length (_data a) ≤ 1)%nat → length (_data b) = 1%nat →
  ∃ q r, operator_div fuel a b = Ok q ∧ operator_rem fuel a b = Ok r ∧
    wf q ∧ wf r ∧
    value q = value a ÷ value b ∧ value r = Z.rem (value a) (value b).
Proof.
  intros Ha Hb Hla Hlb.
  unfold operator_div, operator_rem, operator_div_assign, operator_rem_assign. cbn [deref].
  destruct (_data b) as [|y [|? ?]] eqn:Eb; try done. clear Hlb.
  assert (0 < y < DIGIT_BASE) as Hy.
  { destruct Hb as [Hl Hc]. rewrite Eb in Hl, Hc.
    apply limbs_ok_cons in Hl as [? _]. assert (y ≠ 0); [|lia]. intros ->. by apply Hc. }
  destruct (_data a) as [|x [|? ?]] eqn:Ea; [| |simpl in Hla; lia].
  - (* the dividend is zero *)
    unfold div_rem.
    assert (is_zero b = false) as -> by (unfold is_zero; by rewrite Eb).
    assert (is_zero a = true) as -> by (unfold is_zero; by rewrite Ea).
    cbn [orb mbind outcome_bind]. eexists _, _. split; [reflexivity|]. split; [reflexivity|].
    split; [split; [constructor|done]|]. split; [done|].
    assert (value a = 0) as -> by (unfold value; rewrite Ea; by destruct (_negative a)).
    split; [by rewrite Z.quot_0_l by (rewrite value_is_negative, Eb; simpl;
                                       destruct (is_negative b); lia)|].
    by rewrite Z.rem_0_l by (rewrite value_is_negative, Eb; simpl;
                              destruct (is_negative b); lia).
  - assert (0 < x < DIGIT_BASE) as Hx.
    { destruct Ha as [Hl Hc]. rewrite Ea in Hl, Hc.
      apply limbs_ok_cons in Hl as [? _]. assert (x ≠ 0); [|lia]. intros ->. by apply Hc. }
    destruct (div_rem_single fuel a b x y Ea Eb Hx Hy)
      as (q & r & Hd & Hwfq & Hwfr & Hfq & Hvq & Hfr & Hvr).
    rewrite Hd. cbn [mbind outcome_bind]. exists q, r.
    split; [done|]. split; [done|]. split; [done|]. split; [done|].
    rewrite (value_is_negative a), (value_is_negative b), Ea, Eb.
    unfold value. rewrite Hfq, Hfr, Hvq, Hvr. cbn [abs_value].
    rewrite !Z.mul_0_r, !Z.add_0_r.
    assert (x ÷ y = x `div` y) as Hqd by (apply Z.quot_div_nonneg; lia).
    assert (Z.rem x y = x `mod` y) as Hrm by (apply Z.rem_mod_nonneg; lia).
    destruct (is_negative a), (is_negative b); cbn [xorb];
      rewrite ?Z.quot_opp_l, ?Z.quot_opp_r, ?Z.rem_opp_l', ?Z.rem_opp_r' by lia;
      rewrite ?Hqd, ?Hrm; split; lia.
Qed.

Lemma division_single_limb_witness :
  ∃ q r, operator_div 0 (big_integer_ll (-4294967295)) (big_integer_ll 7) = Ok q ∧
    operator_rem 0 (big_integer_ll (-4294967295)) (big_integer_ll 7) = Ok r ∧
    wf q ∧ wf r ∧
    value q = value (big_integer_ll (-4294967295)) ÷ value (big_integer_ll 7) ∧
    value r = Z.rem (value (big_integer_ll (-4294967295))) (value (big_integer_ll 7)).
Proof.
  apply (division_single_limb 0 (big_integer_ll (-4294967295)) (big_integer_ll 7));
    [apply big_integer_ll_wf|apply big_integer_ll_wf|simpl; lia|done].
Defined.

(** * The limb-scalar primitives *)

(** X22: on an object whose limbs are 32-bit values and for a 32-bit
    argument, [abs_add_int] adds the argument to the magnitude and
    [abs_mul_int] multiplies the magnitude by it, growing by a limb when
    needed; [abs_sub_int] subtracts an argument that is not larger than the
    magnitude; all three keep the sign flag, and the last two leave the object
    canonical. *)
Theorem limb_primitives_value (rhs : Z) (a : big_integer) :
  limbs_ok (_data a) → 0 ≤ rhs < DIGIT_BASE →
  (limbs_ok (_data (abs_add_int rhs a)) ∧ _negative (abs_add_int rhs a) = _negative a ∧
   abs_value (_data (abs_add_int rhs a)) = abs_value (_data a) + rhs) ∧
  (wf (abs_mul_int rhs a) ∧ _negative (abs_mul_int rhs a) = _negative a ∧
   abs_value (_data (abs_mul_int rhs a)) = abs_value (_data a) * rhs) ∧
  (wf (abs_sub_int rhs a) ∧ _negative (abs_sub_int rhs a) = _negative a ∧
   (rhs ≤ abs_value (_data a) →
    abs_value (_data (abs_sub_int rhs a)) = abs_value (_data a) - rhs)).
Proof.
  intros Hl Hr. repeat split.
  - by apply abs_add_int_limbs.
  - apply abs_add_int_negative.
  - by apply abs_add_int_value.
  - by apply abs_mul_int_wf.
  - by apply abs_mul_int_wf.
  - apply abs_mul_int_negative.
  - by apply abs_mul_int_value.
  - by apply abs_sub_int_wf.
  - by apply abs_sub_int_wf.
  - intros. by apply abs_sub_int_value.
Qed.

Lemma limb_primitives_value_witness :
  (limbs_ok (_data (abs_add_int 4294967295 (big_integer_ll (-4294967295)))) ∧
   _negative (abs_add_int 4294967295 (big_integer_ll (-4294967295)))
     = _negative (big_integer_ll (-4294967295)) ∧
   abs_value (_data (abs_add_int 4294967295 (big_integer_ll (-4294967295))))
     = abs_value (_data (big_integer_ll (-4294967295))) + 4294967295) ∧
  (wf (abs_mul_int 4294967295 (big_integer_ll (-4294967295))) ∧
   _negative (abs_mul_int 4294967295 (big_integer_ll (-4294967295)))
     = _negative (big_integer_ll (-4294967295)) ∧
   abs_value (_data (abs_mul_int 4294967295 (big_integer_ll (-4294967295))))
     = abs_value (_data (big_integer_ll (-4294967295))) * 4294967295) ∧
  (wf (abs_sub_int 4294967295 (big_integer_ll (-4294967295))) ∧
   _negative (abs_sub_int 4294967295 (big_integer_ll (-4294967295)))
     = _negative (big_integer_ll (-4294967295)) ∧
   (4294967295 ≤ abs_value (_data (big_integer_ll (-4294967295))) →
    abs_value (_data (abs_sub_int 4294967295 (big_integer_ll (-4294967295))))
      = abs_value (_data (big_integer_ll (-4294967295))) - 4294967295)).
Proof.
  apply (limb_primitives_value 4294967295 (big_integer_ll (-4294967295))).
  - repeat constructor; vm_compute; congruence.
  - by vm_compute.
Defined.

(** * The class template [vector] *)

(** X23: with a copy constructor that does not throw and returns an equal
    element, [push_back] on a vector whose elements fit its buffer appends the
    value; the capacity stays when there is room, becomes 1 from 0 and doubles
    otherwise, and one nested call is all the growth needs. *)
Theorem vector_push_back_spec {T : Type} (copy : T → option T) (fuel : nat) (x : T)
    (v : vector.vector T) :
  vector.faithful copy → vector.fits v →
  ∃ v', vector.push_back copy (S fuel) x v = vector.Ret v' ∧
    vector.elems v' = vector.elems v ++ [x] ∧
    vector.fits v' ∧
    vector.capacity v' =
      (if (vector.size v <? vector.capacity v)%nat then vector.capacity v
       else if (vector.capacity v =? 0)%nat then 1%nat
       else (2 * vector.capacity v)%nat).
Proof.
  intros Hc Hfit. eexists. split; [by apply push_back_fits|].
  split; [done|]. split.
  - eapply (push_back_keeps_fits copy Hc fuel x v); [done|]. by apply push_back_fits.
  - cbn [vector.capacity vector.capacity_].
    destruct (_ <? _)%nat; [done|]. destruct (_ =? _)%nat; [done|]. unfold vector.capacity. lia.
Qed.

Lemma vector_push_back_spec_witness :
  ∃ v', vector.push_back Some 1 7 (vector.mk_vector [1; 2] 2) = vector.Ret v' ∧
    vector.elems v' = [1; 2] ++ [7] ∧
    vector.fits v' ∧
    vector.capacity v' = 4%nat.
Proof.
  apply (vector_push_back_spec Some 0 7 (vector.mk_vector [1; 2] 2)); [done|].
  unfold vector.fits, vector.size, vector.capacity. simpl. lia.
Defined.

(** X24: filling a default-constructed vector by [push_back] keeps the
    elements in order and leaves a capacity that is 0 for no element and
    otherwise the power of two with [size <= capacity < 2 * size]. *)
Theorem vector_growth {T : Type} (copy : T → option T) (xs : list T) :
  vector.faithful copy →
  ∃ v, vector.push_all copy xs vector.vector_default = vector.Ret v ∧
    vector.elems v = xs ∧
    (xs = [] → vector.capacity v = 0%nat) ∧
    (xs ≠ [] → ∃ k, vector.capacity v = (2 ^ k)%nat ∧
                 (length xs ≤ vector.capacity v < 2 * length xs)%nat).
Proof.
  intros Hc.
  set (I := λ v : vector.vector T,
         (vector.size v = 0%nat ∧ vector.capacity v = 0%nat) ∨
         ∃ k, vector.capacity v = (2 ^ k)%nat ∧
              (vector.size v ≤ vector.capacity v < 2 * vector.size v)%nat).
  assert (∀ ys v, I v →
            ∃ v', vector.push_all copy ys v = vector.Ret v' ∧
              vector.elems v' = vector.elems v ++ ys ∧ I v') as Hgen.
  { induction ys as [|y ys IH]; intros v HI.
    - exists v. by rewrite app_nil_r.
    - cbn [vector.push_all].
      assert (vector.fits v) as Hfit.
      { unfold vector.fits. destruct HI as [[-> ->]|(k & _ & ? & _)]; lia. }
      rewrite (push_back_fits copy Hc 0 y v Hfit). cbn [mbind vector.result_bind].
      edestruct IH as (v' & Hv' & He & HI'); [|exists v'; split; [exact Hv'|]].
      + unfold I, vector.size, vector.capacity in *. cbn [vector.elems vector.capacity_].
        rewrite length_app. cbn [length]. right.
        destruct HI as [[E0 C0]|(k & Hk & Hlo & Hhi)].
        * exists 0%nat. rewrite E0, C0. simpl. lia.
        * destruct (Nat.ltb_spec (length (vector.elems v)) (vector.capacity_ v)).
          -- exists k. lia.
          -- assert ((vector.capacity_ v =? 0)%nat = false) as ->
               by (apply Nat.eqb_neq; lia).
             exists (S k). rewrite Nat.pow_succ_r'. lia.
      + split; [|done]. rewrite He. cbn [vector.elems]. by rewrite <- app_assoc. }
  destruct (Hgen xs vector.vector_default) as (v & Hv & He & HI); [by left|].
  exists v. split; [done|]. split; [done|]. cbn in He. subst xs.
  unfold I, vector.size in HI. split.
  - intros E. rewrite E in HI. destruct HI as [[_ ?]|(k & _ & ? & ?)]; [done|simpl in *; lia].
  - intros Hne. destruct HI as [[E _]|HI]; [|done].
    destruct (vector.elems v); [done|simpl in E; lia].
Qed.

Lemma vector_growth_witness :
  ∃ v, vector.push_all Some [1; 2; 3; 4; 5] vector.vector_default = vector.Ret v ∧
    vector.elems v = [1; 2; 3; 4; 5] ∧
    ([1; 2; 3; 4; 5] = [] → vector.capacity v = 0%nat) ∧
    ([1; 2; 3; 4; 5] ≠ [] → ∃ k, vector.capacity v = (2 ^ k)%nat ∧
       (length [1; 2; 3; 4; 5] ≤ vector.capacity v < 2 * length [1; 2; 3; 4; 5])%nat).
Proof. apply (vector_growth Some [1; 2; 3; 4; 5]). done. Defined.

(** X25: [insert] at an index no larger than the size puts the value at
    that index and keeps the other elements in order; the returned iterator
    points at the new element. *)
Theorem vector_insert_spec {T : Type} (copy : T → option T) (fuel index : nat) (x : T)
    (v : vector.vector T) :
  vector.faithful copy → vector.fits v → (index ≤ vector.size v)%nat →
  ∃ v', vector.insert copy (S fuel) index x v = vector.Ret (v', index) ∧
    vector.elems v' = take index (vector.elems v) ++ x :: drop index (vector.elems v) ∧
    vector.fits v' ∧
    vector.subscript v' index = vector.Ret x.
Proof.
  intros Hc Hfit Hidx. unfold vector.insert.
  assert ((index <=? vector.size v)%nat = true) as -> by (by apply Nat.leb_le).
  cbn [negb]. pose proof (push_back_keeps_fits copy Hc fuel x v _ Hfit
                            (push_back_fits copy Hc fuel x v Hfit)) as Hfit'.
  rewrite (push_back_fits copy Hc fuel x v Hfit). cbn [mbind vector.result_bind].
  unfold vector.size in *. cbn [vector.elems vector.capacity_] in *.
  rewrite length_app in *. cbn [length] in *.
  replace (length (vector.elems v) + 1 - 1)%nat with (length (vector.elems v)) by lia.
  pose proof (insert_loop_spec (length (vector.elems v) - index)
                (take index (vector.elems v)) (drop index (vector.elems v)) [] x) as Hloop.
  rewrite length_drop, length_take, Nat.min_l in Hloop by lia.
  replace (index + (length (vector.elems v) - index))%nat
    with (length (vector.elems v)) in Hloop by lia.
  rewrite app_assoc, take_drop, !app_nil_r in Hloop.
  rewrite Hloop by done. cbn [mbind vector.result_bind].
  eexists. split; [reflexivity|]. cbn [vector.elems app]. split; [done|]. split.
  - unfold vector.fits, vector.size, vector.capacity in *. cbn [vector.elems vector.capacity_] in *.
    rewrite length_app, length_take in *. cbn [length] in *. rewrite length_drop. lia.
  - unfold vector.subscript, vector.size. cbn [vector.elems].
    rewrite length_app, length_take. cbn [length]. rewrite length_drop.
    assert ((index <? index `min` length (vector.elems v) + S (length (vector.elems v) - index))%nat
            = true) as -> by (apply Nat.ltb_lt; lia).
    cbn [negb]. rewrite lookup_app_r by (rewrite length_take; lia).
    rewrite length_take. replace (index - index `min` length (vector.elems v))%nat with 0%nat by lia.
    done.
Qed.

Lemma vector_insert_spec_witness :
  ∃ v', vector.insert Some 1 1 9 (vector.mk_vector [1; 2; 3] 3) = vector.Ret (v', 1%nat) ∧
    vector.elems v' = take 1 [1; 2; 3] ++ 9 :: drop 1 [1; 2; 3] ∧
    vector.fits v' ∧
    vector.subscript v' 1 = vector.Ret 9.
Proof.
  apply (vector_insert_spec Some 0 1 9 (vector.mk_vector [1; 2; 3] 3));
    [done|unfold vector.fits, vector.size, vector.capacity; simpl; lia|
     unfold vector.size; simpl; lia].
Defined.

(** X26: [erase(first, last)] removes the elements in the range and keeps
    the others in order, whenever the elements after the range are no more
    than the elements in it, which is when the ranges it hands to
    [std::swap_ranges] do not overlap. *)
Theorem vector_erase_range_spec {T : Type} (index last_index : nat) (v : vector.vector T) :
  (index ≤ last_index ≤ vector.size v)%nat →
  (vector.size v - last_index ≤ last_index - index)%nat →
  vector.erase_range index last_index v =
    vector.Ret (vector.mk_vector (take index (vector.elems v) ++ drop last_index (vector.elems v))
                  (vector.capacity v), index).
Proof.
  intros [Hil Hls] Hgap. unfold vector.erase_range, vector.swap_ranges.
  assert ((index <=? last_index)%nat = true) as -> by (by apply Nat.leb_le).
  assert ((last_index <=? vector.size v)%nat = true) as -> by (by apply Nat.leb_le).
  cbn [negb].
  assert ((last_index <? index + (vector.size v - last_index))%nat = false) as ->
    by (apply Nat.ltb_ge; lia).
  rewrite andb_false_r.
  unfold vector.size in *.
  assert (∃ n, n = (length (vector.elems v) - last_index)%nat) as [n Hn] by eauto.
  rewrite <- Hn.
  pose proof (swap_ranges_loop_spec n (take index (vector.elems v))
                (take n (drop index (vector.elems v)))
                (take (last_index - index - n) (drop (index + n) (vector.elems v)))
                (drop last_index (vector.elems v)) []) as Hloop.
  rewrite !length_take, !length_drop in Hloop.
  replace (index `min` length (vector.elems v) + n
           + (last_index - index - n) `min` (length (vector.elems v) - (index + n)))%nat
    with last_index in Hloop by lia.
  replace (index `min` length (vector.elems v))%nat with index in Hloop by lia.
  assert (take index (vector.elems v) ++ take n (drop index (vector.elems v))
            ++ take (last_index - index - n) (drop (index + n) (vector.elems v))
            ++ drop last_index (vector.elems v) ++ [] = vector.elems v) as Hsplit.
  { rewrite app_nil_r.
    replace (drop last_index (vector.elems v))
      with (drop (last_index - index - n) (drop (index + n) (vector.elems v)))
      by (rewrite drop_drop; f_equal; lia).
    rewrite take_drop. rewrite <- drop_drop, take_drop. apply take_drop. }
  rewrite Hsplit in Hloop. rewrite Hloop by lia. cbn [mbind vector.result_bind].
  rewrite pop_until_spec; unfold vector.size; cbn [vector.elems vector.capacity_].
  - rewrite app_assoc, take_app_length'; [done|].
    rewrite length_app, length_take, length_drop. lia.
  - rewrite !length_app, !length_take, !length_drop. simpl. lia.
  - rewrite !length_app, !length_take, !length_drop. simpl. lia.
Qed.

Lemma vector_erase_range_spec_witness :
  vector.erase_range 1 3 (vector.mk_vector [1; 2; 3; 4; 5] 8) =
    vector.Ret (vector.mk_vector (take 1 [1; 2; 3; 4; 5] ++ drop 3 [1; 2; 3; 4; 5]) 8, 1%nat).
Proof.
  apply (vector_erase_range_spec 1 3 (vector.mk_vector [1; 2; 3; 4; 5] 8));
    unfold vector.size; simpl; lia.
Defined.

(** X27: with a copy constructor that does not throw and returns an equal
    element, [reserve] never lowers the capacity, [shrink_to_fit] and the copy
    constructor leave a capacity equal to the size, [clear] keeps the
    capacity, and all but [clear] keep the elements. *)
Theorem vector_capacity_management {T : Type} (copy : T → option T) (n : nat)
    (v : vector.vector T) :
  vector.faithful copy → vector.fits v →
  vector.reserve copy n v
    = vector.Ret (vector.mk_vector (vector.elems v) (n `max` vector.capacity v)) ∧
  vector.shrink_to_fit copy v
    = vector.Ret (vector.mk_vector (vector.elems v) (vector.size v)) ∧
  vector.vector_copy copy v
    = vector.Ret (vector.mk_vector (vector.elems v) (vector.size v)) ∧
  vector.clear v = vector.Ret (vector.mk_vector [] (vector.capacity v)).
Proof.
  intros Hc Hfit. unfold vector.fits in Hfit. repeat split.
  - unfold vector.reserve. destruct (Nat.ltb_spec (vector.capacity v) n).
    + rewrite vector_copy_capacity_faithful by (done || lia). do 2 f_equal. lia.
    + destruct v as [l c]. cbn in *. do 2 f_equal. lia.
  - unfold vector.shrink_to_fit. destruct (Nat.eqb_spec (vector.size v) (vector.capacity v)) as [E|E].
    + destruct v as [l c]. cbn in *. by subst.
    + cbn [negb]. by rewrite vector_copy_capacity_faithful.
  - unfold vector.vector_copy. by rewrite vector_copy_capacity_faithful.
  - unfold vector.clear. rewrite pop_until_spec by lia. by rewrite take_0.
Qed.

Lemma vector_capacity_management_witness :
  vector.reserve Some 2 (vector.mk_vector [1; 2; 3] 4)
    = vector.Ret (vector.mk_vector [1; 2; 3] (2 `max` 4)) ∧
  vector.shrink_to_fit Some (vector.mk_vector [1; 2; 3] 4)
    = vector.Ret (vector.mk_vector [1; 2; 3] 3) ∧
  vector.vector_copy Some (vector.mk_vector [1; 2; 3] 4)
    = vector.Ret (vector.mk_vector [1; 2; 3] 3) ∧
  vector.clear (vector.mk_vector [1; 2; 3] 4) = vector.Ret (vector.mk_vector [] 4).
Proof.
  apply (vector_capacity_management Some 2 (vector.mk_vector [1; 2; 3] 4));
    [done|unfold vector.fits, vector.size, vector.capacity; simpl; lia].
Defined.

(** X28: on a vector whose elements fit its buffer, [push_back] ends in
    one of two ways: it returns, or it is left by an exception of the copy
    constructor; the latter exactly when copying the value throws, or the
    buffer is full and copying one of the elements into the larger buffer
    throws. *)
Theorem vector_push_back_raises {T : Type} (copy : T → option T) (fuel : nat) (x : T)
    (v : vector.vector T) :
  vector.fits v →
  (vector.push_back copy (S fuel) x v = vector.Raise ↔
     copy x = None ∨
     (vector.size v = vector.capacity v ∧ ∃ y, y ∈ vector.elems v ∧ copy y = None)) ∧
  (vector.push_back copy (S fuel) x v = vector.Raise ∨
   ∃ v', vector.push_back copy (S fuel) x v = vector.Ret v').
Proof.
  unfold vector.fits. intros Hfit. cbn [vector.push_back].
  destruct (Nat.leb_spec (vector.size v + 1) (vector.capacity v)) as [Hle|Hgt].
  - destruct (copy x) eqn:Ex.
    + split; [|right; eauto]. split; [done|]. intros [?|[? _]]; [done|lia].
    + split; [|by left]. split; [by left|done].
  - assert (vector.size v = vector.capacity v) as Hfull by lia.
    assert (∃ c, c = if (vector.capacity v =? 0)%nat then 1%nat
                     else (vector.capacity v * 2)%nat) as [c Hc] by eauto.
    rewrite <- Hc.
    assert (vector.size v + 1 ≤ c)%nat as Hroom.
    { rewrite Hc. destruct (Nat.eqb_spec (vector.capacity v) 0); lia. }
    unfold vector.vector_copy_capacity.
    assert ((vector.size v <=? c)%nat = true) as -> by (apply Nat.leb_le; lia).
    assert ((c =? 0)%nat = false) as -> by (apply Nat.eqb_neq; lia).
    cbn [negb]. pose proof (copy_elems_none copy (vector.elems v) []) as Hnone.
    destruct (vector.copy_elems copy (vector.elems v) []) as [l|] eqn:El.
    + cbn [mbind vector.result_bind].
      assert (length l = vector.size v) as Hl.
      { assert (∀ src dst l', vector.copy_elems copy src dst = Some l' →
                  length l' = (length dst + length src)%nat) as Hlen.
        { induction src as [|y src IH]; intros dst l' H; simpl in *.
          - injection H as <-. lia.
          - destruct (copy y); [|done]. apply IH in H. rewrite length_app in H. simpl in H. lia. }
        apply Hlen in El. simpl in El. done. }
      assert (∀ f, vector.push_back copy f x (vector.mk_vector l c)
                   = match copy x with
                     | Some x' => vector.Ret (vector.mk_vector (l ++ [x']) c)
                     | None => vector.Raise
                     end) as Hin.
      { intros f. destruct f; cbn [vector.push_back];
          unfold vector.size, vector.capacity in *; cbn [vector.elems vector.capacity_];
          (assert ((length l + 1 <=? c)%nat = true) as -> by (apply Nat.leb_le; lia)); done. }
      rewrite Hin. destruct (copy x) eqn:Ex.
      * split; [|right; eauto]. split; [done|].
        intros [?|[_ Hy]]; [done|]. apply Hnone in Hy. done.
      * split; [|by left]. split; [by left|done].
    + cbn [mbind vector.result_bind]. split; [|by left]. split; [|done].
      intros _. right. split; [done|]. by apply Hnone.
Qed.

Lemma vector_push_back_raises_witness :
  (vector.push_back (λ x : Z, if x =? 0 then None else Some x) 1 5 (vector.mk_vector [1; 0] 2)
     = vector.Raise ↔
     (if 5 =? 0 then None else Some 5) = None ∨
     (vector.size (vector.mk_vector [1; 0] 2) = vector.capacity (vector.mk_vector [1; 0] 2) ∧
      ∃ y, y ∈ [1; 0] ∧ (if y =? 0 then None else Some y) = None)) ∧
  (vector.push_back (λ x : Z, if x =? 0 then None else Some x) 1 5 (vector.mk_vector [1; 0] 2)
     = vector.Raise ∨
   ∃ v', vector.push_back (λ x : Z, if x =? 0 then None else Some x) 1 5
           (vector.mk_vector [1; 0] 2) = vector.Ret v').
Proof.
  apply (vector_push_back_raises (λ x : Z, if x =? 0 then None else Some x) 0 5
           (vector.mk_vector [1; 0] 2)).
  unfold vector.fits, vector.size, vector.capacity. simpl. lia.
Defined.

(** * The class template [matrix] *)

(** X29: for matrices whose arrays hold [rows * cols] elements and with
    [cols(a) = rows(b)], the product is returned with no assertion failing
    and no access outside an array; it is the matrix of the default
    constructor when it has no element, and otherwise has the rows of [a],
    the columns of [b], and in row [i] and column [j] the sum of the
    products of row [i] of [a] and column [j] of [b]. *)
Theorem matrix_multiply_spec {T : Type} (zero : T) (add mul : T → T → T)
    (a b : matrix.matrix T) :
  matrix.shaped a → matrix.shaped b → matrix.cols a = matrix.rows b →
  ∃ c, matrix.operator_mul zero add mul a b = matrix.Ret c ∧
    matrix.shaped c ∧
    ((matrix.rows a * matrix.cols b)%nat = 0%nat → c = matrix.matrix_default) ∧
    ((matrix.rows a * matrix.cols b)%nat ≠ 0%nat →
       matrix.rows c = matrix.rows a ∧ matrix.cols c = matrix.cols b) ∧
    ∀ i j, (i < matrix.rows a)%nat → (j < matrix.cols b)%nat →
      matrix.at_ c i j = matrix.Ret (matrix.dot zero add mul a b i j).
Proof.
  intros Ha Hb Hab. unfold matrix.operator_mul.
  rewrite (multiply_spec zero add mul a b Ha Hb Hab).
  eexists. split; [reflexivity|].
  assert (Forall (λ l : list T, length l = matrix.cols b)
            (map (matrix.product_row zero add mul a b) (seq 0 (matrix.rows a)))) as Hrows.
  { apply Forall_map_seq. intros i. apply product_row_length. }
  assert (∀ n, length (concat (map (matrix.product_row zero add mul a b) (seq 0 n)))
               = (n * matrix.cols b)%nat) as Hlen.
  { intros n. assert (∀ k, length (concat (map (matrix.product_row zero add mul a b) (seq k n)))
                           = (n * matrix.cols b)%nat) as H; [|apply H].
    induction n as [|n IH]; intros k; [done|].
    cbn [seq map concat]. rewrite length_app, product_row_length, IH. simpl. lia. }
  destruct (Nat.eqb_spec (matrix.rows a * matrix.cols b) 0) as [E|E].
  - split; [done|]. split; [done|]. split; [done|].
    intros i j Hi Hj. pose proof (offset_in_range i j _ _ Hi Hj). lia.
  - split.
    { unfold matrix.shaped, matrix.elements, matrix.size, matrix.rows, matrix.cols.
      cbn [matrix._data matrix._rows matrix._cols default]. apply Hlen. }
    split; [done|]. split; [done|].
    intros i j Hi Hj. unfold matrix.at_, matrix.rows, matrix.cols, matrix.buffer_at.
    cbn [matrix._data matrix._rows matrix._cols].
    assert ((i <? matrix._rows a)%nat = true) as -> by (by apply Nat.ltb_lt).
    cbn [negb]. fold (matrix.cols b).
    rewrite (concat_uniform_lookup (matrix.cols b)) by done.
    rewrite lookup_map_seq by done. cbn [mbind option_bind].
    unfold matrix.product_row. by rewrite lookup_map_seq by done.
Qed.

Lemma matrix_multiply_spec_witness :
  ∃ c, matrix.operator_mul 0 Z.add Z.mul
         (matrix.mk_matrix (Some [1; 2; 3; 4; 5; 6]) 2 3)
         (matrix.mk_matrix (Some [1; 0; 0; 1; 2; 2]) 3 2) = matrix.Ret c ∧
    matrix.shaped c ∧
    ((2 * 2)%nat = 0%nat → c = matrix.matrix_default) ∧
    ((2 * 2)%nat ≠ 0%nat → matrix.rows c = 2%nat ∧ matrix.cols c = 2%nat) ∧
    ∀ i j, (i < 2)%nat → (j < 2)%nat →
      matrix.at_ c i j
      = matrix.Ret (matrix.dot 0 Z.add Z.mul
                      (matrix.mk_matrix (Some [1; 2; 3; 4; 5; 6]) 2 3)
                      (matrix.mk_matrix (Some [1; 0; 0; 1; 2; 2]) 3 2) i j).
Proof.
  apply (matrix_multiply_spec 0 Z.add Z.mul
           (matrix.mk_matrix (Some [1; 2; 3; 4; 5; 6]) 2 3)
           (matrix.mk_matrix (Some [1; 0; 0; 1; 2; 2]) 3 2)); reflexivity.
Defined.

(** X30: multiplication distributes over addition up to [operator==], for
    an element type whose addition is associative and commutative with
    [value_type{}] as its neutral element, whose multiplication distributes
    over it and whose [==] is reflexive: with matching dimensions,
    [a * (b + c) == a * b + a * c] evaluates to true, all the operations
    returning; this includes products without elements, where the left side
    has no array and the right side an array of no element. *)
Theorem matrix_multiply_distributes {T : Type} (zero : T) (add mul : T → T → T)
    (eqb : T → T → bool) (a b c : matrix.matrix T) :
  (∀ x y z, add x (add y z) = add (add x y) z) → (∀ x y, add x y = add y x) →
  (∀ x, add zero x = x) → (∀ x y z, mul x (add y z) = add (mul x y) (mul x z)) →
  (∀ x, eqb x x = true) →
  matrix.shaped a → matrix.shaped b → matrix.shaped c →
  matrix.cols a = matrix.rows b → matrix.rows b = matrix.rows c →
  matrix.cols b = matrix.cols c →
  ∃ s l p1 p2 r,
    matrix.operator_plus zero add b c = matrix.Ret s ∧
    matrix.operator_mul zero add mul a s = matrix.Ret l ∧
    matrix.operator_mul zero add mul a b = matrix.Ret p1 ∧
    matrix.operator_mul zero add mul a c = matrix.Ret p2 ∧
    matrix.operator_plus zero add p1 p2 = matrix.Ret r ∧
    matrix.operator_eq eqb l r = matrix.Ret true.
Proof.
  intros Hassoc Hcomm Hzero Hdistr Hrefl Ha Hb Hc Hab Hr Hcc.
  pose proof Hb as Hb'. pose proof Hc as Hc'. unfold matrix.shaped, matrix.size in Hb', Hc'.
  set (s := matrix.mk_matrix (Some (zip_with add (matrix.elements b) (matrix.elements c)))
              (matrix.rows b) (matrix.cols b)).
  assert (matrix.shaped s) as Hs.
  { unfold matrix.shaped, matrix.size. cbn. rewrite length_zip_with, Hb', Hc', <- Hr, <- Hcc. lia. }
  exists s. unfold matrix.operator_mul.
  rewrite (operator_plus_spec zero add b c Hb Hc Hr Hcc).
  rewrite (multiply_spec zero add mul a s Ha Hs Hab).
  rewrite (multiply_spec zero add mul a b Ha Hb Hab).
  rewrite (multiply_spec zero add mul a c Ha Hc ltac:(congruence)).
  change (matrix.cols s) with (matrix.cols b). rewrite <- Hcc.
  destruct (Nat.eqb_spec (matrix.rows a * matrix.cols b) 0) as [E|E].
  - eexists _, _, _, _. repeat split; reflexivity.
  - eexists _, _, _, _. split; [done|]. split; [reflexivity|]. split; [reflexivity|].
    split; [reflexivity|]. split.
    { apply operator_plus_spec; try done;
        unfold matrix.shaped, matrix.elements, matrix.size; simpl;
        rewrite product_rows_length; unfold matrix.rows, matrix.cols in *; simpl; lia. }
    unfold matrix.operator_eq, matrix.rows, matrix.cols, matrix.size.
    cbn [matrix._rows matrix._cols]. rewrite !Nat.eqb_refl. cbn [andb].
    apply equal_loop_same; [done| |].
    + unfold matrix.elements. simpl.
      rewrite (zip_with_concat_rows add _ _ (matrix.cols b));
        [|intros; apply product_row_length|intros; rewrite product_row_length; congruence].
      f_equal. apply map_ext. intros i. unfold matrix.product_row.
      change (matrix.cols s) with (matrix.cols b). rewrite <- Hcc.
      rewrite zip_with_map_same. apply map_ext_in. intros j [_ Hj]%in_seq.
      apply dot_add; try done. intros k Hk. apply entry_zip_with; try done; lia.
    + unfold matrix.elements. simpl. rewrite product_rows_length. done.
Qed.

Lemma matrix_multiply_distributes_witness :
  ∃ s l p1 p2 r,
    matrix.operator_plus 0 Z.add
      (matrix.mk_matrix (Some [1; 0; 0; 1]) 2 2) (matrix.mk_matrix (Some [5; 6; 7; 8]) 2 2)
      = matrix.Ret s ∧
    matrix.operator_mul 0 Z.add Z.mul (matrix.mk_matrix (Some [1; 2; 3; 4]) 2 2) s
      = matrix.Ret l ∧
    matrix.operator_mul 0 Z.add Z.mul (matrix.mk_matrix (Some [1; 2; 3; 4]) 2 2)
      (matrix.mk_matrix (Some [1; 0; 0; 1]) 2 2) = matrix.Ret p1 ∧
    matrix.operator_mul 0 Z.add Z.mul (matrix.mk_matrix (Some [1; 2; 3; 4]) 2 2)
      (matrix.mk_matrix (Some [5; 6; 7; 8]) 2 2) = matrix.Ret p2 ∧
    matrix.operator_plus 0 Z.add p1 p2 = matrix.Ret r ∧
    matrix.operator_eq Z.eqb l r = matrix.Ret true.
Proof.
  apply (matrix_multiply_distributes 0 Z.add Z.mul Z.eqb
           (matrix.mk_matrix (Some [1; 2; 3; 4]) 2 2)
           (matrix.mk_matrix (Some [1; 0; 0; 1]) 2 2)
           (matrix.mk_matrix (Some [5; 6; 7; 8]) 2 2));
    try reflexivity; intros; lia.
Defined.
